(** * ChildProcess: lifecycle of a spawned process

    Shallow embedding of [src/shared/utilities/childProcess.ts].

    The class [ChildProcess] wraps one call of [crossSpawn.spawn], collects
    the text written to the two output streams, funnels every failure through
    one [errorHandler], and settles the promise returned by [run()] from the
    [close] or [exit] listener.  Node's event loop is single threaded: every
    listener runs to completion, so the class is modelled as a deterministic
    transition function over an explicit state, driven by a list of steps
    chosen by the environment (the caller and the Node runtime). *)

From Stdlib Require Import ZArith String Ascii List Bool Lia DecimalString.
From stdpp Require Import base option list strings.

(** ** JavaScript strings

    A string is a sequence of code units.  The embedding uses the 8-bit
    alphabet of [Ascii.ascii], read as the code units U+0000 to U+00FF;
    code units above U+00FF are outside the model. *)

Module Js.

(** [WhiteSpace] and [LineTerminator] code units of ECMAScript that fall
    in the 8-bit range: TAB, LF, VT, FF, CR, SP and NBSP. *)
Definition isWhiteSpace (c : ascii) : bool :=
  match N_of_ascii c with
  | 9%N | 10%N | 11%N | 12%N | 13%N | 32%N | 160%N => true
  | _ => false
  end.

Fixpoint trimStart (s : string) : string :=
  match s with
  | EmptyString => EmptyString
  | String c rest => if isWhiteSpace c then trimStart rest else s
  end.

Definition trimEnd (s : string) : string :=
  String.rev (trimStart (String.rev s)).

(** [String.prototype.trim] *)
Definition trim (s : string) : string := trimEnd (trimStart s).

Fixpoint join_with (sep : string) (l : list string) : string :=
  match l with
  | [] => ""
  | [x] => x
  | x :: rest => x +:+ sep +:+ join_with sep rest
  end.

(** [Array.prototype.join(separator)]: when the separator is omitted
    (undefined) the elements are separated by a comma. *)
Definition join (l : list string) (separator : option string) : string :=
  join_with (default "," separator) l.

(** Plain concatenation, [join('')]. *)
Definition concat (l : list string) : string := join l (Some "").

(** Template-literal rendering of an integer number. *)
Definition numberToString (z : Z) : string :=
  NilZero.string_of_int (Z.to_int z).

(** [a ?? b] on an optional value. *)
Definition nullish {A} (a : option A) (b : A) : A := default b a.

(** A property of an object literal: the object does not have it, or has
    it as an own property, whose value is undefined or a value:
    [{}], [{p: undefined}] and [{p: v}]. *)
Inductive Property (A : Type) : Type :=
| Absent
| Undefined
| Value (v : A).
Arguments Absent {A}.
Arguments Undefined {A}.
Arguments Value {A} v.

(** [o.p]: reading a property that is absent gives undefined. *)
Definition get {A} (p : Property A) : option A :=
  match p with
  | Value v => Some v
  | Undefined | Absent => None
  end.

(** Object spread [{...base, ...over}] on one property: the later object
    wins where it has the property as its own, also when the value of that
    property is undefined. *)
Definition spread {A} (base over : Property A) : Property A :=
  match over with
  | Absent => base
  | Undefined | Value _ => over
  end.

(** A parameter with a default value, [(x = d) => ...]: the default is
    taken when the argument is undefined. *)
Definition defaultParam {A} (d arg : option A) : option A :=
  match arg with
  | Some v => Some v
  | None => d
  end.

End Js.

(** ** Data model *)

(** An [Error] object, identified by its message. *)
Inductive Error : Type := MkError (message : string).

#[global] Instance Error_eq_dec : EqDecision Error.
Proof. solve_decision. Defined.

(** [boolean | ((x: A) => Error)] of [rejectOnError] and [rejectOnExit]. *)
Inductive RejectPolicy (A : Type) : Type :=
| RejectFlag (b : bool)
| RejectWith (f : A -> Error).
Arguments RejectFlag {A} b.
Arguments RejectWith {A} f.

(** The [Timeout] token of [timeoutUtils]: the class reads its [completed]
    flag and subscribes to the rejection of its [timer] promise. *)
Record Timeout : Type := mkTimeout { completed : bool }.

(** A user callback ([onStdout], [onStderr]) is opaque; it is known by a tag. *)
Definition Callback : Type := nat.

(** An options object, as the caller wrote it: every property is optional,
    and a property that is written can hold undefined. *)
Record ChildProcessOptions : Type := mkOptions {
  p_logging : Js.Property bool;
  p_collect : Js.Property bool;
  p_waitForStreams : Js.Property bool;
  p_useForceStop : Js.Property bool;
  p_rejectOnError : Js.Property (RejectPolicy Error);
  p_rejectOnExit : Js.Property (RejectPolicy Z);
  p_timeout : Js.Property Timeout;
  p_onStdout : Js.Property Callback;
  p_onStderr : Js.Property Callback;
  (** [ChildProcessRunOptions] adds [extraArgs] *)
  p_extraArgs : Js.Property (list string)
}.

(** The reads [options.logging], [options.collect], ... *)
Definition logging (o : ChildProcessOptions) : option bool :=
  Js.get (p_logging o).
Definition collect (o : ChildProcessOptions) : option bool :=
  Js.get (p_collect o).
Definition waitForStreams (o : ChildProcessOptions) : option bool :=
  Js.get (p_waitForStreams o).
Definition useForceStop (o : ChildProcessOptions) : option bool :=
  Js.get (p_useForceStop o).
Definition rejectOnError (o : ChildProcessOptions) : option (RejectPolicy Error) :=
  Js.get (p_rejectOnError o).
Definition rejectOnExit (o : ChildProcessOptions) : option (RejectPolicy Z) :=
  Js.get (p_rejectOnExit o).
Definition timeout (o : ChildProcessOptions) : option Timeout :=
  Js.get (p_timeout o).
Definition onStdout (o : ChildProcessOptions) : option Callback :=
  Js.get (p_onStdout o).
Definition onStderr (o : ChildProcessOptions) : option Callback :=
  Js.get (p_onStderr o).
Definition extraArgs (o : ChildProcessOptions) : option (list string) :=
  Js.get (p_extraArgs o).

(** [{}] *)
Definition noOptions : ChildProcessOptions :=
  mkOptions Js.Absent Js.Absent Js.Absent Js.Absent Js.Absent Js.Absent
    Js.Absent Js.Absent Js.Absent Js.Absent.

(** The [signal] property of a result: the close listener stores what the
    runtime delivered (a name or null), the exit listener stores a name or
    undefined. *)
Inductive SignalField : Type :=
| SigUndefined
| SigNull
| SigName (name : string).

(** [ChildProcessResult].  [exitCode] is typed [number]; at run time the
    close listener can store the runtime's null there, which is [None]. *)
Record ChildProcessResult : Type := mkResult {
  exitCode : option Z;
  error : option Error;
  stdout : string;
  stderr : string;
  signal : SignalField
}.

(** The handle returned by [spawn]: [pid] can be undefined (a child that
    could not be started), and each of the two streams can be absent.
    [h_signals] are the strings that [kill] of this handle accepts as the
    name of a signal: it raises on any other string. *)
Record Handle : Type := mkHandle {
  h_pid : option Z;
  h_stdout : bool;
  h_stderr : bool;
  h_signals : list string
}.

Inductive Logger : Type := TheLogger | NullLogger.
Inductive Level : Type := Info | Warn.

(** The private fields of the class. *)
Record ChildProcess : Type := mkChildProcess {
  command : string;
  args : list string;
  options : ChildProcessOptions;
  childProcess : option Handle;
  processErrors : list Error;
  processResult : option ChildProcessResult;
  log : Logger;
  stdoutChunks : list string;
  stderrChunks : list string
}.

(** [new ChildProcess(command, args, options)] *)
Definition constructor (command : string) (args : list string)
    (options : ChildProcessOptions) : ChildProcess :=
  {| command := command; args := args; options := options;
     childProcess := None; processErrors := []; processResult := None;
     log := if Js.nullish (logging options) true then TheLogger else NullLogger;
     stdoutChunks := []; stderrChunks := [] |}.

Definition set_childProcess (h : option Handle) (o : ChildProcess) : ChildProcess :=
  mkChildProcess (command o) (args o) (options o) h (processErrors o)
    (processResult o) (log o) (stdoutChunks o) (stderrChunks o).

Definition set_processErrors (l : list Error) (o : ChildProcess) : ChildProcess :=
  mkChildProcess (command o) (args o) (options o) (childProcess o) l
    (processResult o) (log o) (stdoutChunks o) (stderrChunks o).

Definition set_processResult (r : option ChildProcessResult) (o : ChildProcess)
    : ChildProcess :=
  mkChildProcess (command o) (args o) (options o) (childProcess o)
    (processErrors o) r (log o) (stdoutChunks o) (stderrChunks o).

Definition set_stdoutChunks (l : list string) (o : ChildProcess) : ChildProcess :=
  mkChildProcess (command o) (args o) (options o) (childProcess o)
    (processErrors o) (processResult o) (log o) l (stderrChunks o).

Definition set_stderrChunks (l : list string) (o : ChildProcess) : ChildProcess :=
  mkChildProcess (command o) (args o) (options o) (childProcess o)
    (processErrors o) (processResult o) (log o) (stdoutChunks o) l.

(** *** Methods that only read the fields *)

(** [makeResult(code, signal)] *)
Definition makeResult (o : ChildProcess) (code : option Z) (sig : SignalField)
    : ChildProcessResult :=
  {| exitCode := code;
     stdout := Js.trim (Js.join (stdoutChunks o) None);
     stderr := Js.trim (Js.join (stderrChunks o) None);
     error := head (processErrors o);
     signal := sig |}.

(** [result()] *)
Definition result (o : ChildProcess) : option ChildProcessResult :=
  processResult o.

(** [pid()] *)
Definition pid (o : ChildProcess) : Z :=
  match childProcess o with
  | Some h => Js.nullish (h_pid h) (-1)%Z
  | None => (-1)%Z
  end.

(** [get stopped()] *)
Definition stopped (o : ChildProcess) : bool :=
  match childProcess o with
  | None => false
  | Some _ => match processResult o with Some _ => true | None => false end
  end.

(** [toString()] *)
Definition toString (o : ChildProcess) : string :=
  let p := if (0 <? pid o)%Z
           then "PID " +:+ Js.numberToString (pid o) +:+ ":"
           else "(not started)" in
  p +:+ " [" +:+ command o +:+ " " +:+ Js.join (args o) (Some " ") +:+ "]".

(** ** The running system

    Besides the object, the state records what lives in closures and in the
    runtime: one context per [run()] call (the merged options and the state
    of the promise created by the call), the listeners registered on the
    child, and the pending waits started by forced stops.  Two ghost fields
    record what the code did: the chronological list of effects on the
    outside world, and the number of assignments to [processResult]. *)

Inductive PromiseState : Type :=
| Pending
| Resolved (r : ChildProcessResult)
| Rejected (e : Error).

Definition settled (p : PromiseState) : bool :=
  match p with Pending => false | _ => true end.

(** [resolve] and [reject] of a promise: only the first call has an effect. *)
Definition resolve (r : ChildProcessResult) (p : PromiseState) : PromiseState :=
  match p with Pending => Resolved r | _ => p end.

Definition reject (e : Error) (p : PromiseState) : PromiseState :=
  match p with Pending => Rejected e | _ => p end.

(** The closure of one [run()] call.  [timerArmed]: the [catch] reaction on
    [timeout.timer] is registered and has not run.  [spawned]: [spawn]
    returned a handle in this call, so the listeners and [paramsContext] of
    this call exist.  [finalized]: the [finally] reaction has run, or there
    is none (the already-started guard throws before the promise chain is
    built). *)
Record RunCtx : Type := mkRunCtx {
  mergedOptions : ChildProcessOptions;
  promise : PromiseState;
  timerArmed : bool;
  spawned : bool;
  finalized : bool
}.

Definition set_promise (p : PromiseState) (c : RunCtx) : RunCtx :=
  mkRunCtx (mergedOptions c) p (timerArmed c) (spawned c) (finalized c).

Definition set_timerArmed (b : bool) (c : RunCtx) : RunCtx :=
  mkRunCtx (mergedOptions c) (promise c) b (spawned c) (finalized c).

Definition set_spawned (b : bool) (c : RunCtx) : RunCtx :=
  mkRunCtx (mergedOptions c) (promise c) (timerArmed c) b (finalized c).

Definition set_finalized (b : bool) (c : RunCtx) : RunCtx :=
  mkRunCtx (mergedOptions c) (promise c) (timerArmed c) (spawned c) b.

(** Listeners registered on the child by the run [owner].  The error and
    data listeners are registered with [on]; the close and exit listeners
    with [once], so each carries a flag that is cleared when it fires. *)
Record Listeners : Type := mkListeners {
  owner : nat;
  onClose : bool;
  onExit : bool
}.

Inductive WaitState : Type := Waiting | Finished.

(** A pending [waitUntil(async () => this.stopped, {timeout, interval})]
    started by [stop(true)], with the values its continuation closes over. *)
Record Escalation : Type := mkEscalation {
  e_child : Handle;
  e_pid : Z;
  e_command : string;
  e_timeout : Z;
  e_interval : Z;
  e_elapsed : Z;
  e_state : WaitState
}.

(** What the code does to the outside world.  [ESpawn] and [EKill] are the
    calls [crossSpawn.spawn(command, args, ...)] and [child.kill(signal)],
    recorded whether the call returns or throws. *)
Inductive Effect : Type :=
| ESpawn (command : string) (args : list string)
| EKill (child : Handle) (signal : option string)
| ELog (logger : Logger) (level : Level) (message : string)
| ECallback (cb : Callback) (text : string)
| EThrow (e : Error).

#[global] Instance Handle_eq_dec : EqDecision Handle.
Proof. solve_decision. Defined.
#[global] Instance Logger_eq_dec : EqDecision Logger.
Proof. solve_decision. Defined.
#[global] Instance Level_eq_dec : EqDecision Level.
Proof. solve_decision. Defined.
#[global] Instance Effect_eq_dec : EqDecision Effect.
Proof. solve_decision. Defined.

Record System : Type := mkSystem {
  obj : ChildProcess;
  runs : list RunCtx;
  listeners : option Listeners;
  escalations : list Escalation;
  effects : list Effect;
  resultWrites : nat
}.

Definition with_obj (f : ChildProcess -> ChildProcess) (s : System) : System :=
  mkSystem (f (obj s)) (runs s) (listeners s) (escalations s) (effects s)
    (resultWrites s).

Definition set_runs (l : list RunCtx) (s : System) : System :=
  mkSystem (obj s) l (listeners s) (escalations s) (effects s) (resultWrites s).

Definition set_listeners (l : option Listeners) (s : System) : System :=
  mkSystem (obj s) (runs s) l (escalations s) (effects s) (resultWrites s).

Definition set_escalations (l : list Escalation) (s : System) : System :=
  mkSystem (obj s) (runs s) (listeners s) l (effects s) (resultWrites s).

Definition emit (e : Effect) (s : System) : System :=
  mkSystem (obj s) (runs s) (listeners s) (escalations s) (effects s ++ [e])
    (resultWrites s).

(** [this.processResult = r] *)
Definition assign_processResult (r : ChildProcessResult) (s : System) : System :=
  mkSystem (set_processResult (Some r) (obj s)) (runs s) (listeners s)
    (escalations s) (effects s) (S (resultWrites s)).

(** Update of the closure of run [i]. *)
Definition update_run (i : nat) (f : RunCtx -> RunCtx) (s : System) : System :=
  match runs s !! i with
  | Some c => set_runs (<[i := f c]> (runs s)) s
  | None => s
  end.

(** The system right after construction of the object. *)
Definition boot (o : ChildProcess) : System :=
  mkSystem o [] None [] [] 0.

(** A statement either completes or throws. *)
Inductive Completion : Type :=
| Normal
| Thrown (e : Error).

(** ** The methods that change the state *)

(** The two constants that [stop] passes to [waitUntil], in milliseconds. *)
Definition forceDeadline : Z := 3000.
Definition forcePollInterval : Z := 200.

Definition alreadyKilled : Error :=
  MkError "Attempting to kill a process that has already been killed".

Definition unknownSignal (name : string) : Error :=
  MkError ("Unknown signal: " +:+ name).

(** What [child.kill(signal)] throws, if it throws: the runtime raises a
    [TypeError] on a signal name that it does not know, before anything is
    sent; without a signal it sends SIGTERM. *)
Definition killError (child : Handle) (signal : option string) : option Error :=
  match signal with
  | Some name =>
      if bool_decide (name ∈ h_signals child) then None
      else Some (unknownSignal name)
  | None => None
  end.

(** [stop(force = false, signal?)].  The call [child.kill(signal)] is
    recorded as an effect; when it throws, [stop] throws with it, before the
    wait is created.  Otherwise, with [force === true], a wait for [stopped]
    is started. *)
Definition stop (force : option bool) (signal : option string) (s : System)
    : Completion * System :=
  match childProcess (obj s) with
  | None => (Normal, s)
  | Some child =>
      let command := command (obj s) in
      let pid := pid (obj s) in
      if negb (stopped (obj s)) then
        let s1 := emit (EKill child signal) s in
        match killError child signal with
        | Some e => (Thrown e, s1)
        | None =>
            if Js.nullish force false then
              (Normal,
               set_escalations
                 (escalations s1 ++
                    [mkEscalation child pid command forceDeadline forcePollInterval
                       0 Waiting]) s1)
            else (Normal, s1)
        end
      else
        (Thrown alreadyKilled, s)
  end.

(** [if (policy) { if (typeof policy === 'function') reject(policy(x))
    else reject(dflt x) }]: the error to reject with, if any. *)
Definition rejection {A} (policy : option (RejectPolicy A)) (dflt : A -> Error)
    (x : A) : option Error :=
  match policy with
  | Some (RejectWith f) => Some (f x)
  | Some (RejectFlag true) => Some (dflt x)
  | Some (RejectFlag false) | None => None
  end.

(** [errorHandler(error, force = mergedOptions.useForceStop)] of the run
    [i], whose merged options are [opts]. *)
Definition errorHandler (i : nat) (opts : ChildProcessOptions) (error : Error)
    (force : option bool) (s : System) : Completion * System :=
  let force := Js.defaultParam (useForceStop opts) force in
  let s1 := with_obj (fun o => set_processErrors (processErrors o ++ [error]) o) s in
  let stopping :=
    if negb (stopped (obj s1)) then stop force None s1 else (Normal, s1) in
  match stopping with
  | (Thrown e, s2) => (Thrown e, s2)
  | (Normal, s2) =>
      match rejection (rejectOnError opts) (fun e => e) error with
      | Some e => (Normal, update_run i (fun c => set_promise (reject e (promise c)) c) s2)
      | None => (Normal, s2)
      end
  end.

(** [{ ...this.options, ...params }] *)
Definition merge (base params : ChildProcessOptions) : ChildProcessOptions :=
  {| p_logging := Js.spread (p_logging base) (p_logging params);
     p_collect := Js.spread (p_collect base) (p_collect params);
     p_waitForStreams := Js.spread (p_waitForStreams base) (p_waitForStreams params);
     p_useForceStop := Js.spread (p_useForceStop base) (p_useForceStop params);
     p_rejectOnError := Js.spread (p_rejectOnError base) (p_rejectOnError params);
     p_rejectOnExit := Js.spread (p_rejectOnExit base) (p_rejectOnExit params);
     p_timeout := Js.spread (p_timeout base) (p_timeout params);
     p_onStdout := Js.spread (p_onStdout base) (p_onStdout params);
     p_onStderr := Js.spread (p_onStderr base) (p_onStderr params);
     p_extraArgs := Js.spread (p_extraArgs base) (p_extraArgs params) |}.

(** [collect ??= true; waitForStreams ??= true] *)
Definition withDefaults (m : ChildProcessOptions) : ChildProcessOptions :=
  {| p_logging := p_logging m;
     p_collect := Js.Value (Js.nullish (collect m) true);
     p_waitForStreams := Js.Value (Js.nullish (waitForStreams m) true);
     p_useForceStop := p_useForceStop m;
     p_rejectOnError := p_rejectOnError m;
     p_rejectOnExit := p_rejectOnExit m;
     p_timeout := p_timeout m;
     p_onStdout := p_onStdout m;
     p_onStderr := p_onStderr m;
     p_extraArgs := p_extraArgs m |}.

(** What [crossSpawn.spawn] does is decided by the environment. *)
Inductive SpawnOutcome : Type :=
| SpawnReturns (h : Handle)
| SpawnThrows (e : Error).

Definition alreadyStarted : Error := MkError "process already started".
Definition tokenCompleted : Error := MkError "Timeout token was already completed.".

(** The part of the promise executor from the [try] on. *)
Definition spawnPhase (i : nat) (opts : ChildProcessOptions) (spawn : SpawnOutcome)
    (s : System) : System :=
  let args := args (obj s) ++ Js.nullish (extraArgs opts) [] in
  let s1 := emit (ESpawn (command (obj s)) args) s in
  match spawn with
  | SpawnThrows e =>
      match errorHandler i opts e None s1 with
      | (Normal, s2) => s2
      | (Thrown e', s2) =>
          update_run i (fun c => set_promise (reject e' (promise c)) c) s2
      end
  | SpawnReturns h =>
      set_listeners (Some (mkListeners i true true))
        (update_run i (set_spawned true)
           (with_obj (set_childProcess (Some h)) s1))
  end.

(** [run(params)].  The call appends its closure to [runs]; the promise it
    returns is the one stored there. *)
Definition run (params : ChildProcessOptions) (spawn : SpawnOutcome) (s : System)
    : System :=
  let opts := withDefaults (merge (options (obj s)) params) in
  match childProcess (obj s) with
  | Some _ =>
      set_runs (runs s ++ [mkRunCtx opts (Rejected alreadyStarted) false false true]) s
  | None =>
      let i := length (runs s) in
      let s1 := emit (ELog (log (obj s)) Info ("Running: " +:+ toString (obj s))) s in
      let s2 := set_runs (runs s1 ++ [mkRunCtx opts Pending false false false]) s1 in
      match timeout opts with
      | Some t =>
          if completed t then
            update_run i (fun c => set_promise (reject tokenCompleted (promise c)) c) s2
          else spawnPhase i opts spawn (update_run i (set_timerArmed true) s2)
      | None => spawnPhase i opts spawn s2
      end
  end.

(** An exception that escapes a listener or a call made by the user is
    recorded; the state changes made before it stay. *)
Definition uncaught (r : Completion * System) : System :=
  match r with
  | (Normal, s) => s
  | (Thrown e, s) => emit (EThrow e) s
  end.

(** Events that the runtime emits on the child and its streams. *)
Inductive ChildEvent : Type :=
| ProcessError (e : Error)
| StdoutError (e : Error)
| StderrError (e : Error)
| StdoutData (text : string)
| StderrData (text : string)
| Close (code : option Z) (signal : option string)
| Exit (code : option Z) (signal : option string).

Definition nonZeroExit (code : Z) : Error :=
  MkError ("Command exited with non-zero code: " +:+ Js.numberToString code).

(** The values handed to [makeResult] by the close listener, as delivered. *)
Definition rawSignal (signal : option string) : SignalField :=
  match signal with Some n => SigName n | None => SigNull end.

(** [typeof code === 'number' ? code : -1] and
    [typeof signal === 'string' ? signal : undefined] of the exit listener. *)
Definition exitCodeOrSentinel (code : option Z) : Z := Js.nullish code (-1)%Z.
Definition signalOrUndefined (signal : option string) : SignalField :=
  match signal with Some n => SigName n | None => SigUndefined end.

Definition onData (cb : option Callback) (text : string) (s : System) : System :=
  match cb with
  | Some f => emit (ECallback f text) s
  | None => s
  end.

Definition closeListener (l : Listeners) (code : option Z) (signal : option string)
    (s : System) : System :=
  let r := makeResult (obj s) code (rawSignal signal) in
  let s1 := assign_processResult r s in
  let s2 := update_run (owner l) (fun c => set_promise (resolve r (promise c)) c) s1 in
  set_listeners (Some (mkListeners (owner l) false (onExit l))) s2.

Definition exitListener (l : Listeners) (opts : ChildProcessOptions)
    (code : option Z) (signal : option string) (s : System) : System :=
  let r := makeResult (obj s) (Some (exitCodeOrSentinel code))
             (signalOrUndefined signal) in
  let s1 := assign_processResult r s in
  let s2 :=
    match code with
    | Some n =>
        if (n =? 0)%Z then s1
        else match rejection (rejectOnExit opts) nonZeroExit n with
             | Some e =>
                 update_run (owner l) (fun c => set_promise (reject e (promise c)) c) s1
             | None => s1
             end
    | None => s1
    end in
  let s3 :=
    match waitForStreams opts with
    | Some false =>
        update_run (owner l) (fun c => set_promise (resolve r (promise c)) c) s2
    | _ => s2
    end in
  set_listeners (Some (mkListeners (owner l) (onClose l) false)) s3.

(** Delivery of an event to the listeners registered on the child. *)
Definition deliver (ev : ChildEvent) (s : System) : System :=
  match listeners s, childProcess (obj s) with
  | Some l, Some child =>
      match runs s !! owner l with
      | None => s
      | Some c =>
          let opts := mergedOptions c in
          match ev with
          | ProcessError e => uncaught (errorHandler (owner l) opts e None s)
          | StdoutError e =>
              if h_stdout child
              then uncaught (errorHandler (owner l) opts e None s) else s
          | StderrError e =>
              if h_stderr child
              then uncaught (errorHandler (owner l) opts e None s) else s
          | StdoutData text =>
              if h_stdout child then
                onData (onStdout opts) text
                  (if Js.nullish (collect opts) false
                   then with_obj (fun o => set_stdoutChunks (stdoutChunks o ++ [text]) o) s
                   else s)
              else s
          | StderrData text =>
              if h_stderr child then
                onData (onStderr opts) text
                  (if Js.nullish (collect opts) false
                   then with_obj (fun o => set_stderrChunks (stderrChunks o ++ [text]) o) s
                   else s)
              else s
          | Close code signal =>
              if onClose l then closeListener l code signal s else s
          | Exit code signal =>
              if onExit l then exitListener l opts code signal s else s
          end
      end
  | _, _ => s
  end.

(** The [finally(() => cleanup())] reactions of the promises that have
    settled: [cleanup] removes every listener from [this.childProcess]. *)
Definition needsCleanup (c : RunCtx) : bool :=
  settled (promise c) && negb (finalized c).

Definition microtasks (s : System) : System :=
  if existsb needsCleanup (runs s) then
    set_runs
      (map (fun c => if needsCleanup c then set_finalized true c else c) (runs s))
      (match childProcess (obj s) with
       | Some _ => set_listeners None s
       | None => s
       end)
  else s.

Definition sigkillFailed (e : Escalation) : string :=
  "stop(): SIGKILL failed: pid=" +:+ Js.numberToString (e_pid e) +:+
  " command=" +:+ e_command e.

Definition set_escalation (k : nat) (e : Escalation) (s : System) : System :=
  set_escalations (<[k := e]> (escalations s)) s.

Definition finish (e : Escalation) : Escalation :=
  mkEscalation (e_child e) (e_pid e) (e_command e) (e_timeout e) (e_interval e)
    (e_elapsed e) Finished.

Definition sleep (e : Escalation) : Escalation :=
  mkEscalation (e_child e) (e_pid e) (e_command e) (e_timeout e) (e_interval e)
    (e_elapsed e + e_interval e) (e_state e).

(** How one poll of a wait ends: the wait goes on, it resolves with the
    true value of the condition, or it resolves with undefined. *)
Inductive WaitOutcome : Type :=
| StillWaiting
| Truthy
| TimedOut.

(** Modelled from the spec: [waitUntil] of [timeoutUtils], which is not
    among the sources.  It is a bounded wait: the condition is polled every
    [interval] milliseconds; the wait ends with the true value as soon as a
    poll finds the condition true, and without a value once the deadline
    [timeout] has elapsed.  This is one poll, on the value [condition] that
    the callback [async () => this.stopped] returned. *)
Definition waitUntilPoll (condition : bool) (e : Escalation)
    : WaitOutcome * Escalation :=
  if condition then (Truthy, finish e)
  else if (e_timeout e <=? e_elapsed e)%Z then (TimedOut, finish e)
  else (StillWaiting, sleep e).

(** One poll of the [k]-th wait started by [stop], followed by the
    continuation that [stop] attached to it: [then] calls
    [child.kill('SIGKILL')] on the child the wait was started for when the
    wait ended without a value, and [catch] logs a warning when that call
    throws ([killThrows], decided by the environment). *)
Definition poll (k : nat) (killThrows : bool) (s : System) : System :=
  match escalations s !! k with
  | None => s
  | Some e =>
      match e_state e with
      | Finished => s
      | Waiting =>
          let (outcome, e') := waitUntilPoll (stopped (obj s)) e in
          let s1 := set_escalation k e' s in
          match outcome with
          | StillWaiting | Truthy => s1
          | TimedOut =>
              let s2 := emit (EKill (e_child e) (Some "SIGKILL")) s1 in
              if killThrows
              then emit (ELog (log (obj s)) Warn (sigkillFailed e)) s2
              else s2
          end
      end
  end.

(** ** Steps of the environment *)

Inductive Step : Type :=
| CallRun (params : ChildProcessOptions) (spawn : SpawnOutcome)
| CallStop (force : option bool) (signal : option string)
| ReportError (i : nat) (err : string + Error)
| Emit (ev : ChildEvent)
| TimerRejected (i : nat) (e : Error)
| Microtasks
| Poll (k : nat) (killThrows : bool).

(** [err instanceof Error ? err : new Error(err)] *)
Definition toError (err : string + Error) : Error :=
  match err with inl m => MkError m | inr e => e end.

Definition step (st : Step) (s : System) : System :=
  match st with
  | CallRun params spawn => run params spawn s
  | CallStop force signal => uncaught (stop force signal s)
  | ReportError i err =>
      match runs s !! i with
      | Some c =>
          if spawned c
          then uncaught (errorHandler i (mergedOptions c) (toError err) None s)
          else s
      | None => s
      end
  | Emit ev => deliver ev s
  | TimerRejected i e =>
      match runs s !! i with
      | Some c =>
          if timerArmed c
          then uncaught (errorHandler i (mergedOptions c) e (Some true)
                           (update_run i (set_timerArmed false) s))
          else s
      | None => s
      end
  | Microtasks => microtasks s
  | Poll k killThrows => poll k killThrows s
  end.

Definition exec (steps : list Step) (s : System) : System :=
  fold_left (fun acc st => step st acc) steps s.

(** The promise returned by the [i]-th call of [run]. *)
Definition promiseOf (i : nat) (s : System) : option PromiseState :=
  promise <$> runs s !! i.

(** ** Vocabulary of the statements *)

(** How the fields of the object can differ between two moments of its
    life: the constructor's fields are fixed, a handle and a result stay
    once set, the error list and the two chunk buffers only grow at the end. *)
Record evolves (o o' : ChildProcess) : Prop := mkEvolves {
  ev_command : command o' = command o;
  ev_args : args o' = args o;
  ev_options : options o' = options o;
  ev_log : log o' = log o;
  ev_child : forall h, childProcess o = Some h -> childProcess o' = Some h;
  ev_result : is_Some (processResult o) -> is_Some (processResult o');
  ev_errors : processErrors o `prefix_of` processErrors o';
  ev_stdout : stdoutChunks o `prefix_of` stdoutChunks o';
  ev_stderr : stderrChunks o `prefix_of` stderrChunks o'
}.

(** Number of polls of the [k]-th wait in a list of steps. *)
Definition isPollOf (k : nat) (st : Step) : bool :=
  match st with
  | Poll k' _ => bool_decide (k' = k)
  | _ => false
  end.

Definition countPolls (k : nat) (steps : list Step) : nat :=
  length (filter (fun st => isPollOf k st = true) steps).

(** Steps that deliver one of the two events whose listeners assign
    [processResult]. *)
Definition isTerminalEvent (st : Step) : bool :=
  match st with
  | Emit (Close _ _) | Emit (Exit _ _) => true
  | _ => false
  end.

(** Number of once-listeners that can still fire. *)
Definition armed (l : option Listeners) : nat :=
  match l with
  | Some l => Nat.b2n (onClose l) + Nat.b2n (onExit l)
  | None => 0
  end.

Definition isSpawn (e : Effect) : bool :=
  match e with ESpawn _ _ => true | _ => false end.

(** Number of calls of [spawn] among the effects. *)
Definition spawnCount (l : list Effect) : nat :=
  length (filter (fun e => isSpawn e = true) l).

(** What holds of every system that starts from a fresh object: listeners
    exist only on a stored handle, a result is cached exactly when there
    was an assignment, and assignments and armed once-listeners together never
    exceed the two listeners that one successful spawn registers. *)
Record consistent (s : System) : Prop := mkConsistent {
  co_listeners : childProcess (obj s) = None -> listeners s = None;
  co_unwritten : resultWrites s = 0 <-> processResult (obj s) = None;
  co_unspawned : childProcess (obj s) = None -> resultWrites s = 0;
  co_budget : resultWrites s + armed (listeners s) <= 2
}.

(** The error that a step brings to [errorHandler], if it is delivered: a
    spawn that throws, a reported error, an error event of the child or of
    one of its streams, the rejection of the token's timer. *)
Definition observedError (st : Step) : option Error :=
  match st with
  | CallRun _ (SpawnThrows e) => Some e
  | ReportError _ err => Some (toError err)
  | Emit (ProcessError e) | Emit (StdoutError e) | Emit (StderrError e) => Some e
  | TimerRejected _ e => Some e
  | _ => None
  end.

Definition countTerminal (steps : list Step) : nat :=
  length (filter (fun st => isTerminalEvent st = true) steps).

(** No promise of [l'] is resolved that was not already resolved in [l]. *)
Definition unresolving (l l' : list RunCtx) : Prop :=
  forall i r, promise <$> l' !! i = Some (Resolved r) ->
              promise <$> l !! i = Some (Resolved r).

(** A promise newly resolved in [l'] carries a result made from [o]. *)
Definition resolving (o : ChildProcess) (l l' : list RunCtx) : Prop :=
  forall i r, promise <$> l' !! i = Some (Resolved r) ->
              promise <$> l !! i = Some (Resolved r) \/
              exists code sig, r = makeResult o code sig.

(** The two ways a step other than [run] can relate to the cached result:
    it leaves the result and the count of assignments alone and arms no
    listener, or it is a close or exit event delivered to an armed
    once-listener. *)
Definition quiet (s s' : System) : Prop :=
  resultWrites s' = resultWrites s /\
  processResult (obj s') = processResult (obj s) /\
  childProcess (obj s') = childProcess (obj s) /\
  (listeners s' = listeners s \/
   listeners s' = None /\ is_Some (childProcess (obj s))).

Definition fired (s s' : System) : Prop :=
  resultWrites s' = S (resultWrites s) /\
  is_Some (processResult (obj s')) /\
  childProcess (obj s') = childProcess (obj s) /\
  is_Some (childProcess (obj s)) /\
  S (armed (listeners s')) = armed (listeners s).

(** The state of the promise after the exit listener has run on a promise
    in state [p], with [r] the result the listener made. *)
Definition promiseAfterExit (opts : ChildProcessOptions) (code : option Z)
    (r : ChildProcessResult) (p : PromiseState) : PromiseState :=
  let p1 := match code with
            | Some n =>
                if (n =? 0)%Z then p
                else match rejection (rejectOnExit opts) nonZeroExit n with
                     | Some e => reject e p
                     | None => p
                     end
            | None => p
            end in
  match waitForStreams opts with
  | Some false => resolve r p1
  | _ => p1
  end.

Definition hasTimer (opts : ChildProcessOptions) : bool :=
  match timeout opts with Some _ => true | None => false end.

(** The two effects of a call of [run] that reaches [spawn]. *)
Definition running (s : System) : Effect :=
  ELog (log (obj s)) Info ("Running: " +:+ toString (obj s)).

Definition spawning (opts : ChildProcessOptions) (s : System) : Effect :=
  ESpawn (command (obj s)) (args (obj s) ++ Js.nullish (extraArgs opts) []).

(** The wait of a forced stop after [m] polls that found the process alive. *)
Definition waitingFor (child : Handle) (p : Z) (cmd : string) (m : nat) : Escalation :=
  mkEscalation child p cmd forceDeadline forcePollInterval
    (forcePollInterval * Z.of_nat m) Waiting.

(** *** Fixtures for the examples *)

Definition echo : System := boot (constructor "echo" ["hello"] noOptions).

(** Signal names of a POSIX platform. *)
Definition posixSignals : list string :=
  ["SIGHUP"; "SIGINT"; "SIGQUIT"; "SIGILL"; "SIGTRAP"; "SIGABRT"; "SIGBUS";
   "SIGFPE"; "SIGKILL"; "SIGUSR1"; "SIGSEGV"; "SIGUSR2"; "SIGPIPE"; "SIGALRM";
   "SIGTERM"; "SIGCHLD"; "SIGCONT"; "SIGSTOP"; "SIGTSTP"; "SIGTTIN"; "SIGTTOU"].

Definition child42 : Handle := mkHandle (Some 42%Z) true true posixSignals.

(** The handle of a child whose executable does not exist: no pid. *)
Definition childless : Handle := mkHandle None true true posixSignals.

Definition enoent : Error := MkError "spawn nonexistent ENOENT".

(** ** Vocabulary of the properties of whole traces *)

(** What a step may add to the effects. *)
Definition allowed (st : Step) (s : System) (e : Effect) : Prop :=
  match e with
  | EKill c _ =>
      stopped (obj s) = false /\
      (childProcess (obj s) = Some c \/
       exists k esc, escalations s !! k = Some esc /\ e_child esc = c)
  | ELog lg lvl msg =>
      lg = log (obj s) /\
      match lvl with
      | Info => childProcess (obj s) = None /\ msg = "Running: " +:+ toString (obj s)
      | Warn => exists k esc, escalations s !! k = Some esc /\ msg = sigkillFailed esc
      end
  | ESpawn _ _ => childProcess (obj s) = None /\ exists p sp, st = CallRun p sp
  | ECallback _ _ => exists ev, st = Emit ev
  | EThrow _ => exists f g, st = CallStop f g
  end.

Definition appends (st : Step) (s s' : System) : Prop :=
  exists l, effects s' = effects s ++ l /\ Forall (allowed st s) l.

Definition isKill (e : Effect) : bool :=
  match e with EKill _ _ => true | _ => false end.

Definition isThrow (e : Effect) : bool :=
  match e with EThrow _ => true | _ => false end.

Definition isCallStop (st : Step) : bool :=
  match st with CallStop _ _ => true | _ => false end.

(** The signals sent so far, and the exceptions that reached a caller. *)
Definition signalsSent (l : list Effect) : list Effect :=
  filter (fun e => isKill e = true) l.

Definition thrown (l : list Effect) : list Effect :=
  filter (fun e => isThrow e = true) l.

(** The wait that a forced stop starts on the object [o]. *)
Definition freshWait (o : ChildProcess) (esc : Escalation) : Prop :=
  exists child,
    childProcess o = Some child /\
    esc = mkEscalation child (pid o) (command o) forceDeadline forcePollInterval
            0 Waiting.

(** What holds of every wait of a forced stop on the object [o]. *)
Record sound (o : ChildProcess) (esc : Escalation) : Prop := mkSound {
  so_child : childProcess o = Some (e_child esc);
  so_pid : e_pid esc = pid o;
  so_command : e_command esc = command o;
  so_timeout : e_timeout esc = forceDeadline;
  so_interval : e_interval esc = forcePollInterval;
  so_elapsed : (0 <= e_elapsed esc <= forceDeadline)%Z;
  so_grid : exists n : nat, e_elapsed esc = (forcePollInterval * Z.of_nat n)%Z
}.

Definition starts (s s' : System) : Prop :=
  exists l, escalations s' = escalations s ++ l /\ Forall (freshWait (obj s)) l.

(** Every signal so far went to the handle of the object, and every wait is
    sound. *)
Definition targeted (s : System) : Prop :=
  (forall c sig, EKill c sig ∈ effects s -> childProcess (obj s) = Some c) /\
  Forall (sound (obj s)) (escalations s).

(** How the closure of a run can differ between two moments: its options
    and whether it spawned are fixed, and its promise is fixed once settled. *)
Record ctx_evolves (c c' : RunCtx) : Prop := mkCtxEvolves {
  ce_options : mergedOptions c' = mergedOptions c;
  ce_spawned : spawned c' = spawned c;
  ce_promise : settled (promise c) = true -> promise c' = promise c
}.

Definition runs_evolve (l l' : list RunCtx) : Prop :=
  forall i c, l !! i = Some c -> exists c', l' !! i = Some c' /\ ctx_evolves c c'.

Definition isCallback (e : Effect) : bool :=
  match e with ECallback _ _ => true | _ => false end.

(** The calls of the user callbacks so far, in order. *)
Definition intercepted (l : list Effect) : list Effect :=
  filter (fun e => isCallback e = true) l.

Definition isMicrotasks (st : Step) : bool :=
  match st with Microtasks => true | _ => false end.

(** What one step adds to the two buffers and to the calls of the
    callbacks, for listeners registered on [child] with the options [opts]. *)
Definition stdoutAdded (child : Handle) (opts : ChildProcessOptions) (st : Step)
    : list string :=
  match st with
  | Emit (StdoutData text) =>
      if h_stdout child && Js.nullish (collect opts) false then [text] else []
  | _ => []
  end.

Definition stderrAdded (child : Handle) (opts : ChildProcessOptions) (st : Step)
    : list string :=
  match st with
  | Emit (StderrData text) =>
      if h_stderr child && Js.nullish (collect opts) false then [text] else []
  | _ => []
  end.

Definition callbackAdded (child : Handle) (opts : ChildProcessOptions) (st : Step)
    : list Effect :=
  match st with
  | Emit (StdoutData text) =>
      match onStdout opts with
      | Some cb => if h_stdout child then [ECallback cb text] else []
      | None => []
      end
  | Emit (StderrData text) =>
      match onStderr opts with
      | Some cb => if h_stderr child then [ECallback cb text] else []
      | None => []
      end
  | _ => []
  end.

(** The listeners of the run [i], with options [opts], are registered on
    [child]. *)
Definition wired (i : nat) (child : Handle) (opts : ChildProcessOptions)
    (s : System) : Prop :=
  (exists l, listeners s = Some l /\ owner l = i) /\
  childProcess (obj s) = Some child /\
  (exists c, runs s !! i = Some c /\ mergedOptions c = opts).

Record advance (i : nat) (child : Handle) (opts : ChildProcessOptions)
    (st : Step) (s s' : System) : Prop := mkAdvance {
  ad_wired : wired i child opts s';
  ad_stdout : stdoutChunks (obj s') = stdoutChunks (obj s) ++ stdoutAdded child opts st;
  ad_stderr : stderrChunks (obj s') = stderrChunks (obj s) ++ stderrAdded child opts st;
  ad_callbacks :
    intercepted (effects s') = intercepted (effects s) ++ callbackAdded child opts st
}.

(** After [cleanup]: a handle is stored and no listener is registered. *)
Definition cleanedUp (s : System) : Prop :=
  is_Some (childProcess (obj s)) /\ listeners s = None.

(** The texts of the data events of each stream among the steps, and the
    calls that the callbacks [out] and [err] receive for them. *)
Definition stdoutTexts (steps : list Step) : list string :=
  omap (fun st => match st with Emit (StdoutData t) => Some t | _ => None end) steps.

Definition stderrTexts (steps : list Step) : list string :=
  omap (fun st => match st with Emit (StderrData t) => Some t | _ => None end) steps.

Definition callsFor (out err : Callback) (steps : list Step) : list Effect :=
  omap (fun st => match st with
                  | Emit (StdoutData t) => Some (ECallback out t)
                  | Emit (StderrData t) => Some (ECallback err t)
                  | _ => None
                  end) steps.

(** The state in which an exit or close event leaves a pending promise when
    it does not reject: resolved at once only without [waitForStreams]. *)
Definition settledAtExit (opts : ChildProcessOptions) (r : ChildProcessResult)
    : PromiseState :=
  match waitForStreams opts with
  | Some false => Resolved r
  | _ => Pending
  end.


Definition returnsHandle (st : Step) : bool :=
  match st with CallRun _ (SpawnReturns _) => true | _ => false end.

(** [rejectOnError] is unset or false. *)
Definition neverRejects (opts : ChildProcessOptions) : Prop :=
  rejectOnError opts = None \/ rejectOnError opts = Some (RejectFlag false).

(** The run [i] is pending, has no handle and no listener, and its options
    never reject. *)
Definition stranded (i : nat) (s : System) : Prop :=
  (exists c, runs s !! i = Some c /\ promise c = Pending /\ spawned c = false /\
             neverRejects (mergedOptions c)) /\
  (forall l, listeners s = Some l -> owner l <> i).

(** The string is empty or begins with a code unit that is not white
    space. *)
Definition startsClean (s : string) : Prop :=
  match s with
  | EmptyString => True
  | String c _ => Js.isWhiteSpace c = false
  end.

(** The same of its last code unit. *)
Definition endsClean (s : string) : Prop := startsClean (String.rev s).

(** The two lines the object can log, for its command and arguments, and
    for the pid it has once started. *)
Definition runningLine (cmd : string) (argv : list string) : string :=
  "Running: (not started) [" +:+ cmd +:+ " " +:+ Js.join argv (Some " ") +:+ "]".

Definition sigkillFailedLine (p : Z) (cmd : string) : string :=
  "stop(): SIGKILL failed: pid=" +:+ Js.numberToString p +:+ " command=" +:+ cmd.

(** Every line logged so far is one of the two, for the object [o]. *)
Definition known (o : ChildProcess) (e : Effect) : Prop :=
  match e with
  | ELog _ Info msg => msg = runningLine (command o) (args o)
  | ELog _ Warn msg =>
      is_Some (childProcess o) /\ msg = sigkillFailedLine (pid o) (command o)
  | _ => True
  end.

(** * Properties *)

(** *** Frame rules

    [update_run] touches the closure of one run and nothing else. *)

Section UpdateRun.
Variables (i : nat) (f : RunCtx -> RunCtx) (s : System).

Lemma obj_update_run : obj (update_run i f s) = obj s.
Proof using Type. unfold update_run. by destruct (runs s !! i). Qed.

Lemma effects_update_run : effects (update_run i f s) = effects s.
Proof using Type. unfold update_run. by destruct (runs s !! i). Qed.

Lemma escalations_update_run : escalations (update_run i f s) = escalations s.
Proof using Type. unfold update_run. by destruct (runs s !! i). Qed.

Lemma listeners_update_run : listeners (update_run i f s) = listeners s.
Proof using Type. unfold update_run. by destruct (runs s !! i). Qed.

Lemma writes_update_run : resultWrites (update_run i f s) = resultWrites s.
Proof using Type. unfold update_run. by destruct (runs s !! i). Qed.

End UpdateRun.

Create Rewrite HintDb frame.
#[local] Hint Rewrite obj_update_run effects_update_run escalations_update_run
  listeners_update_run writes_update_run : frame.

(** Case analysis on the completion of the call of [errorHandler] that
    occurs in the goal, after recording the fact [lem] about that call as
    [H]. *)
Ltac errorHandler_cases lem H :=
  match goal with
  | |- context [errorHandler ?a ?b ?c ?d ?x] =>
      pose proof (lem a b c d x) as H;
      destruct (errorHandler a b c d x) as [[|?] ?]
  end.

(** *** How the object changes *)

Lemma stop_obj force sig s : obj (stop force sig s).2 = obj s.
Proof. unfold stop. repeat case_match; done. Qed.

Lemma stop_live force sig s :
  stopped (obj s) = false ->
  (forall child, childProcess (obj s) = Some child -> killError child sig = None) ->
  (stop force sig s).1 = Normal.
Proof.
  unfold stop. intros -> Hk. destruct (childProcess (obj s)) as [child|]; [|done].
  rewrite (Hk child eq_refl). simpl. by case_match.
Qed.

(** The [stop] of [errorHandler] passes no signal, so its [kill] does not
    throw. *)
Lemma stop_live_default force s :
  stopped (obj s) = false -> (stop force None s).1 = Normal.
Proof. intros Hs. by apply stop_live. Qed.

Lemma errorHandler_obj i opts e force s :
  obj (errorHandler i opts e force s).2 =
  set_processErrors (processErrors (obj s) ++ [e]) (obj s).
Proof.
  unfold errorHandler.
  set (s1 := with_obj _ s).
  destruct (negb (stopped (obj s1))) eqn:Hst.
  - pose proof (stop_obj (Js.defaultParam (useForceStop opts) force) None s1) as Ho.
    destruct (stop _ _ s1) as [[|e'] s2]; simpl in *.
    + case_match; simpl; rewrite ?obj_update_run, Ho; done.
    + by rewrite Ho.
  - case_match; simpl; rewrite ?obj_update_run; done.
Qed.

Lemma errorHandler_normal i opts e force s :
  (errorHandler i opts e force s).1 = Normal.
Proof.
  unfold errorHandler.
  set (s1 := with_obj _ s).
  destruct (negb (stopped (obj s1))) eqn:Hst.
  - apply negb_true_iff in Hst.
    pose proof (stop_live_default (Js.defaultParam (useForceStop opts) force) s1 Hst) as Hn.
    destruct (stop _ _ s1) as [[|e'] s2]; simpl in *; [|done].
    by case_match.
  - by case_match.
Qed.

Lemma evolves_refl o : evolves o o.
Proof. by split. Qed.

Lemma evolves_trans o1 o2 o3 : evolves o1 o2 -> evolves o2 o3 -> evolves o1 o3.
Proof.
  intros [] []. split; try congruence; eauto; by etrans.
Qed.

#[global] Instance evolves_preorder : PreOrder evolves.
Proof. split; [exact evolves_refl | exact evolves_trans]. Qed.

Lemma obj_uncaught r : obj (uncaught r) = obj r.2.
Proof. by destruct r as [[] ?]. Qed.

Lemma evolves_push_error o e :
  evolves o (set_processErrors (processErrors o ++ [e]) o).
Proof. split; simpl; try done. by apply prefix_app_r. Qed.

Lemma obj_microtasks s : obj (microtasks s) = obj s.
Proof. unfold microtasks. repeat case_match; done. Qed.

Lemma obj_poll k b s : obj (poll k b s) = obj s.
Proof. unfold poll, waitUntilPoll. repeat case_match; simplify_eq; done. Qed.

Lemma evolves_spawnPhase i opts spawn s :
  childProcess (obj s) = None -> evolves (obj s) (obj (spawnPhase i opts spawn s)).
Proof.
  intros Hc. unfold spawnPhase. destruct spawn as [h|e].
  - simpl. rewrite obj_update_run. simpl. split; simpl; try done. congruence.
  - pose proof (errorHandler_obj i opts e None
      (emit (ESpawn (command (obj s)) (args (obj s) ++ Js.nullish (extraArgs opts) [])) s)) as Ho.
    destruct (errorHandler _ _ _ _ _) as [[|e'] s2]; simpl in Ho;
      rewrite ?obj_update_run, Ho; apply evolves_push_error.
Qed.

Lemma evolves_spawnPhase_from o i opts spawn s :
  obj s = o -> childProcess o = None -> evolves o (obj (spawnPhase i opts spawn s)).
Proof. intros <-. apply evolves_spawnPhase. Qed.

Lemma evolves_run params spawn s : evolves (obj s) (obj (run params spawn s)).
Proof.
  unfold run. destruct (childProcess (obj s)) eqn:Hc; [apply evolves_refl|].
  repeat case_match; rewrite ?obj_update_run; try apply evolves_refl.
  - apply evolves_spawnPhase_from; rewrite ?obj_update_run; done.
  - apply evolves_spawnPhase_from; done.
Qed.

Lemma evolves_assign o r : evolves o (set_processResult (Some r) o).
Proof. split; simpl; try done. Qed.

Lemma evolves_errorHandler i opts e force s :
  evolves (obj s) (obj (uncaught (errorHandler i opts e force s))).
Proof. rewrite obj_uncaught, errorHandler_obj. apply evolves_push_error. Qed.

Lemma obj_closeListener l code sig s :
  obj (closeListener l code sig s) =
  set_processResult (Some (makeResult (obj s) code (rawSignal sig))) (obj s).
Proof. unfold closeListener. simpl. by rewrite obj_update_run. Qed.

Lemma obj_exitListener l opts code sig s :
  obj (exitListener l opts code sig s) =
  set_processResult
    (Some (makeResult (obj s) (Some (exitCodeOrSentinel code)) (signalOrUndefined sig)))
    (obj s).
Proof.
  unfold exitListener. simpl.
  repeat case_match; rewrite ?obj_update_run; simpl; rewrite ?obj_update_run; done.
Qed.

Lemma obj_onData cb text s : obj (onData cb text s) = obj s.
Proof. by destruct cb. Qed.

Lemma evolves_deliver ev s : evolves (obj s) (obj (deliver ev s)).
Proof.
  unfold deliver.
  destruct (listeners s) as [l|]; [|reflexivity].
  destruct (childProcess (obj s)) as [child|] eqn:Hc; [|reflexivity].
  destruct (runs s !! owner l) as [c|]; [|reflexivity].
  destruct ev; repeat case_match; try reflexivity;
    try apply evolves_errorHandler;
    rewrite ?obj_onData, ?obj_closeListener, ?obj_exitListener;
    try apply evolves_assign; try reflexivity.
  - split; simpl; try done. by apply prefix_app_r.
  - split; simpl; try done. by apply prefix_app_r.
Qed.

Lemma evolves_step st s : evolves (obj s) (obj (step st s)).
Proof.
  destruct st; simpl.
  - apply evolves_run.
  - by rewrite obj_uncaught, stop_obj.
  - repeat case_match; try reflexivity. apply evolves_errorHandler.
  - apply evolves_deliver.
  - repeat case_match; try reflexivity.
    rewrite obj_uncaught, errorHandler_obj, obj_update_run. apply evolves_push_error.
  - by rewrite obj_microtasks.
  - by rewrite obj_poll.
Qed.

Lemma evolves_exec steps s : evolves (obj s) (obj (exec steps s)).
Proof.
  revert s. induction steps as [|st steps IH]; intros s; simpl; [reflexivity|].
  etrans; [apply (evolves_step st)|apply IH].
Qed.

Lemma stopped_evolves o o' : evolves o o' -> stopped o = true -> stopped o' = true.
Proof.
  intros Hev. unfold stopped.
  destruct (childProcess o) as [h|] eqn:Hc; [|done].
  rewrite (ev_child _ _ Hev h Hc).
  destruct (processResult o) eqn:Hr; [|done]. intros _.
  destruct (ev_result _ _ Hev) as [r' ->]; eauto.
Qed.

(** *** Effects are only appended *)
Lemma stop_effects force sig s : effects s `prefix_of` effects (stop force sig s).2.
Proof. unfold stop. repeat case_match; simpl; try done; by apply prefix_app_r. Qed.

Lemma errorHandler_effects i opts e force s :
  effects s `prefix_of` effects (errorHandler i opts e force s).2.
Proof.
  unfold errorHandler.
  set (s1 := with_obj _ s).
  change (effects s) with (effects s1).
  destruct (negb (stopped (obj s1))).
  - pose proof (stop_effects (Js.defaultParam (useForceStop opts) force) None s1) as Hp.
    destruct (stop _ _ s1) as [[|e'] s2]; simpl in *; [|done].
    case_match; simpl; rewrite ?effects_update_run; done.
  - case_match; simpl; rewrite ?effects_update_run; done.
Qed.

Lemma uncaught_effects r : effects r.2 `prefix_of` effects (uncaught r).
Proof. destruct r as [[|e] s]; simpl; [done|]. by apply prefix_app_r. Qed.

Lemma spawnPhase_effects i opts spawn s :
  effects s `prefix_of` effects (spawnPhase i opts spawn s).
Proof.
  unfold spawnPhase. destruct spawn as [h|e].
  - simpl. rewrite effects_update_run. simpl. by apply prefix_app_r.
  - errorHandler_cases errorHandler_effects Hp;
    simpl in Hp; rewrite ?effects_update_run;
    (etrans; [|exact Hp]); by apply prefix_app_r.
Qed.

Lemma run_effects params spawn s : effects s `prefix_of` effects (run params spawn s).
Proof.
  unfold run. destruct (childProcess (obj s)); [done|].
  repeat case_match; rewrite ?effects_update_run; simpl.
  - by apply prefix_app_r.
  - etrans; [|apply spawnPhase_effects]. rewrite effects_update_run. simpl.
    by apply prefix_app_r.
  - etrans; [|apply spawnPhase_effects]. simpl. by apply prefix_app_r.
Qed.

Lemma effects_onData cb text s : effects s `prefix_of` effects (onData cb text s).
Proof. destruct cb; simpl; [by apply prefix_app_r|done]. Qed.

Lemma effects_closeListener l code sig s : effects (closeListener l code sig s) = effects s.
Proof. unfold closeListener. simpl. by rewrite effects_update_run. Qed.

Lemma effects_exitListener l opts code sig s :
  effects (exitListener l opts code sig s) = effects s.
Proof.
  unfold exitListener. simpl.
  repeat case_match; rewrite ?effects_update_run; simpl; rewrite ?effects_update_run; done.
Qed.

Lemma deliver_effects ev s : effects s `prefix_of` effects (deliver ev s).
Proof.
  unfold deliver.
  destruct (listeners s) as [l|]; [|done].
  destruct (childProcess (obj s)) as [child|]; [|done].
  destruct (runs s !! owner l) as [c|]; [|done].
  destruct ev; repeat case_match; try done;
    rewrite ?effects_closeListener, ?effects_exitListener; try done;
    try (etrans; [|apply uncaught_effects]; apply errorHandler_effects);
    try (etrans; [|apply effects_onData]; done).
Qed.

Lemma step_effects st s : effects s `prefix_of` effects (step st s).
Proof.
  destruct st; simpl.
  - apply run_effects.
  - etrans; [|apply uncaught_effects]. apply stop_effects.
  - repeat case_match; try done. etrans; [|apply uncaught_effects]. apply errorHandler_effects.
  - apply deliver_effects.
  - repeat case_match; try done. etrans; [|apply uncaught_effects].
    etrans; [|apply errorHandler_effects]. by rewrite effects_update_run.
  - unfold microtasks. repeat case_match; done.
  - unfold poll, waitUntilPoll. repeat case_match; simplify_eq; simpl; try done.
    + rewrite <- app_assoc. by apply prefix_app_r.
    + by apply prefix_app_r.
Qed.

Lemma exec_effects steps s : effects s `prefix_of` effects (exec steps s).
Proof.
  revert s. induction steps as [|st steps IH]; intros s; simpl; [done|].
  etrans; [apply (step_effects st)|apply IH].
Qed.

(** *** Promises: who resolves them, and with what *)
Lemma unresolving_refl l : unresolving l l.
Proof. by intros i r. Qed.

Lemma unresolving_trans l1 l2 l3 :
  unresolving l1 l2 -> unresolving l2 l3 -> unresolving l1 l3.
Proof. intros H1 H2 i r H. eauto. Qed.

Lemma unresolving_resolving o l l' : unresolving l l' -> resolving o l l'.
Proof. intros H i r Hr. left. eauto. Qed.

Lemma resolving_trans o l1 l2 l3 :
  resolving o l1 l2 -> resolving o l2 l3 -> resolving o l1 l3.
Proof.
  intros H1 H2 i r H. destruct (H2 i r H) as [H'|H']; [|by right]. eauto.
Qed.

Lemma runs_update_run i f s j :
  runs (update_run i f s) !! j =
  if decide (i = j) then f <$> runs s !! j else runs s !! j.
Proof.
  unfold update_run. destruct (runs s !! i) as [c|] eqn:Hi; simpl.
  - destruct (decide (i = j)) as [<-|Hne].
    + rewrite list_lookup_insert_eq by eauto using lookup_lt_Some. by rewrite Hi.
    + by rewrite list_lookup_insert_ne.
  - destruct (decide (i = j)) as [<-|Hne]; [by rewrite Hi|done].
Qed.

Lemma unresolving_update i f s :
  (forall c r, promise (f c) = Resolved r -> promise c = Resolved r) ->
  unresolving (runs s) (runs (update_run i f s)).
Proof.
  intros Hf j r. rewrite runs_update_run.
  destruct (decide (i = j)); [|done].
  destruct (runs s !! j) as [c|]; simpl; [|done].
  intros [= H]. f_equal. eauto.
Qed.

Lemma reject_unresolved e p r : reject e p = Resolved r -> p = Resolved r.
Proof. by destruct p. Qed.

Lemma resolve_resolved r0 p r : resolve r0 p = Resolved r -> p = Resolved r \/ r = r0.
Proof. destruct p; simpl; intros [= ->]; eauto. Qed.

Lemma unresolving_reject i e s :
  unresolving (runs s) (runs (update_run i (fun c => set_promise (reject e (promise c)) c) s)).
Proof. apply unresolving_update. intros c r. simpl. apply reject_unresolved. Qed.

Lemma resolving_resolve o i code sig s :
  resolving o (runs s)
    (runs (update_run i (fun c => set_promise (resolve (makeResult o code sig) (promise c)) c) s)).
Proof.
  intros j r. rewrite runs_update_run.
  destruct (decide (i = j)); [|by left].
  destruct (runs s !! j) as [c|]; simpl; [|done].
  intros [= H]. apply resolve_resolved in H as [->| ->]; eauto.
Qed.

Lemma stop_runs force sig s : runs (stop force sig s).2 = runs s.
Proof. unfold stop. repeat case_match; done. Qed.

Lemma errorHandler_runs i opts e force s :
  unresolving (runs s) (runs (errorHandler i opts e force s).2).
Proof.
  unfold errorHandler.
  set (s1 := with_obj _ s).
  change (runs s) with (runs s1).
  destruct (negb (stopped (obj s1))).
  - pose proof (stop_runs (Js.defaultParam (useForceStop opts) force) None s1) as Hp.
    destruct (stop _ _ s1) as [[|e'] s2]; simpl in *; rewrite <- Hp.
    + case_match; simpl; [apply unresolving_reject|apply unresolving_refl].
    + apply unresolving_refl.
  - case_match; simpl; [apply (unresolving_reject i _ s1)|apply unresolving_refl].
Qed.

Lemma runs_uncaught r : runs (uncaught r) = runs r.2.
Proof. by destruct r as [[] ?]. Qed.

Lemma unresolving_snoc l c :
  (forall r, promise c <> Resolved r) -> unresolving l (l ++ [c]).
Proof.
  intros Hc i r. destruct (decide (i < length l)) as [Hlt|Hge].
  - by rewrite lookup_app_l.
  - rewrite lookup_app_r by lia. destruct (i - length l) as [|n] eqn:Hn; simpl; [|done].
    intros [= H]. by apply Hc in H.
Qed.

Lemma spawnPhase_runs i opts spawn s :
  unresolving (runs s) (runs (spawnPhase i opts spawn s)).
Proof.
  unfold spawnPhase. destruct spawn as [h|e].
  - simpl. eapply unresolving_trans; [|apply unresolving_update]; simpl.
    + apply unresolving_refl.
    + done.
  - errorHandler_cases errorHandler_runs Hp; simpl in Hp; [done|].
    eapply unresolving_trans; [exact Hp|apply unresolving_reject].
Qed.

Lemma run_runs params spawn s : unresolving (runs s) (runs (run params spawn s)).
Proof.
  unfold run. destruct (childProcess (obj s)).
  - simpl. by apply unresolving_snoc.
  - set (s2 := set_runs _ _).
    assert (unresolving (runs s) (runs s2)) as H2 by (by apply unresolving_snoc).
    repeat case_match.
    + eapply unresolving_trans; [exact H2|apply unresolving_reject].
    + eapply unresolving_trans; [exact H2|].
      eapply unresolving_trans; [|apply spawnPhase_runs].
      by apply unresolving_update.
    + eapply unresolving_trans; [exact H2|apply spawnPhase_runs].
Qed.

Lemma runs_onData cb text s : runs (onData cb text s) = runs s.
Proof. by destruct cb. Qed.

Lemma closeListener_runs l code sig s :
  resolving (obj s) (runs s) (runs (closeListener l code sig s)).
Proof.
  unfold closeListener. simpl.
  apply (resolving_resolve (obj s) (owner l) code (rawSignal sig) (assign_processResult _ s)).
Qed.

Lemma exitListener_runs l opts code sig s :
  resolving (obj s) (runs s) (runs (exitListener l opts code sig s)).
Proof.
  unfold exitListener. simpl.
  set (r := makeResult _ _ _). set (s1 := assign_processResult r s).
  set (s2 := match code with Some _ => _ | None => _ end).
  assert (unresolving (runs s) (runs s2)) as H2.
  { subst s2. repeat case_match; try apply unresolving_refl.
    apply (unresolving_reject _ _ s1). }
  eapply resolving_trans; [apply unresolving_resolving, H2|].
  repeat case_match; try (apply unresolving_resolving, unresolving_refl).
  apply resolving_resolve.
Qed.

Lemma deliver_runs ev s : resolving (obj s) (runs s) (runs (deliver ev s)).
Proof.
  unfold deliver.
  destruct (listeners s) as [l|]; [|apply unresolving_resolving, unresolving_refl].
  destruct (childProcess (obj s)) as [child|]; [|apply unresolving_resolving, unresolving_refl].
  destruct (runs s !! owner l) as [c|]; [|apply unresolving_resolving, unresolving_refl].
  destruct ev; repeat case_match;
    try (apply unresolving_resolving, unresolving_refl);
    try (rewrite runs_uncaught; apply unresolving_resolving, errorHandler_runs);
    try (rewrite runs_onData; apply unresolving_resolving, unresolving_refl).
  - apply closeListener_runs.
  - apply exitListener_runs.
Qed.

Lemma runs_poll k b s : runs (poll k b s) = runs s.
Proof. unfold poll, waitUntilPoll. repeat case_match; simplify_eq; done. Qed.

Lemma microtasks_runs s : unresolving (runs s) (runs (microtasks s)).
Proof.
  unfold microtasks. case_match; [|apply unresolving_refl].
  assert (runs (set_runs (map (fun c => if needsCleanup c then set_finalized true c else c) (runs s))
           match childProcess (obj s) with Some _ => set_listeners None s | None => s end)
          = map (fun c => if needsCleanup c then set_finalized true c else c) (runs s)) as ->
    by done.
  intros i r. rewrite list_lookup_fmap.
  destruct (runs s !! i) as [c|]; simpl; [|done].
  by destruct (needsCleanup c).
Qed.

Lemma step_runs st s : resolving (obj s) (runs s) (runs (step st s)).
Proof.
  destruct st; simpl.
  - apply unresolving_resolving, run_runs.
  - rewrite runs_uncaught, stop_runs. apply unresolving_resolving, unresolving_refl.
  - repeat case_match; try (apply unresolving_resolving, unresolving_refl).
    rewrite runs_uncaught. apply unresolving_resolving, errorHandler_runs.
  - apply deliver_runs.
  - repeat case_match; try (apply unresolving_resolving, unresolving_refl).
    rewrite runs_uncaught. apply unresolving_resolving.
    eapply unresolving_trans; [|apply errorHandler_runs].
    by apply unresolving_update.
  - apply unresolving_resolving, microtasks_runs.
  - rewrite runs_poll. apply unresolving_resolving, unresolving_refl.
Qed.

Lemma spawnPhase_result i opts spawn s :
  processResult (obj (spawnPhase i opts spawn s)) = processResult (obj s).
Proof.
  unfold spawnPhase. destruct spawn as [h|e].
  - simpl. by rewrite obj_update_run.
  - errorHandler_cases errorHandler_obj Ho;
    simpl in Ho; rewrite ?obj_update_run, Ho; done.
Qed.

Lemma run_result params spawn s :
  processResult (obj (run params spawn s)) = processResult (obj s).
Proof.
  unfold run. repeat case_match; rewrite ?spawnPhase_result, ?obj_update_run; done.
Qed.

Lemma step_result st s :
  processResult (obj (step st s)) = processResult (obj s) \/
  exists code sig, processResult (obj (step st s)) = Some (makeResult (obj s) code sig).
Proof.
  destruct st; simpl.
  - left. apply run_result.
  - left. by rewrite obj_uncaught, stop_obj.
  - left. repeat case_match; try done. by rewrite obj_uncaught, errorHandler_obj.
  - unfold deliver.
    destruct (listeners s) as [l|]; [|by left].
    destruct (childProcess (obj s)) as [child|]; [|by left].
    destruct (runs s !! owner l) as [c|]; [|by left].
    destruct ev; repeat case_match; try (by left);
      rewrite ?obj_uncaught, ?errorHandler_obj, ?obj_onData,
        ?obj_closeListener, ?obj_exitListener; simpl; eauto.
  - left. repeat case_match; try done.
    by rewrite obj_uncaught, errorHandler_obj, obj_update_run.
  - left. by rewrite obj_microtasks.
  - left. by rewrite obj_poll.
Qed.

Lemma stop_stopped force sig s :
  stopped (obj s) = true -> stop force sig s = (Thrown alreadyKilled, s).
Proof.
  unfold stop, stopped. destruct (childProcess (obj s)); [|done].
  destruct (processResult (obj s)); done.
Qed.

(** C6.  Once the process has been started and a result exists, [stopped]
    is true and stays true whatever happens next (events, further calls of
    [run] and [stop], timers, polls), and every further [stop()] throws the
    already-killed error to its caller instead of being ignored. *)
Theorem stopped_is_permanent (s : System) (steps : list Step) :
  stopped (obj s) = true ->
  stopped (obj (exec steps s)) = true /\
  forall force signal,
    stop force signal (exec steps s) = (Thrown alreadyKilled, exec steps s) /\
    effects (step (CallStop force signal) (exec steps s)) =
      effects (exec steps s) ++ [EThrow alreadyKilled].
Proof.
  intros Hs.
  assert (stopped (obj (exec steps s)) = true) as Hs'
    by (eapply stopped_evolves; [apply evolves_exec|done]).
  split; [done|]. intros force signal. simpl.
  by rewrite (stop_stopped force signal _ Hs').
Qed.

Lemma stopped_is_permanent_witness :
  let s := exec [CallRun noOptions (SpawnReturns child42); Emit (Exit (Some 0%Z) None)] echo in
  let steps := [Emit (StdoutData "late"); Emit (Close (Some 0%Z) None); Microtasks;
                CallRun noOptions (SpawnReturns child42)] in
  stopped (obj s) = true /\
  stopped (obj (exec steps s)) = true /\
  forall force signal,
    stop force signal (exec steps s) = (Thrown alreadyKilled, exec steps s) /\
    effects (step (CallStop force signal) (exec steps s)) =
      effects (exec steps s) ++ [EThrow alreadyKilled].
Proof.
  intros s steps. split; [reflexivity|].
  apply (stopped_is_permanent s steps). reflexivity.
Defined.

(** C5, as the code has it.  Once [spawn] has returned a handle to the
    object, every later call of [run], after any steps and whatever became
    of the first promise, returns a promise rejected with "process already
    started" and changes nothing else: no spawn, no log line, the object,
    the listeners and the earlier promises are as before. *)
Theorem run_after_spawn_is_rejected (s : System) (steps : list Step)
    (params : ChildProcessOptions) (spawn : SpawnOutcome) :
  is_Some (childProcess (obj s)) ->
  let s' := exec steps s in
  let s'' := run params spawn s' in
  promiseOf (length (runs s')) s'' = Some (Rejected alreadyStarted) /\
  obj s'' = obj s' /\
  effects s'' = effects s' /\
  listeners s'' = listeners s' /\
  escalations s'' = escalations s' /\
  (forall i, i < length (runs s') -> runs s'' !! i = runs s' !! i).
Proof.
  intros [h Hh] s' s''.
  pose proof (ev_child _ _ (evolves_exec steps s) h Hh) as Hc.
  fold s' in Hc. subst s''. unfold run, promiseOf. rewrite Hc. simpl.
  split_and!; try done.
  - rewrite lookup_app_r by lia. by rewrite Nat.sub_diag.
  - intros i Hi. by rewrite lookup_app_l.
Qed.

Lemma run_after_spawn_is_rejected_witness :
  let s := run noOptions (SpawnReturns child42) echo in
  let s' := exec [Emit (Exit (Some 0%Z) None); Emit (Close (Some 0%Z) None); Microtasks] s in
  is_Some (childProcess (obj s)) /\
  promiseOf 1 (run noOptions (SpawnReturns child42) s') = Some (Rejected alreadyStarted).
Proof.
  intros s s'. split; [simpl; eauto|].
  apply (run_after_spawn_is_rejected s
           [Emit (Exit (Some 0%Z) None); Emit (Close (Some 0%Z) None); Microtasks]
           noOptions (SpawnReturns child42)).
  simpl. eauto.
Defined.

(** C5 as stated fails: after a first [run] whose [spawn] threw, no handle
    is stored, so the guard lets a second [run] through and [spawn] is
    called again. *)
Lemma second_run_after_failed_spawn :
  let s1 := run noOptions (SpawnThrows enoent) echo in
  let s2 := run noOptions (SpawnReturns child42) s1 in
  promiseOf 1 s2 = Some Pending /\
  promiseOf 1 s2 <> Some (Rejected alreadyStarted) /\
  childProcess (obj s2) = Some child42 /\
  spawnCount (effects s2) = 2.
Proof. vm_compute. split_and!; done. Qed.

Lemma head_prefix {A} (l l' : list A) x : l `prefix_of` l' -> head l = Some x -> head l' = Some x.
Proof. intros [k ->]. by destruct l. Qed.

Lemma spawnPhase_errors i opts spawn s :
  processErrors (obj (spawnPhase i opts spawn s)) =
  match spawn with
  | SpawnThrows e => processErrors (obj s) ++ [e]
  | SpawnReturns _ => processErrors (obj s)
  end.
Proof.
  unfold spawnPhase. destruct spawn as [h|e].
  - simpl. by rewrite obj_update_run.
  - errorHandler_cases errorHandler_obj Ho;
    simpl in Ho; rewrite ?obj_update_run, Ho; done.
Qed.

Lemma step_errors st s :
  processErrors (obj (step st s)) = processErrors (obj s) \/
  exists e, observedError st = Some e /\
            processErrors (obj (step st s)) = processErrors (obj s) ++ [e].
Proof.
  destruct st; simpl.
  - unfold run. repeat case_match; rewrite ?spawnPhase_errors, ?obj_update_run;
      subst; simpl; eauto.
  - left. by rewrite obj_uncaught, stop_obj.
  - repeat case_match; eauto. right. rewrite obj_uncaught, errorHandler_obj. eauto.
  - unfold deliver.
    destruct (listeners s) as [l|]; [|by left].
    destruct (childProcess (obj s)) as [child|]; [|by left].
    destruct (runs s !! owner l) as [c|]; [|by left].
    destruct ev; repeat case_match; try (by left);
      rewrite ?obj_uncaught, ?errorHandler_obj, ?obj_onData,
        ?obj_closeListener, ?obj_exitListener; simpl; eauto.
  - repeat case_match; eauto. right.
    rewrite obj_uncaught, errorHandler_obj, obj_update_run. eauto.
  - left. by rewrite obj_microtasks.
  - left. by rewrite obj_poll.
Qed.

(** C10.  With the listeners of a run registered, the exit listener caches
    a result whose [exitCode] is the delivered code, or -1 for a null code,
    and whose [signal] is the delivered name, or undefined for a null
    signal; whereas the close listener caches, and under
    [waitForStreams = true] resolves the pending promise with, a result
    whose [exitCode] and [signal] are exactly what the close event
    delivered (null stays null, no -1).  The other three fields are the
    same on both paths: the first recorded error and the trimmed join of
    the chunks of each stream. *)
Theorem null_mapping_is_asymmetric (s : System) (l : Listeners) (child : Handle)
    (c : RunCtx) (code : option Z) (sig : option string) :
  listeners s = Some l ->
  childProcess (obj s) = Some child ->
  runs s !! owner l = Some c ->
  let err := head (processErrors (obj s)) in
  let out := Js.trim (Js.join (stdoutChunks (obj s)) None) in
  let errout := Js.trim (Js.join (stderrChunks (obj s)) None) in
  (onExit l = true ->
     result (obj (step (Emit (Exit code sig)) s)) =
       Some (mkResult (Some (match code with Some n => n | None => (-1)%Z end))
               err out errout
               (match sig with Some n => SigName n | None => SigUndefined end))) /\
  (onClose l = true ->
     let r := mkResult code err out errout
                (match sig with Some n => SigName n | None => SigNull end) in
     result (obj (step (Emit (Close code sig)) s)) = Some r /\
     (waitForStreams (mergedOptions c) = Some true -> promise c = Pending ->
      promiseOf (owner l) (step (Emit (Close code sig)) s) = Some (Resolved r))).
Proof.
  intros Hl Hc Hr err out errout. simpl. unfold deliver, result. rewrite Hl, Hc, Hr.
  split.
  - intros ->. rewrite obj_exitListener. simpl. by destruct code, sig.
  - intros ->. rewrite obj_closeListener. split; [by destruct sig|].
    intros _ Hp. unfold promiseOf, closeListener. simpl.
    rewrite runs_update_run. rewrite decide_True by done. simpl.
    rewrite Hr. simpl. rewrite Hp. by destruct sig.
Qed.

Lemma null_mapping_is_asymmetric_witness :
  let s := exec [CallRun noOptions (SpawnReturns child42); Emit (StdoutData "out")] echo in
  let l := mkListeners 0 true true in
  let c := mkRunCtx (withDefaults noOptions) Pending false true false in
  listeners s = Some l /\
  childProcess (obj s) = Some child42 /\
  runs s !! owner l = Some c /\
  onExit l = true /\
  onClose l = true /\
  waitForStreams (mergedOptions c) = Some true /\
  promise c = Pending /\
  result (obj (step (Emit (Exit None None)) s)) =
    Some (mkResult (Some (-1)%Z) None "out" "" SigUndefined) /\
  result (obj (step (Emit (Close None None)) s)) =
    Some (mkResult None None "out" "" SigNull) /\
  promiseOf (owner l) (step (Emit (Close None None)) s) =
    Some (Resolved (mkResult None None "out" "" SigNull)).
Proof.
  intros s l c.
  pose proof (null_mapping_is_asymmetric s l child42 c None None
                eq_refl eq_refl eq_refl) as [Hexit Hclose].
  destruct (Hclose eq_refl) as [Hres Hprom].
  split; [reflexivity|]. split; [reflexivity|]. split; [reflexivity|].
  split; [reflexivity|]. split; [reflexivity|]. split; [reflexivity|].
  split; [reflexivity|].
  split; [exact (Hexit eq_refl)|]. split; [exact Hres|].
  exact (Hprom eq_refl eq_refl).
Defined.

(** C7.  A call of [run] whose merged options carry a Timeout token that is
    already completed returns a rejected promise (rejected with "Timeout
    token was already completed." on an object that has no process yet),
    without calling [spawn]: the number of spawns, the object and the
    listeners are unchanged. *)
Theorem completed_token_fails_fast (s : System) (params : ChildProcessOptions)
    (spawn : SpawnOutcome) (t : Timeout) :
  timeout (merge (options (obj s)) params) = Some t ->
  completed t = true ->
  let s' := run params spawn s in
  promiseOf (length (runs s)) s' =
    Some (Rejected (match childProcess (obj s) with
                    | Some _ => alreadyStarted
                    | None => tokenCompleted
                    end)) /\
  spawnCount (effects s') = spawnCount (effects s) /\
  obj s' = obj s /\
  listeners s' = listeners s.
Proof.
  intros Ht Hc s'. subst s'. unfold run, promiseOf.
  assert (timeout (withDefaults (merge (options (obj s)) params)) = Some t) as ->
    by exact Ht.
  rewrite Hc.
  destruct (childProcess (obj s)) as [h|] eqn:Hh; simpl.
  - split_and!; try done. rewrite lookup_app_r by lia. by rewrite Nat.sub_diag.
  - rewrite obj_update_run, effects_update_run, runs_update_run. simpl.
    rewrite decide_True by done.
    split_and!; try done.
    + rewrite lookup_app_r by lia. by rewrite Nat.sub_diag.
    + unfold spawnCount. rewrite filter_app. simpl. rewrite length_app. simpl. lia.
    + unfold update_run. by case_match.
Qed.

Lemma completed_token_fails_fast_witness :
  let expired := mkTimeout true in
  let base := mkOptions
      Js.Absent Js.Absent Js.Absent Js.Absent Js.Absent Js.Absent
      (Js.Value expired) Js.Absent Js.Absent Js.Absent in
  let cleared := mkOptions
      Js.Absent Js.Absent Js.Absent Js.Absent Js.Absent Js.Absent
      Js.Undefined Js.Absent Js.Absent Js.Absent in
  let s := boot (constructor "echo" ["hello"] base) in
  let s' := run noOptions (SpawnReturns child42) s in
  timeout (merge (options (obj s)) noOptions) = Some expired /\
  completed expired = true /\
  timeout (merge (options (obj s)) cleared) = None /\
  promiseOf 0 s' = Some (Rejected tokenCompleted) /\
  spawnCount (effects s') = 0 /\
  obj s' = obj s /\
  listeners s' = None.
Proof.
  intros expired base cleared s s'.
  destruct (completed_token_fails_fast s noOptions (SpawnReturns child42) expired
              eq_refl eq_refl) as (H1 & H2 & H3 & H4).
  split; [reflexivity|]. split; [reflexivity|]. split; [reflexivity|].
  split; [exact H1|]. split; [exact H2|]. split; [exact H3|exact H4].
Defined.

(** The token that counts is the one of the merged options:
    [run({timeout: undefined})] overrides a token given at construction,
    so a completed token there is not looked at and [spawn] is called. *)
Lemma undefined_timeout_detaches_the_token :
  let expired := mkTimeout true in
  let base := mkOptions
      Js.Absent Js.Absent Js.Absent Js.Absent Js.Absent Js.Absent
      (Js.Value expired) Js.Absent Js.Absent Js.Absent in
  let params := mkOptions
      Js.Absent Js.Absent Js.Absent Js.Absent Js.Absent Js.Absent
      Js.Undefined Js.Absent Js.Absent Js.Absent in
  let s := run params (SpawnReturns child42) (boot (constructor "echo" ["hello"] base)) in
  timeout (merge base params) = None /\
  timeout (merge base noOptions) = Some expired /\
  promiseOf 0 s = Some Pending /\
  spawnCount (effects s) = 1 /\
  childProcess (obj s) = Some child42.
Proof. vm_compute. split_and!; reflexivity. Qed.

Lemma escalations_uncaught r : escalations (uncaught r) = escalations r.2.
Proof. by destruct r as [[] ?]. Qed.

Lemma errorHandler_live i opts e force s child :
  childProcess (obj s) = Some child ->
  stopped (obj s) = false ->
  effects (errorHandler i opts e force s).2 = effects s ++ [EKill child None] /\
  escalations (errorHandler i opts e force s).2 =
    escalations s ++
      (if Js.nullish (Js.defaultParam (useForceStop opts) force) false
       then [mkEscalation child (pid (obj s)) (command (obj s))
               forceDeadline forcePollInterval 0 Waiting]
       else []).
Proof.
  intros Hc Hs. unfold errorHandler, stop.
  assert (stopped (obj (with_obj
            (fun o => set_processErrors (processErrors o ++ [e]) o) s)) = false) as ->
    by exact Hs.
  simpl. rewrite Hc.
  destruct (Js.nullish (Js.defaultParam (useForceStop opts) force) false);
    destruct (rejection _ _ _); simpl;
    rewrite ?effects_update_run, ?escalations_update_run; simpl;
    rewrite ?app_nil_r; done.
Qed.

Lemma errorHandler_idle i opts e force s :
  childProcess (obj s) = None \/ stopped (obj s) = true ->
  effects (errorHandler i opts e force s).2 = effects s /\
  escalations (errorHandler i opts e force s).2 = escalations s.
Proof.
  intros Hidle. unfold errorHandler.
  set (s1 := with_obj _ s).
  assert (stopped (obj s1) = stopped (obj s)) as Hsame by done.
  destruct Hidle as [Hc|Hs].
  - assert (stopped (obj s1) = false) as -> by (unfold stopped; simpl; by rewrite Hc).
    simpl. unfold stop. simpl. rewrite Hc.
    destruct (rejection _ _ _); simpl;
      rewrite ?effects_update_run, ?escalations_update_run; done.
  - rewrite Hsame, Hs. simpl.
    destruct (rejection _ _ _); simpl;
      rewrite ?effects_update_run, ?escalations_update_run; done.
Qed.

(** C8.  The rejection of the timer of an attached token runs
    [errorHandler] with the force flag true: the error is recorded, and when
    the process is alive the signal is sent and the bounded wait of a forced
    stop is started, whatever [useForceStop] says (the merged options of the
    run are arbitrary here).  When there is no process, or it has already
    stopped, no stop happens. *)
Theorem timer_rejection_forces_stop (s : System) (i : nat) (c : RunCtx) (e : Error) :
  runs s !! i = Some c ->
  timerArmed c = true ->
  let s' := step (TimerRejected i e) s in
  s' = uncaught (errorHandler i (mergedOptions c) e (Some true)
                   (update_run i (set_timerArmed false) s)) /\
  processErrors (obj s') = processErrors (obj s) ++ [e] /\
  match childProcess (obj s) with
  | Some child =>
      if stopped (obj s)
      then effects s' = effects s /\ escalations s' = escalations s
      else effects s' = effects s ++ [EKill child None] /\
           escalations s' =
             escalations s ++
               [mkEscalation child (pid (obj s)) (command (obj s))
                  forceDeadline forcePollInterval 0 Waiting]
  | None => effects s' = effects s /\ escalations s' = escalations s
  end.
Proof.
  intros Hr Ht s'. subst s'. simpl. rewrite Hr, Ht.
  split; [done|].
  rewrite obj_uncaught, errorHandler_obj, obj_update_run.
  split; [done|].
  set (s0 := update_run i (set_timerArmed false) s).
  assert (obj s0 = obj s) as Ho by apply obj_update_run.
  assert (effects s0 = effects s) as He by apply effects_update_run.
  assert (escalations s0 = escalations s) as Hk by apply escalations_update_run.
  pose proof (errorHandler_normal i (mergedOptions c) e (Some true) s0) as Hn.
  destruct (childProcess (obj s)) as [child|] eqn:Hc.
  - destruct (stopped (obj s)) eqn:Hs.
    + destruct (errorHandler_idle i (mergedOptions c) e (Some true) s0) as [H1 H2];
        [right; by rewrite Ho|].
      destruct (errorHandler _ _ _ _ s0) as [[|e'] s2]; simpl in *; [|done].
      by rewrite H1, H2, He, Hk.
    + destruct (errorHandler_live i (mergedOptions c) e (Some true) s0 child) as [H1 H2];
        [by rewrite Ho..|].
      destruct (errorHandler _ _ _ _ s0) as [[|e'] s2]; simpl in *; [|done].
      by rewrite H1, H2, He, Hk, Ho.
  - destruct (errorHandler_idle i (mergedOptions c) e (Some true) s0) as [H1 H2];
      [left; by rewrite Ho|].
    destruct (errorHandler _ _ _ _ s0) as [[|e'] s2]; simpl in *; [|done].
    by rewrite H1, H2, He, Hk.
Qed.

Lemma timer_rejection_forces_stop_witness :
  let token := mkTimeout false in
  let params := mkOptions
      Js.Absent Js.Absent Js.Absent (Js.Value false) Js.Absent Js.Absent
      (Js.Value token) Js.Absent Js.Absent Js.Absent in
  let s := run params (SpawnReturns child42) echo in
  let c := mkRunCtx (withDefaults params) Pending true true false in
  let s' := step (TimerRejected 0 (MkError "Timeout token expired")) s in
  runs s !! 0 = Some c /\
  timerArmed c = true /\
  effects s' = effects s ++ [EKill child42 None] /\
  escalations s' = [mkEscalation child42 42 "echo" 3000 200 0 Waiting].
Proof.
  intros token params s c s'.
  split; [reflexivity|]. split; [reflexivity|].
  destruct (timer_rejection_forces_stop s 0 c (MkError "Timeout token expired"))
    as (_ & _ & H); [reflexivity..|].
  exact H.
Defined.

(** C1, evaluated on the code.  Two chunks on each stream with collection
    enabled: the result holds the chunks joined with commas, "a,b" and
    "x,y", where the concatenation of the chunks is "ab" and "xy". *)
Theorem chunks_are_joined_with_commas :
  let s := exec [CallRun noOptions (SpawnReturns child42);
                 Emit (StdoutData "a"); Emit (StderrData "x");
                 Emit (StdoutData "b"); Emit (StderrData "y");
                 Emit (Exit (Some 0%Z) None); Emit (Close (Some 0%Z) None)] echo in
  stdoutChunks (obj s) = ["a"; "b"] /\
  stderrChunks (obj s) = ["x"; "y"] /\
  promiseOf 0 s = Some (Resolved (mkResult (Some 0%Z) None "a,b" "x,y" SigNull)) /\
  Js.trim (Js.concat (stdoutChunks (obj s))) = "ab" /\
  Js.trim (Js.concat (stderrChunks (obj s))) = "xy".
Proof. vm_compute. split_and!; reflexivity. Qed.

(** C3 as stated fails: for an executable that does not exist the handle
    reports the error and then closes with the code of the failure, and that
    code, not -1, is the [exitCode] of the result. *)
Lemma spawn_failure_keeps_close_code :
  let s := exec [CallRun noOptions (SpawnReturns childless);
                 Emit (ProcessError enoent);
                 Emit (Close (Some (-2)%Z) None)] echo in
  promiseOf 0 s = Some (Resolved (mkResult (Some (-2)%Z) (Some enoent) "" "" SigNull)) /\
  ~ (exists r, promiseOf 0 s = Some (Resolved r) /\
               error r = Some enoent /\ exitCode r = Some (-1)%Z).
Proof.
  vm_compute. split; [reflexivity|].
  intros (r & [= <-] & _ & H). discriminate H.
Qed.

Lemma update_run_last f l c s :
  runs s = l ++ [c] -> update_run (length l) f s = set_runs (l ++ [f c]) s.
Proof.
  intros Hr. unfold update_run. rewrite Hr.
  rewrite lookup_app_r by lia. rewrite Nat.sub_diag. simpl.
  rewrite insert_app_r_alt by lia. by rewrite Nat.sub_diag.
Qed.

Lemma run_spawned params h s :
  let opts := withDefaults (merge (options (obj s)) params) in
  childProcess (obj s) = None ->
  (forall t, timeout opts = Some t -> completed t = false) ->
  run params (SpawnReturns h) s =
  mkSystem (set_childProcess (Some h) (obj s))
    (runs s ++ [mkRunCtx opts Pending (hasTimer opts) true false])
    (Some (mkListeners (length (runs s)) true true))
    (escalations s)
    (effects s ++ [running s; spawning opts s])
    (resultWrites s).
Proof.
  intros opts Hc Htok. unfold run. fold opts. rewrite Hc.
  unfold hasTimer. destruct (timeout opts) as [t|] eqn:Ht.
  - rewrite (Htok t eq_refl). unfold spawnPhase.
    rewrite (update_run_last (set_timerArmed true) (runs s)
               (mkRunCtx opts Pending false false false)) by done.
    simpl.
    rewrite (update_run_last (set_spawned true) (runs s)
               (mkRunCtx opts Pending true false false)) by done.
    unfold set_listeners, set_runs, running, spawning. simpl.
    by rewrite <- app_assoc.
  - unfold spawnPhase. simpl.
    rewrite (update_run_last (set_spawned true) (runs s)
               (mkRunCtx opts Pending false false false)) by done.
    unfold set_listeners, set_runs, running, spawning. simpl.
    by rewrite <- app_assoc.
Qed.

Lemma errorHandler_unrejected i opts e force s :
  rejection (rejectOnError opts) (fun x => x) e = None ->
  runs (errorHandler i opts e force s).2 = runs s /\
  listeners (errorHandler i opts e force s).2 = listeners s /\
  resultWrites (errorHandler i opts e force s).2 = resultWrites s.
Proof.
  intros Hrej. unfold errorHandler. rewrite Hrej. unfold stop.
  repeat case_match; simplify_eq; done.
Qed.

Lemma run_thrown params e s :
  let opts := withDefaults (merge (options (obj s)) params) in
  childProcess (obj s) = None ->
  (forall t, timeout opts = Some t -> completed t = false) ->
  rejection (rejectOnError opts) (fun x => x) e = None ->
  run params (SpawnThrows e) s =
  mkSystem (set_processErrors (processErrors (obj s) ++ [e]) (obj s))
    (runs s ++ [mkRunCtx opts Pending (hasTimer opts) false false])
    (listeners s)
    (escalations s)
    (effects s ++ [running s; spawning opts s])
    (resultWrites s).
Proof.
  intros opts Hc Htok Hrej. unfold run. fold opts. rewrite Hc.
  assert (forall s', childProcess (obj s') = None ->
            spawnPhase (length (runs s)) opts (SpawnThrows e) s' =
            with_obj (fun o => set_processErrors (processErrors o ++ [e]) o)
              (emit (spawning opts s') s')) as Hphase.
  { intros s' Hc'. unfold spawnPhase, errorHandler. rewrite Hrej.
    unfold stop, stopped. simpl. rewrite Hc'. done. }
  unfold hasTimer. destruct (timeout opts) as [t|] eqn:Ht.
  - rewrite (Htok t eq_refl).
    rewrite (update_run_last (set_timerArmed true) (runs s)
               (mkRunCtx opts Pending false false false)) by done.
    rewrite Hphase by done.
    unfold with_obj, set_runs, emit, running, spawning. simpl.
    by rewrite <- app_assoc.
  - rewrite Hphase by done.
    unfold with_obj, set_runs, emit, running, spawning. simpl.
    by rewrite <- app_assoc.
Qed.

Lemma deliver_close s l child c code signal :
  listeners s = Some l ->
  childProcess (obj s) = Some child ->
  runs s !! owner l = Some c ->
  onClose l = true ->
  let r := makeResult (obj s) code (rawSignal signal) in
  obj (deliver (Close code signal) s) = set_processResult (Some r) (obj s) /\
  promiseOf (owner l) (deliver (Close code signal) s) = Some (resolve r (promise c)) /\
  resultWrites (deliver (Close code signal) s) = S (resultWrites s) /\
  listeners (deliver (Close code signal) s) = Some (mkListeners (owner l) false (onExit l)).
Proof.
  intros Hl Hc Hr Ho r. unfold deliver. rewrite Hl, Hc, Hr, Ho.
  rewrite obj_closeListener. split; [done|].
  unfold promiseOf, closeListener. simpl.
  rewrite runs_update_run. rewrite decide_True by done. simpl. rewrite Hr. simpl.
  split; [done|]. unfold update_run. simpl. rewrite Hr. done.
Qed.

(** C3, as the code has it.  Under the default reject-on-error policy (and
    a token, if any, that is not completed): when the spawn failure is
    reported by the handle (an error event, then close), [run()] resolves at
    the close event with [error] the spawn error and with the code and the
    signal that the close event delivered; when [spawn] itself throws, the
    error is recorded as the first error, no handle is stored, so the
    process is never running ([stopped] is false, [pid()] is -1), no result
    is cached, no signal is sent and the promise is not rejected. *)
Theorem spawn_failure_by_default (cmd : string) (argv : list string)
    (base params : ChildProcessOptions) (e : Error) :
  rejection (rejectOnError (merge base params)) (fun x => x) e = None ->
  (forall t, timeout (merge base params) = Some t -> completed t = false) ->
  let s0 := boot (constructor cmd argv base) in
  (forall h code signal,
     let s := exec [CallRun params (SpawnReturns h);
                    Emit (ProcessError e);
                    Emit (Close code signal)] s0 in
     let r := mkResult code (Some e) "" "" (rawSignal signal) in
     promiseOf 0 s = Some (Resolved r) /\ result (obj s) = Some r) /\
  (let s := run params (SpawnThrows e) s0 in
   childProcess (obj s) = None /\
   stopped (obj s) = false /\
   pid (obj s) = (-1)%Z /\
   processErrors (obj s) = [e] /\
   result (obj s) = None /\
   (forall e', promiseOf 0 s <> Some (Rejected e')) /\
   forall child sig, EKill child sig ∉ effects s).
Proof.
  intros Hpol Htok s0.
  assert (childProcess (obj s0) = None) as Hfresh by done.
  split.
  - intros h code signal s r. subst s. unfold exec, fold_left, step.
    rewrite (run_spawned params h s0 Hfresh Htok).
    set (opts := withDefaults (merge (options (obj s0)) params)).
    set (s1 := mkSystem _ _ _ _ _ _).
    assert (deliver (ProcessError e) s1 = (errorHandler 0 opts e None s1).2) as ->.
    { unfold deliver. simpl.
      pose proof (errorHandler_normal 0 opts e None s1) as Hn.
      by destruct (errorHandler 0 opts e None s1) as [[|?] ?]. }
    destruct (errorHandler_unrejected 0 opts e None s1 Hpol) as (Hruns & Hlis & _).
    pose proof (errorHandler_obj 0 opts e None s1) as Hobj.
    set (s2 := (errorHandler 0 opts e None s1).2) in *.
    destruct (deliver_close s2 (mkListeners 0 true true) h
                (mkRunCtx opts Pending (hasTimer opts) true false) code signal)
      as (Ho & Hp & _); [by rewrite ?Hlis, ?Hruns, ?Hobj..|].
    simpl in Hp. rewrite Hp, Ho. unfold result. simpl.
    rewrite Hobj. done.
  - intros s. subst s. rewrite (run_thrown params e s0 Hfresh Htok Hpol).
    unfold stopped, pid, promiseOf. simpl. split_and!; try done.
    intros child sig Hin. apply list_elem_of_In in Hin. simpl in Hin.
    unfold running, spawning in Hin. destruct Hin as [Hin|[Hin|[]]]; discriminate.
Qed.

Lemma spawn_failure_by_default_witness :
  let s0 := boot (constructor "nonexistent" [] noOptions) in
  let s := exec [CallRun noOptions (SpawnReturns childless);
                 Emit (ProcessError enoent);
                 Emit (Close (Some (-2)%Z) None)] s0 in
  let r := mkResult (Some (-2)%Z) (Some enoent) "" "" SigNull in
  rejection (rejectOnError (merge noOptions noOptions)) (fun x => x) enoent = None /\
  (forall t, timeout (merge noOptions noOptions) = Some t -> completed t = false) /\
  promiseOf 0 s = Some (Resolved r) /\ result (obj s) = Some r.
Proof.
  intros s0 s r.
  split; [reflexivity|]. split; [intros t Ht; discriminate Ht|].
  destruct (spawn_failure_by_default "nonexistent" [] noOptions noOptions enoent)
    as [H _]; [reflexivity|intros t Ht; discriminate Ht|].
  apply (H childless (Some (-2)%Z) None).
Defined.

Lemma stop_frame force sig s :
  listeners (stop force sig s).2 = listeners s /\
  resultWrites (stop force sig s).2 = resultWrites s.
Proof. unfold stop. repeat case_match; done. Qed.

Lemma errorHandler_frame i opts e force s :
  listeners (errorHandler i opts e force s).2 = listeners s /\
  resultWrites (errorHandler i opts e force s).2 = resultWrites s.
Proof.
  unfold errorHandler.
  set (s1 := with_obj _ s).
  change (listeners s) with (listeners s1). change (resultWrites s) with (resultWrites s1).
  destruct (negb (stopped (obj s1))).
  - destruct (stop_frame (Js.defaultParam (useForceStop opts) force) None s1) as [H1 H2].
    destruct (stop _ _ s1) as [[|e'] s2]; simpl in *; [|done].
    case_match; simpl; autorewrite with frame; done.
  - case_match; simpl; autorewrite with frame; done.
Qed.

Lemma uncaught_frame r :
  listeners (uncaught r) = listeners r.2 /\ resultWrites (uncaught r) = resultWrites r.2.
Proof. by destruct r as [[] ?]. Qed.

Lemma errorHandler_quiet i opts e force s :
  quiet s (uncaught (errorHandler i opts e force s)).
Proof.
  destruct (errorHandler_frame i opts e force s) as [H1 H2].
  destruct (uncaught_frame (errorHandler i opts e force s)) as [H3 H4].
  unfold quiet. rewrite H3, H4, H1, H2, obj_uncaught, errorHandler_obj. simpl. eauto.
Qed.

Lemma quiet_refl s : quiet s s.
Proof. unfold quiet. eauto. Qed.

Lemma deliver_quiet_or_fired ev s :
  quiet s (deliver ev s) \/
  isTerminalEvent (Emit ev) = true /\ fired s (deliver ev s).
Proof.
  unfold deliver.
  destruct (listeners s) as [l|] eqn:Hl; [|left; apply quiet_refl].
  destruct (childProcess (obj s)) as [child|] eqn:Hc; [|left; apply quiet_refl].
  destruct (runs s !! owner l) as [c|]; [|left; apply quiet_refl].
  destruct ev as [e|e|e|text|text|code sig|code sig];
    repeat case_match; try (left; apply quiet_refl);
    try (left; apply errorHandler_quiet).
  - left. unfold quiet. rewrite obj_onData. destruct (onStdout _); simpl; eauto.
  - left. unfold quiet. rewrite obj_onData. destruct (onStdout _); simpl; eauto.
  - left. unfold quiet. rewrite obj_onData. destruct (onStderr _); simpl; eauto.
  - left. unfold quiet. rewrite obj_onData. destruct (onStderr _); simpl; eauto.
  - right. split; [done|]. unfold fired. rewrite obj_closeListener.
    unfold closeListener. simpl. rewrite writes_update_run. simpl.
    rewrite Hc, Hl. simpl.
    match goal with H : onClose l = true |- _ => rewrite H end.
    split_and!; eauto.
  - right. split; [done|]. unfold fired. rewrite obj_exitListener.
    assert (resultWrites (exitListener l (mergedOptions c) code sig s)
            = S (resultWrites s)) as ->.
    { unfold exitListener. simpl. repeat case_match; rewrite ?writes_update_run; simpl;
        rewrite ?writes_update_run; done. }
    simpl. rewrite Hc, Hl. simpl.
    match goal with H : onExit l = true |- _ => rewrite H end.
    split_and!; eauto.
Qed.

Lemma step_quiet_or_fired st s :
  (forall params spawn, st <> CallRun params spawn) ->
  quiet s (step st s) \/ isTerminalEvent st = true /\ fired s (step st s).
Proof.
  intros Hrun. destruct st as [params spawn|force sig|i err|ev|i e| |k b]; simpl.
  - by destruct (Hrun params spawn).
  - left. destruct (stop_frame force sig s) as [H1 H2].
    destruct (uncaught_frame (stop force sig s)) as [H3 H4].
    unfold quiet. rewrite H3, H4, H1, H2, obj_uncaught, stop_obj. eauto.
  - left. repeat case_match; try apply quiet_refl. apply errorHandler_quiet.
  - apply deliver_quiet_or_fired.
  - left. repeat case_match; try apply quiet_refl.
    set (s0 := update_run i (set_timerArmed false) s).
    match goal with c : RunCtx |- _ =>
      pose proof (errorHandler_quiet i (mergedOptions c) e (Some true) s0) as Hq end.
    unfold quiet in *. subst s0.
    rewrite writes_update_run, obj_update_run, listeners_update_run in Hq. done.
  - left. unfold quiet, microtasks. repeat case_match; simpl; eauto 10.
  - left. unfold quiet. rewrite obj_poll. unfold poll, waitUntilPoll. repeat case_match; simplify_eq; simpl; eauto.
Qed.

Lemma run_consistent params spawn s :
  consistent s ->
  consistent (run params spawn s) /\ resultWrites (run params spawn s) = resultWrites s.
Proof.
  intros Hs.
  destruct (childProcess (obj s)) as [h|] eqn:Hc.
  - unfold run. rewrite Hc. split; [|done]. destruct Hs. by split.
  - destruct Hs as [Hl Hu Hn Hb]. specialize (Hl Hc). specialize (Hn Hc).
    assert (forall i opts s', obj s' = obj s -> listeners s' = listeners s ->
              resultWrites s' = resultWrites s ->
              consistent (spawnPhase i opts spawn s') /\
              resultWrites (spawnPhase i opts spawn s') = resultWrites s) as Hphase.
    { intros i opts s' Ho Hl' Hw'. unfold spawnPhase. destruct spawn as [h|e].
      - simpl. rewrite writes_update_run. simpl. split; [|done].
        split; simpl; rewrite ?obj_update_run, ?writes_update_run; simpl;
          rewrite ?Ho, ?Hw', ?Hn; simpl; try done. by rewrite Hn in Hu.
      - set (s1 := emit _ s').
        destruct (errorHandler_frame i opts e None s1) as [H1 H2].
        pose proof (errorHandler_obj i opts e None s1) as H3.
        destruct (errorHandler i opts e None s1) as [[|e'] s2]; simpl in *.
        + split; [|congruence].
          split; rewrite ?H1, ?H2, ?H3, ?Hl', ?Hw', ?Ho, ?Hl; simpl; try done; try lia.
        + rewrite writes_update_run. split; [|congruence].
          split; rewrite ?obj_update_run, ?listeners_update_run, ?writes_update_run,
            ?H1, ?H2, ?H3, ?Hl', ?Hw', ?Ho, ?Hl; simpl; try done; try lia. }
    unfold run. rewrite Hc.
    repeat case_match.
    + rewrite writes_update_run. simpl. split; [|done].
      split; autorewrite with frame;
        simpl; rewrite ?Hl; simpl; try done; try lia.
    + apply Hphase; autorewrite with frame; done.
    + apply Hphase; done.
Qed.

Lemma step_consistent st s :
  consistent s ->
  consistent (step st s) /\
  resultWrites (step st s) <=
    resultWrites s + (if isTerminalEvent st then 1 else 0).
Proof.
  intros Hs.
  assert ((exists p sp, st = CallRun p sp) \/ (forall p sp, st <> CallRun p sp))
    as [(p & sp & ->)|Hne] by (destruct st; eauto; right; intros; discriminate).
  - simpl. destruct (run_consistent p sp s Hs) as [H1 H2]. split; [done|lia].
  - destruct (step_quiet_or_fired st s Hne) as [Hq|[Ht Hf]].
    + destruct Hs as [Hl Hu Hn Hb]. destruct Hq as (Hw & Hr & Hc & Hls).
      split; [|rewrite Hw; lia].
      split; rewrite ?Hw, ?Hr, ?Hc; try done.
      * intros Hnone. destruct Hls as [->|[-> _]]; [by apply Hl|done].
      * destruct Hls as [->|[-> _]]; simpl; lia.
    + destruct Hs as [Hl Hu Hn Hb]. destruct Hf as (Hw & Hr & Hc & Hsome & Ha).
      rewrite Ht. split; [|lia].
      split; rewrite ?Hw, ?Hc.
      * intros Hnone. rewrite Hnone in Hsome. by destruct Hsome.
      * split; [lia|]. intros Hnone. rewrite Hnone in Hr. by destruct Hr.
      * intros Hnone. rewrite Hnone in Hsome. by destruct Hsome.
      * lia.
Qed.

Lemma exec_consistent steps s :
  consistent s ->
  consistent (exec steps s) /\
  resultWrites (exec steps s) <=
    resultWrites s + length (filter (fun st => isTerminalEvent st = true) steps).
Proof.
  revert s. induction steps as [|st steps IH]; intros s Hs; simpl.
  - split; [done|lia].
  - destruct (step_consistent st s Hs) as [Hc Hw].
    destruct (IH _ Hc) as [Hc' Hw']. split; [done|].
    destruct (isTerminalEvent st) eqn:Ht.
    + rewrite filter_cons_True by done. simpl. lia.
    + rewrite filter_cons_False by (by rewrite Ht). lia.
Qed.

Lemma boot_consistent cmd argv base : consistent (boot (constructor cmd argv base)).
Proof. split; simpl; try done. lia. Qed.

Lemma lookup_update_run i f s c :
  runs s !! i = Some c -> runs (update_run i f s) !! i = Some (f c).
Proof. intros Hr. rewrite runs_update_run, decide_True by done. by rewrite Hr. Qed.

Lemma deliver_exit s l child c code signal :
  listeners s = Some l ->
  childProcess (obj s) = Some child ->
  runs s !! owner l = Some c ->
  onExit l = true ->
  let r := makeResult (obj s) (Some (exitCodeOrSentinel code)) (signalOrUndefined signal) in
  obj (deliver (Exit code signal) s) = set_processResult (Some r) (obj s) /\
  promiseOf (owner l) (deliver (Exit code signal) s) =
    Some (promiseAfterExit (mergedOptions c) code r (promise c)) /\
  resultWrites (deliver (Exit code signal) s) = S (resultWrites s) /\
  listeners (deliver (Exit code signal) s) = Some (mkListeners (owner l) (onClose l) false).
Proof.
  intros Hl Hc Hr Ho r. unfold deliver. rewrite Hl, Hc, Hr, Ho.
  rewrite obj_exitListener. split; [done|].
  unfold exitListener, promiseAfterExit. fold r.
  set (s1 := assign_processResult r s).
  assert (runs s1 !! owner l = Some c) as Hr1 by done.
  split_and!.
  - destruct code as [n|]; [destruct (n =? 0)%Z|];
      try destruct (rejection _ _ _);
      destruct (waitForStreams (mergedOptions c)) as [[|]|];
      unfold promiseOf; simpl;
      repeat (erewrite lookup_update_run; [|first [eassumption | by eapply lookup_update_run]]);
      simpl; rewrite ?Hr; done.
  - destruct code as [n|]; [destruct (n =? 0)%Z|];
      try destruct (rejection _ _ _);
      destruct (waitForStreams (mergedOptions c)) as [[|]|];
      simpl; rewrite ?writes_update_run; done.
  - destruct code as [n|]; [destruct (n =? 0)%Z|];
      try destruct (rejection _ _ _);
      destruct (waitForStreams (mergedOptions c)) as [[|]|];
      simpl; done.
Qed.

(** C9 as stated fails.  The error list belongs to the object and is never
    cleared: after a first [run] whose [spawn] threw, a second [run] on the
    same object spawns, observes one error of its own (EPIPE on stderr) and
    resolves with the error of the first [run], not with the first error
    observed during this one. *)
Lemma later_run_reports_an_earlier_error :
  let s1 := run noOptions (SpawnThrows enoent) echo in
  let second := [CallRun noOptions (SpawnReturns child42);
                 Emit (StderrError (MkError "EPIPE"));
                 Emit (Exit (Some 1%Z) None);
                 Emit (Close (Some 1%Z) None)] in
  let s2 := exec second s1 in
  omap observedError second = [MkError "EPIPE"] /\
  promiseOf 1 s2 = Some (Resolved (mkResult (Some 1%Z) (Some enoent) "" "" SigNull)) /\
  ~ (exists r, promiseOf 1 s2 = Some (Resolved r) /\ error r = Some (MkError "EPIPE")).
Proof.
  vm_compute. split_and!; try reflexivity.
  intros (r & [= <-] & H). discriminate H.
Qed.

(** C9, as the code has it.  "First" is first on the object, across its
    calls of [run].  The step that makes the error list non-empty is a step
    that observes an error, which becomes the first recorded error.  From
    any state in which [e] is the first recorded error, after any steps:
    [e] is still the first; every result made by [makeResult], every
    result newly cached by a further step and every result with which a
    further step resolves a promise has [error = e], so an error observed
    later is in none of them; and the two listeners do produce such
    results: an exit event caches one, and a close event caches one and
    resolves the pending promise of the run with it. *)
Theorem first_error_wins (s : System) (steps : list Step) :
  (forall st,
     processErrors (obj s) = [] ->
     processErrors (obj (step st s)) <> [] ->
     exists e, observedError st = Some e /\
               head (processErrors (obj (step st s))) = Some e) /\
  (forall e,
     head (processErrors (obj s)) = Some e ->
     let s' := exec steps s in
     head (processErrors (obj s')) = Some e /\
     (forall code sig, error (makeResult (obj s') code sig) = Some e) /\
     (forall st' r, processResult (obj (step st' s')) = Some r ->
                    processResult (obj s') <> Some r -> error r = Some e) /\
     (forall st' i r, promiseOf i (step st' s') = Some (Resolved r) ->
                      promiseOf i s' <> Some (Resolved r) -> error r = Some e) /\
     (forall l child c code sig,
        listeners s' = Some l ->
        childProcess (obj s') = Some child ->
        runs s' !! owner l = Some c ->
        (onExit l = true ->
         exists r, result (obj (step (Emit (Exit code sig)) s')) = Some r /\
                   error r = Some e) /\
        (onClose l = true ->
         exists r, result (obj (step (Emit (Close code sig)) s')) = Some r /\
                   error r = Some e /\
                   exitCode r = code /\
                   (promise c = Pending ->
                    promiseOf (owner l) (step (Emit (Close code sig)) s') =
                      Some (Resolved r))))).
Proof.
  split.
  - intros st Hnil Hne.
    destruct (step_errors st s) as [Heq|(e & Hobs & Heq)]; [congruence|].
    exists e. split; [done|]. by rewrite Heq, Hnil.
  - intros e He s'.
    assert (head (processErrors (obj s')) = Some e) as He'
      by (eapply head_prefix; [apply ev_errors, evolves_exec|done]).
    split_and!; try done.
    + intros st' r Hr Hn. destruct (step_result st' s') as [Hq|(code & sig & Hq)].
      * congruence.
      * rewrite Hq in Hr. by injection Hr as <-.
    + intros st' i r Hr Hn.
      destruct (step_runs st' s' i r Hr) as [Hq|(code & sig & ->)]; done.
    + intros l child c code sig Hl Hc Hr. split.
      * intros Ho.
        destruct (deliver_exit s' l child c code sig Hl Hc Hr Ho) as (Hobj & _).
        eexists. simpl. unfold result. rewrite Hobj. simpl. split; [done|exact He'].
      * intros Ho.
        destruct (deliver_close s' l child c code sig Hl Hc Hr Ho) as (Hobj & Hp & _).
        eexists. simpl. unfold result. rewrite Hobj. simpl.
        split_and!; [done|exact He'|done|].
        intros Hpend. by rewrite Hp, Hpend.
Qed.

Lemma first_error_wins_witness :
  let s := exec [CallRun noOptions (SpawnThrows enoent);
                 CallRun noOptions (SpawnReturns child42)] echo in
  let steps := [Emit (StderrError (MkError "EPIPE")); Emit (Exit (Some 1%Z) None)] in
  let s' := exec steps s in
  let r := mkResult (Some 1%Z) (Some enoent) "" "" SigNull in
  head (processErrors (obj s)) = Some enoent /\
  processErrors (obj s') = [enoent; MkError "EPIPE"] /\
  (forall code sig, error (makeResult (obj s') code sig) = Some enoent) /\
  result (obj (step (Emit (Close (Some 1%Z) None)) s')) = Some r /\
  promiseOf 1 (step (Emit (Close (Some 1%Z) None)) s') = Some (Resolved r).
Proof.
  intros s steps s' r.
  destruct (first_error_wins s steps) as [_ H].
  destruct (H enoent eq_refl) as (_ & Hmake & _).
  split; [reflexivity|]. split; [reflexivity|]. split; [exact Hmake|].
  split; reflexivity.
Defined.

(** C2 as stated fails: with [waitForStreams = true], an exit event before
    close caches a result although the promise is still pending, and close
    then assigns [processResult] a second time. *)
Lemma exit_then_close_assigns_twice :
  let s1 := exec [CallRun noOptions (SpawnReturns child42);
                  Emit (Exit (Some 0%Z) None)] echo in
  let s2 := step (Emit (Close (Some 0%Z) None)) s1 in
  promiseOf 0 s1 = Some Pending /\
  result (obj s1) = Some (mkResult (Some 0%Z) None "" "" SigUndefined) /\
  promiseOf 0 s2 = Some (Resolved (mkResult (Some 0%Z) None "" "" SigNull)) /\
  resultWrites s2 = 2 /\
  ~ (resultWrites s2 = 1 /\ result (obj s1) = None).
Proof. vm_compute. split_and!; try reflexivity. intros [H _]. discriminate H. Qed.

(** C2, as the code has it.  On an object built by the constructor, after
    any steps: [processResult] has been assigned at most twice, and at most
    once per close or exit event among the steps; [result()] is unset
    exactly as long as there was no assignment, so it is unset before the
    first close or exit event; an exit event handled under
    [waitForStreams = true] does cache a result (null code as -1, null
    signal as undefined) and makes [stopped] true, without resolving the
    promise of the run; and a close event handled afterwards assigns the
    result again, the one it resolves the promise with. *)
Theorem result_is_assigned_at_exit_and_close (cmd : string) (argv : list string)
    (base : ChildProcessOptions) (steps : list Step) :
  let s := exec steps (boot (constructor cmd argv base)) in
  resultWrites s <= 2 /\
  resultWrites s <= countTerminal steps /\
  (result (obj s) = None <-> resultWrites s = 0) /\
  (forall l c code signal,
     listeners s = Some l ->
     onExit l = true ->
     runs s !! owner l = Some c ->
     waitForStreams (mergedOptions c) = Some true ->
     let s' := step (Emit (Exit code signal)) s in
     result (obj s') =
       Some (makeResult (obj s) (Some (exitCodeOrSentinel code))
               (signalOrUndefined signal)) /\
     stopped (obj s') = true /\
     resultWrites s' = S (resultWrites s) /\
     (forall r, promise c <> Resolved r ->
                promiseOf (owner l) s' <> Some (Resolved r))) /\
  (forall l c code signal,
     listeners s = Some l ->
     onClose l = true ->
     runs s !! owner l = Some c ->
     let s' := step (Emit (Close code signal)) s in
     let r := makeResult (obj s) code (rawSignal signal) in
     result (obj s') = Some r /\
     resultWrites s' = S (resultWrites s) /\
     promiseOf (owner l) s' = Some (resolve r (promise c))).
Proof.
  intros s.
  destruct (exec_consistent steps _ (boot_consistent cmd argv base)) as [Hc Hw].
  fold s in Hc, Hw. simpl in Hw. destruct Hc as [Hl Hu Hn Hb].
  split_and!.
  - lia.
  - exact Hw.
  - unfold result. by symmetry.
  - intros l c code signal Hls Hex Hr Hwfs s'.
    destruct (childProcess (obj s)) as [child|] eqn:Hch;
      [|rewrite Hl in Hls; done].
    destruct (deliver_exit s l child c code signal Hls Hch Hr Hex) as (Ho & Hp & Hwr & _).
    subst s'. simpl. unfold result, stopped. rewrite Ho. simpl. rewrite Hch.
    split_and!; try done.
    intros r Hnr. rewrite Hp. unfold promiseAfterExit. rewrite Hwfs.
    intros [= Heq]. repeat case_match; try done; by destruct (promise c).
  - intros l c code signal Hls Hcl Hr s' r.
    destruct (childProcess (obj s)) as [child|] eqn:Hch;
      [|rewrite Hl in Hls; done].
    destruct (deliver_close s l child c code signal Hls Hch Hr Hcl) as (Ho & Hp & Hwr & _).
    subst s'. simpl. unfold result. rewrite Ho. done.
Qed.

Lemma result_is_assigned_at_exit_and_close_witness :
  let s := exec [CallRun noOptions (SpawnReturns child42); Emit (StdoutData "hello")]
             (boot (constructor "echo" ["hello"] noOptions)) in
  let l := mkListeners 0 true true in
  let c := mkRunCtx (withDefaults noOptions) Pending false true false in
  let s' := step (Emit (Exit None (Some "SIGTERM"))) s in
  listeners s = Some l /\
  onExit l = true /\
  runs s !! owner l = Some c /\
  waitForStreams (mergedOptions c) = Some true /\
  result (obj s) = None /\
  result (obj s') = Some (mkResult (Some (-1)%Z) None "hello" "" (SigName "SIGTERM")) /\
  stopped (obj s') = true /\
  resultWrites s' = 1 /\
  (forall r, promise c <> Resolved r -> promiseOf (owner l) s' <> Some (Resolved r)).
Proof.
  intros s l c s'.
  split; [reflexivity|]. split; [reflexivity|]. split; [reflexivity|].
  split; [reflexivity|]. split; [reflexivity|].
  destruct (result_is_assigned_at_exit_and_close "echo" ["hello"] noOptions
              [CallRun noOptions (SpawnReturns child42); Emit (StdoutData "hello")])
    as (_ & _ & _ & H & _).
  apply (H l c None (Some "SIGTERM")); reflexivity.
Defined.

Lemma stop_escalations force sig s :
  escalations s `prefix_of` escalations (stop force sig s).2.
Proof. unfold stop. repeat case_match; simpl; try done. by apply prefix_app_r. Qed.

Lemma errorHandler_escalations i opts e force s :
  escalations s `prefix_of` escalations (errorHandler i opts e force s).2.
Proof.
  unfold errorHandler.
  set (s1 := with_obj _ s).
  change (escalations s) with (escalations s1).
  destruct (negb (stopped (obj s1))).
  - pose proof (stop_escalations (Js.defaultParam (useForceStop opts) force) None s1) as Hp.
    destruct (stop _ _ s1) as [[|e'] s2]; simpl in *; [|done].
    case_match; simpl; rewrite ?escalations_update_run; done.
  - case_match; simpl; rewrite ?escalations_update_run; done.
Qed.

Lemma run_escalations params spawn s :
  escalations s `prefix_of` escalations (run params spawn s).
Proof.
  assert (forall i opts s', escalations s' = escalations s ->
            escalations s `prefix_of` escalations (spawnPhase i opts spawn s')) as Hphase.
  { intros i opts s' Hs'. unfold spawnPhase. destruct spawn as [h|e].
    - simpl. by rewrite escalations_update_run; simpl; rewrite Hs'.
    - errorHandler_cases errorHandler_escalations Hp;
      simpl in Hp; rewrite ?escalations_update_run; by rewrite <- Hs'. }
  unfold run. repeat case_match; rewrite ?escalations_update_run; try done;
    apply Hphase; rewrite ?escalations_update_run; done.
Qed.

Lemma deliver_escalations ev s :
  escalations s `prefix_of` escalations (deliver ev s).
Proof.
  unfold deliver.
  destruct (listeners s) as [l|]; [|done].
  destruct (childProcess (obj s)) as [child|]; [|done].
  destruct (runs s !! owner l) as [c|]; [|done].
  destruct ev; repeat case_match; try done;
    try (rewrite escalations_uncaught; apply errorHandler_escalations);
    try (by destruct (onStdout _)); try (by destruct (onStderr _)).
  - unfold closeListener. simpl. by rewrite escalations_update_run.
  - unfold exitListener. simpl.
    repeat case_match; rewrite ?escalations_update_run; simpl;
      rewrite ?escalations_update_run; done.
Qed.

Lemma step_escalations st s k e :
  isPollOf k st = false ->
  escalations s !! k = Some e ->
  escalations (step st s) !! k = Some e.
Proof.
  intros Hp Hk.
  assert (forall l', escalations s `prefix_of` l' -> l' !! k = Some e) as Hpre.
  { intros l' [t ->]. by apply lookup_app_l_Some. }
  destruct st; simpl.
  - apply Hpre, run_escalations.
  - rewrite escalations_uncaught. apply Hpre, stop_escalations.
  - repeat case_match; try done. rewrite escalations_uncaught.
    apply Hpre, errorHandler_escalations.
  - apply Hpre, deliver_escalations.
  - repeat case_match; try done. rewrite escalations_uncaught.
    apply Hpre. etrans; [|apply errorHandler_escalations].
    by rewrite escalations_update_run.
  - unfold microtasks. repeat case_match; done.
  - simpl in Hp. apply bool_decide_eq_false in Hp.
    unfold poll, waitUntilPoll. repeat case_match; simplify_eq; simpl; try done;
      by rewrite list_lookup_insert_ne.
Qed.

Lemma stopped_earlier steps s :
  stopped (obj (exec steps s)) = false -> stopped (obj s) = false.
Proof.
  intros Hf. destruct (stopped (obj s)) eqn:Hs; [|done].
  by rewrite (stopped_evolves _ _ (evolves_exec steps s) Hs) in Hf.
Qed.

Lemma escalation_fires k child p cmd steps :
  forall s m,
    escalations s !! k = Some (waitingFor child p cmd m) ->
    m <= 15 ->
    stopped (obj (exec steps s)) = false ->
    16 <= m + countPolls k steps ->
    EKill child (Some "SIGKILL") ∈ effects (exec steps s).
Proof.
  induction steps as [|st steps IH]; intros s m Hk Hm Hlive Hcount.
  - unfold countPolls in Hcount. simpl in Hcount. lia.
  - simpl in Hlive |- *.
    destruct (isPollOf k st) eqn:Hp.
    + destruct st; try discriminate. simpl in Hp. apply bool_decide_eq_true in Hp. subst k0.
      unfold countPolls in Hcount. rewrite filter_cons_True in Hcount
        by (simpl; by rewrite bool_decide_eq_true).
      simpl in Hcount.
      pose proof (stopped_earlier [Poll k killThrows] s
                    (stopped_earlier steps _ Hlive)) as Hs.
      destruct (decide (m = 15)) as [->|Hlt].
      * assert (EKill child (Some "SIGKILL") ∈ effects (step (Poll k killThrows) s)) as Hin.
        { simpl. unfold poll, waitUntilPoll. rewrite Hk, Hs. simpl.
          destruct killThrows; simpl; apply list_elem_of_In.
          - apply in_or_app. left. apply in_or_app. right. by left.
          - apply in_or_app. right. by left. }
        destruct (exec_effects steps (step (Poll k killThrows) s)) as [t ->].
        apply list_elem_of_In, in_or_app. left. by apply list_elem_of_In.
      * apply (IH _ (S m)); try done; try lia.
        -- simpl. unfold poll, waitUntilPoll. rewrite Hk, Hs. simpl.
           assert ((forceDeadline <=? forcePollInterval * Z.of_nat m)%Z = false) as ->.
           { apply Z.leb_gt. unfold forceDeadline, forcePollInterval. lia. }
           simpl. rewrite list_lookup_insert_eq by eauto using lookup_lt_Some.
           unfold sleep, waitingFor. simpl. do 2 f_equal. lia.
        -- fold (countPolls k steps) in Hcount. lia.
    + apply (IH _ m); try done.
      * by apply step_escalations.
      * unfold countPolls in *. rewrite filter_cons_False in Hcount by (by rewrite Hp).
        done.
Qed.

(** C4.  [stop(true, signal)] on a live process calls [child.kill(signal)].
    When that call returns (no signal, or a signal name that the runtime
    knows), the signal is sent and a wait with deadline 3000 and interval
    200 is started; if the process is still not stopped after steps that
    contain enough polls of that wait for the deadline to elapse (the last
    poll at [200 * (n - 1) >= 3000]), SIGKILL has been sent to the same
    handle.  When the [kill] of a wait that is due throws, the effects are
    the SIGKILL and a warning on the object's logger; the object (its
    errors and result) and all promises are unchanged.  When the first
    call throws (a signal name that the runtime does not know), no signal
    was sent: [stop] throws that error and no wait is created. *)
Theorem forced_stop_escalates (s : System) (child : Handle)
    (signal : option string) (steps : list Step) :
  childProcess (obj s) = Some child ->
  stopped (obj s) = false ->
  let k := length (escalations s) in
  let s1 := (stop (Some true) signal s).2 in
  effects s1 = effects s ++ [EKill child signal] /\
  match killError child signal with
  | None =>
      (stop (Some true) signal s).1 = Normal /\
      escalations s1 =
        escalations s ++
          [mkEscalation child (pid (obj s)) (command (obj s)) 3000 200 0 Waiting] /\
      (stopped (obj (exec steps s1)) = false ->
       (forceDeadline <= forcePollInterval * (Z.of_nat (countPolls k steps) - 1))%Z ->
       EKill child (Some "SIGKILL") ∈ effects (exec steps s1))
  | Some e =>
      (stop (Some true) signal s).1 = Thrown e /\
      escalations s1 = escalations s /\
      obj s1 = obj s /\
      runs s1 = runs s
  end /\
  (forall s' j e,
     escalations s' !! j = Some e ->
     e_state e = Waiting ->
     stopped (obj s') = false ->
     (e_timeout e <= e_elapsed e)%Z ->
     let s'' := step (Poll j true) s' in
     effects s'' =
       effects s' ++ [EKill (e_child e) (Some "SIGKILL");
                      ELog (log (obj s')) Warn (sigkillFailed e)] /\
     obj s'' = obj s' /\
     runs s'' = runs s').
Proof.
  intros Hc Hs k s1. subst s1. unfold stop. rewrite Hc, Hs. simpl.
  split_and!.
  - by destruct (killError child signal).
  - destruct (killError child signal) as [e|]; simpl; [done|].
    split_and!; try done.
    intros Hlive Hdeadline.
    apply (escalation_fires k child (pid (obj s)) (command (obj s)) steps _ 0).
    + simpl. subst k. rewrite lookup_app_r by lia. by rewrite Nat.sub_diag.
    + lia.
    + exact Hlive.
    + unfold forceDeadline, forcePollInterval in Hdeadline. lia.
  - intros s' j e Hj Hw Hlive Hdue.
    rewrite obj_poll, runs_poll. split_and!; try done.
    unfold poll, waitUntilPoll. rewrite Hj, Hw, Hlive.
    apply Z.leb_le in Hdue. rewrite Hdue. simpl. by rewrite <- app_assoc.
Qed.

Lemma forced_stop_escalates_witness :
  let s := run noOptions (SpawnReturns child42) echo in
  let steps := Emit (StdoutData "still here") :: replicate 16 (Poll 0 false) in
  let s1 := (stop (Some true) (Some "SIGHUP") s).2 in
  let bogus := stop (Some true) (Some "SIGBOGUS") s in
  childProcess (obj s) = Some child42 /\
  stopped (obj s) = false /\
  killError child42 (Some "SIGHUP") = None /\
  effects s1 = effects s ++ [EKill child42 (Some "SIGHUP")] /\
  escalations s1 = [mkEscalation child42 42 "echo" 3000 200 0 Waiting] /\
  stopped (obj (exec steps s1)) = false /\
  (forceDeadline <= forcePollInterval * (Z.of_nat (countPolls 0 steps) - 1))%Z /\
  EKill child42 (Some "SIGKILL") ∈ effects (exec steps s1) /\
  killError child42 (Some "SIGBOGUS") = Some (MkError "Unknown signal: SIGBOGUS") /\
  bogus.1 = Thrown (MkError "Unknown signal: SIGBOGUS") /\
  escalations bogus.2 = [].
Proof.
  intros s steps s1 bogus.
  pose proof (forced_stop_escalates s child42 (Some "SIGHUP") steps
                eq_refl eq_refl) as (He & H & _).
  change (killError child42 (Some "SIGHUP")) with (@None Error) in H.
  destruct H as (_ & Hw & Hkill).
  pose proof (forced_stop_escalates s child42 (Some "SIGBOGUS") []
                eq_refl eq_refl) as (_ & H & _).
  change (killError child42 (Some "SIGBOGUS"))
    with (Some (MkError "Unknown signal: SIGBOGUS")) in H.
  destruct H as (Hthrown & Hnone & _).
  split; [reflexivity|]. split; [reflexivity|]. split; [reflexivity|].
  split; [exact He|]. split; [exact Hw|].
  split; [reflexivity|]. split; [vm_compute; discriminate|].
  split; [apply Hkill; [reflexivity|vm_compute; discriminate]|].
  split; [reflexivity|]. split; [exact Hthrown|exact Hnone].
Defined.

(** A signal name that the runtime does not know: [stop(true, 'SIGBOGUS')]
    throws out of [kill], no wait exists, and no number of polls sends
    SIGKILL. *)
Lemma forced_stop_with_unknown_signal :
  let s := run noOptions (SpawnReturns child42) echo in
  let r := stop (Some true) (Some "SIGBOGUS") s in
  let steps := replicate 16 (Poll 0 false) in
  r.1 = Thrown (MkError "Unknown signal: SIGBOGUS") /\
  effects r.2 = effects s ++ [EKill child42 (Some "SIGBOGUS")] /\
  escalations r.2 = [] /\
  effects (exec steps (uncaught r)) =
    effects s ++ [EKill child42 (Some "SIGBOGUS");
                  EThrow (MkError "Unknown signal: SIGBOGUS")].
Proof. vm_compute. split_and!; reflexivity. Qed.

(** * Properties of whole traces *)

(** *** What a step adds to the effects *)

Lemma appends_nil st s s' : effects s' = effects s -> appends st s s'.
Proof. intros H. exists []. by rewrite app_nil_r. Qed.

Lemma stop_effects_eq force sig s :
  effects (stop force sig s).2 =
  effects s ++ match childProcess (obj s) with
               | Some child => if stopped (obj s) then [] else [EKill child sig]
               | None => []
               end.
Proof.
  unfold stop. destruct (childProcess (obj s)); [|by rewrite app_nil_r].
  destruct (stopped (obj s)); simpl; [by rewrite app_nil_r|].
  by destruct (killError _ _), (Js.nullish force false).
Qed.

Lemma errorHandler_effects_eq i opts e force s :
  effects (errorHandler i opts e force s).2 =
  effects s ++ match childProcess (obj s) with
               | Some child => if stopped (obj s) then [] else [EKill child None]
               | None => []
               end.
Proof.
  destruct (childProcess (obj s)) as [child|] eqn:Hc.
  - destruct (stopped (obj s)) eqn:Hs.
    + rewrite app_nil_r. apply errorHandler_idle. by right.
    + by apply errorHandler_live.
  - rewrite app_nil_r. apply errorHandler_idle. by left.
Qed.

Lemma uncaught_effects_eq r :
  effects (uncaught r) =
  effects r.2 ++ match r.1 with Thrown e => [EThrow e] | Normal => [] end.
Proof. destruct r as [[|e] s]; simpl; by rewrite ?app_nil_r. Qed.

Lemma appends_errorHandler st i opts e force s :
  appends st s (uncaught (errorHandler i opts e force s)).
Proof.
  unfold appends. rewrite uncaught_effects_eq, errorHandler_normal, errorHandler_effects_eq, app_nil_r.
  eexists; split; [done|].
  destruct (childProcess (obj s)) eqn:Hc; [|done].
  destruct (stopped (obj s)) eqn:Hs; [done|].
  repeat constructor; eauto.
Qed.

Lemma appends_run params spawn s : appends (CallRun params spawn) s (run params spawn s).
Proof.
  unfold run. destruct (childProcess (obj s)) as [h|] eqn:Hc; [by apply appends_nil|].
  set (opts := withDefaults _).
  assert (allowed (CallRun params spawn) s (running s)) as Hrun by done.
  assert (forall s', obj s' = obj s -> effects s' = effects s ++ [running s] ->
            appends (CallRun params spawn) s (spawnPhase (length (runs s)) opts spawn s'))
    as Hphase.
  { intros s' Ho He. unfold spawnPhase. destruct spawn as [h|e].
    - unfold appends, set_listeners. cbn [effects]. rewrite effects_update_run.
      simpl. rewrite He, Ho, <- app_assoc.
      eexists; split; [done|]. repeat constructor; eauto.
    - set (s1 := emit _ s').
      pose proof (errorHandler_effects_eq (length (runs s)) opts e None s1) as Heq.
      pose proof (errorHandler_normal (length (runs s)) opts e None s1) as Hn.
      destruct (errorHandler _ _ _ _ s1) as [[|e'] s2]; simpl in *; [|done].
      unfold appends. rewrite Heq. subst s1. simpl. rewrite Ho, Hc, app_nil_r, He, <- app_assoc.
      eexists; split; [done|]. repeat constructor; eauto. }
  destruct (timeout opts) as [t|].
  - destruct (completed t).
    + unfold appends. rewrite effects_update_run. simpl.
      eexists; split; [done|]. by repeat constructor.
    + apply Hphase; by rewrite ?obj_update_run, ?effects_update_run.
  - by apply Hphase.
Qed.

Lemma effects_onData_eq cb text s :
  effects (onData cb text s) =
  effects s ++ match cb with Some f => [ECallback f text] | None => [] end.
Proof. destruct cb; simpl; by rewrite ?app_nil_r. Qed.

Lemma appends_deliver ev s : appends (Emit ev) s (deliver ev s).
Proof.
  unfold deliver.
  destruct (listeners s) as [l|]; [|by apply appends_nil].
  destruct (childProcess (obj s)) as [child|]; [|by apply appends_nil].
  destruct (runs s !! owner l) as [c|]; [|by apply appends_nil].
  destruct ev as [e|e|e|text|text|code sig|code sig];
    repeat case_match; try (by apply appends_nil);
    try apply appends_errorHandler;
    try (apply appends_nil; by rewrite ?effects_closeListener, ?effects_exitListener).
  all: unfold appends; rewrite effects_onData_eq; eexists; split; [done|];
    case_match; repeat constructor; simpl; eauto.
Qed.

Lemma appends_poll k b s : appends (Poll k b) s (poll k b s).
Proof.
  unfold poll, waitUntilPoll.
  destruct (escalations s !! k) as [esc|] eqn:Hk; [|by apply appends_nil].
  destruct (e_state esc); [|by apply appends_nil].
  destruct (stopped (obj s)) eqn:Hs; [by apply appends_nil|].
  destruct (e_timeout esc <=? e_elapsed esc)%Z; [|by apply appends_nil].
  assert (allowed (Poll k b) s (EKill (e_child esc) (Some "SIGKILL"))) as Hkill
    by (split; [done|right; eauto]).
  unfold appends. destruct b; simpl.
  - exists [EKill (e_child esc) (Some "SIGKILL"); ELog (log (obj s)) Warn (sigkillFailed esc)].
    rewrite <- app_assoc. split; [done|].
    constructor; [exact Hkill|]. constructor; [split; [done|eauto]|]. constructor.
  - exists [EKill (e_child esc) (Some "SIGKILL")]. split; [done|].
    constructor; [exact Hkill|]. constructor.
Qed.

Lemma appends_step st s : appends st s (step st s).
Proof.
  destruct st as [params spawn|force sig|i err|ev|i e| |k b]; simpl.
  - apply appends_run.
  - unfold appends. rewrite uncaught_effects_eq, stop_effects_eq, <- app_assoc.
    eexists; split; [done|]. apply Forall_app. split.
    + destruct (childProcess (obj s)) eqn:Hc; [|constructor].
      destruct (stopped (obj s)) eqn:Hs; constructor; [|constructor].
      split; eauto.
    + destruct (stop force sig s).1; constructor; [|constructor]. simpl. eauto.
  - repeat case_match; try (by apply appends_nil). apply appends_errorHandler.
  - apply appends_deliver.
  - repeat case_match; try (by apply appends_nil).
    match goal with c : RunCtx |- _ =>
      destruct (appends_errorHandler (TimerRejected i e) i (mergedOptions c) e (Some true)
                  (update_run i (set_timerArmed false) s)) as (l & Hl & Hall) end.
    exists l. rewrite Hl, effects_update_run. split; [done|].
    eapply Forall_impl; [exact Hall|]. intros x.
    unfold allowed. rewrite obj_update_run, escalations_update_run. done.
  - apply appends_nil. unfold microtasks. repeat case_match; done.
  - apply appends_poll.
Qed.

Lemma filter_none {A} (P : A -> Prop) `{forall x, Decision (P x)} (l : list A) :
  Forall (fun x => ~ P x) l -> filter P l = [].
Proof.
  induction 1 as [|x l Hx _ IH]; [done|]. by rewrite filter_cons_False.
Qed.

(** X15.  Once [stopped] is true no signal is sent any more: whatever steps
    follow (calls of [stop], errors, timer rejections, polls of a forced
    stop that is still waiting), the list of signals sent stays as it
    was. *)
Theorem no_signal_after_stopped (s : System) (steps : list Step) :
  stopped (obj s) = true ->
  signalsSent (effects (exec steps s)) = signalsSent (effects s).
Proof.
  revert s. induction steps as [|st steps IH]; intros s Hs; [done|]. simpl.
  rewrite IH by (eapply stopped_evolves; [apply evolves_step|done]).
  destruct (appends_step st s) as (l & -> & Hall).
  unfold signalsSent. rewrite filter_app, (filter_none _ l), app_nil_r; [done|].
  eapply Forall_impl; [exact Hall|].
  intros [] Ha; simpl in *; try done. destruct Ha as [Hf _]. congruence.
Qed.

Lemma no_signal_after_stopped_witness :
  let s := exec [CallRun noOptions (SpawnReturns child42); CallStop (Some true) None;
                 Emit (Exit None (Some "SIGTERM"))] echo in
  let steps := Emit (ProcessError (MkError "EPIPE")) :: CallStop None None
               :: replicate 16 (Poll 0 false) in
  stopped (obj s) = true /\
  signalsSent (effects (exec steps s)) = signalsSent (effects s).
Proof.
  intros s steps. split; [reflexivity|].
  apply (no_signal_after_stopped s steps). reflexivity.
Defined.

(** X16.  Only a call of [stop] by the user throws to its caller: a
    sequence of steps without such a call adds no exception.  In
    particular the [stop] that [errorHandler] makes (guarded by
    [!this.stopped]) never throws. *)
Theorem only_stop_throws (s : System) (steps : list Step) :
  forallb (fun st => negb (isCallStop st)) steps = true ->
  thrown (effects (exec steps s)) = thrown (effects s).
Proof.
  revert s. induction steps as [|st steps IH]; intros s Hsteps; [done|].
  simpl in *. apply andb_true_iff in Hsteps as [Hst Hsteps].
  rewrite IH by done.
  destruct (appends_step st s) as (l & -> & Hall).
  unfold thrown. rewrite filter_app, (filter_none _ l), app_nil_r; [done|].
  eapply Forall_impl; [exact Hall|].
  intros [] Ha; simpl in *; try done. destruct Ha as (f & g & ->). done.
Qed.

Lemma only_stop_throws_witness :
  let s := run noOptions (SpawnReturns child42) echo in
  let steps := [Emit (Exit (Some 0%Z) None); Emit (StderrError (MkError "EPIPE"));
                TimerRejected 0 (MkError "late"); ReportError 0 (inl "bad output");
                Poll 0 true; Emit (Close (Some 0%Z) None); Microtasks] in
  forallb (fun st => negb (isCallStop st)) steps = true /\
  thrown (effects (exec steps s)) = thrown (effects s).
Proof.
  intros s steps. split; [reflexivity|].
  apply (only_stop_throws s steps). reflexivity.
Defined.

(** X3.  Once a handle is stored, [spawn] is never called again: no later
    step, a further call of [run] included, adds a call of [spawn]. *)
Theorem no_spawn_once_started (s : System) (steps : list Step) :
  is_Some (childProcess (obj s)) ->
  spawnCount (effects (exec steps s)) = spawnCount (effects s).
Proof.
  revert s. induction steps as [|st steps IH]; intros s [h Hc]; [done|]. simpl.
  rewrite IH by (rewrite (ev_child _ _ (evolves_step st s) h Hc); eauto).
  destruct (appends_step st s) as (l & -> & Hall).
  unfold spawnCount. rewrite filter_app, (filter_none _ l), app_nil_r; [done|].
  eapply Forall_impl; [exact Hall|].
  intros [] Ha; simpl in *; try done. destruct Ha as [Hn _]. congruence.
Qed.

Lemma no_spawn_once_started_witness :
  let s := run noOptions (SpawnReturns child42) echo in
  let steps := [CallRun noOptions (SpawnReturns childless); Emit (Exit (Some 1%Z) None);
                Microtasks; CallRun noOptions (SpawnThrows enoent)] in
  is_Some (childProcess (obj s)) /\
  spawnCount (effects (exec steps s)) = spawnCount (effects s).
Proof.
  intros s steps. split; [simpl; eauto|].
  apply (no_spawn_once_started s steps). simpl. eauto.
Defined.

(** X1.  The logger is chosen once, by the constructor, from the
    [logging] option given there ([options.logging ?? true]): every
    message the object ever logs goes to that logger, so the [logging]
    option passed to [run] has no effect on it. *)
Theorem logger_is_fixed_at_construction (cmd : string) (argv : list string)
    (base : ChildProcessOptions) (steps : list Step) (lg : Logger) (lvl : Level)
    (msg : string) :
  ELog lg lvl msg ∈ effects (exec steps (boot (constructor cmd argv base))) ->
  lg = if Js.nullish (logging base) true then TheLogger else NullLogger.
Proof.
  set (s0 := boot _).
  change (if Js.nullish (logging base) true then TheLogger else NullLogger)
    with (log (obj s0)).
  assert (forall e, e ∈ effects s0 -> e = ELog lg lvl msg -> lg = log (obj s0)) as H0
    by (intros e He; by apply elem_of_nil in He).
  assert (forall s, log (obj s) = log (obj s0) ->
            (forall e, e ∈ effects s -> e = ELog lg lvl msg -> lg = log (obj s0)) ->
            forall e, e ∈ effects (exec steps s) -> e = ELog lg lvl msg -> lg = log (obj s0))
    as Hgen.
  { clear H0. induction steps as [|st steps IH]; intros s Hlog Hs; [done|]. simpl.
    apply IH.
    - by rewrite (ev_log _ _ (evolves_step st s)).
    - destruct (appends_step st s) as (l & -> & Hall).
      intros e He Heq. apply elem_of_app in He as [He|He]; [by eapply Hs|].
      rewrite Forall_forall in Hall. specialize (Hall e He). subst e.
      destruct Hall as [Hlg _]. congruence. }
  intros Hin. by eapply (Hgen s0).
Qed.

Lemma logger_is_fixed_at_construction_witness :
  let base := mkOptions
      (Js.Value false) Js.Absent Js.Absent Js.Absent Js.Absent Js.Absent
      Js.Absent Js.Absent Js.Absent Js.Absent in
  let params := mkOptions
      (Js.Value true) Js.Absent Js.Absent Js.Absent Js.Absent Js.Absent
      Js.Absent Js.Absent Js.Absent Js.Absent in
  let steps := [CallRun params (SpawnReturns child42)] in
  ELog NullLogger Info "Running: (not started) [echo hello]"
    ∈ effects (exec steps (boot (constructor "echo" ["hello"] base))) /\
  NullLogger = if Js.nullish (logging base) true then TheLogger else NullLogger.
Proof.
  intros base params steps.
  assert (ELog NullLogger Info "Running: (not started) [echo hello]"
            ∈ effects (exec steps (boot (constructor "echo" ["hello"] base)))) as Hin
    by (apply list_elem_of_In; simpl; left; reflexivity).
  split; [exact Hin|].
  exact (logger_is_fixed_at_construction "echo" ["hello"] base steps _ _ _ Hin).
Defined.

(** *** The waits of forced stops *)

Lemma starts_nil s s' : escalations s' = escalations s -> starts s s'.
Proof. intros H. exists []. by rewrite app_nil_r. Qed.

Lemma stop_starts force sig s : starts s (stop force sig s).2.
Proof.
  unfold stop. destruct (childProcess (obj s)) as [child|] eqn:Hc; [|by apply starts_nil].
  destruct (stopped (obj s)); simpl; [by apply starts_nil|].
  destruct (killError child sig); [by apply starts_nil|].
  destruct (Js.nullish force false); [|by apply starts_nil].
  eexists; split; [done|]. constructor; [|constructor]. exists child. done.
Qed.

Lemma errorHandler_starts i opts e force s : starts s (errorHandler i opts e force s).2.
Proof.
  destruct (childProcess (obj s)) as [child|] eqn:Hc.
  - destruct (stopped (obj s)) eqn:Hs.
    + apply starts_nil. apply errorHandler_idle. by right.
    + destruct (errorHandler_live i opts e force s child Hc Hs) as [_ Heq].
      unfold starts. rewrite Heq.
      eexists; split; [done|]. case_match; constructor; [|constructor].
      exists child. done.
  - apply starts_nil. apply errorHandler_idle. by left.
Qed.

Lemma run_keeps_escalations params spawn s :
  escalations (run params spawn s) = escalations s.
Proof.
  unfold run. destruct (childProcess (obj s)) as [h|] eqn:Hc; [done|].
  assert (forall i opts s', childProcess (obj s') = None ->
            escalations (spawnPhase i opts spawn s') = escalations s') as Hphase.
  { intros i opts s' Hc'. unfold spawnPhase. destruct spawn as [h|e].
    - unfold set_listeners. cbn [escalations]. by rewrite escalations_update_run.
    - set (s1 := emit _ s').
      destruct (errorHandler_idle i opts e None s1) as [_ He]; [by left|].
      destruct (errorHandler _ _ _ _ s1) as [[|e'] s2]; simpl in *;
        by rewrite ?escalations_update_run, He. }
  repeat case_match; rewrite ?Hphase, ?escalations_update_run;
    rewrite ?obj_update_run; done.
Qed.

Lemma deliver_starts ev s : starts s (deliver ev s).
Proof.
  unfold deliver.
  destruct (listeners s) as [l|]; [|by apply starts_nil].
  destruct (childProcess (obj s)) as [child|]; [|by apply starts_nil].
  destruct (runs s !! owner l) as [c|]; [|by apply starts_nil].
  destruct ev as [e|e|e|text|text|code sig|code sig];
    repeat case_match; try (by apply starts_nil).
  all: try (pose proof (errorHandler_starts (owner l) (mergedOptions c) e None s) as Hst;
            pose proof (errorHandler_normal (owner l) (mergedOptions c) e None s) as Hn;
            by destruct (errorHandler _ _ _ _ s) as [[|?] ?]).
  all: apply starts_nil.
  all: try (by destruct (onStdout _)); try (by destruct (onStderr _)).
  - unfold closeListener. cbn [escalations set_listeners]. by rewrite escalations_update_run.
  - unfold exitListener. cbn [escalations set_listeners].
    repeat case_match; rewrite ?escalations_update_run; simpl;
      rewrite ?escalations_update_run; done.
Qed.

Lemma step_starts st s :
  (forall k b, st <> Poll k b) -> starts s (step st s).
Proof.
  intros Hp. destruct st as [params spawn|force sig|i err|ev|i e| |k b]; simpl.
  - apply starts_nil, run_keeps_escalations.
  - pose proof (stop_starts force sig s) as Hst.
    destruct (stop force sig s) as [[|?] ?]; done.
  - repeat case_match; try (by apply starts_nil).
    match goal with c : RunCtx |- _ =>
      pose proof (errorHandler_starts i (mergedOptions c) (toError err) None s) as Hst;
      pose proof (errorHandler_normal i (mergedOptions c) (toError err) None s) as Hn;
      by destruct (errorHandler _ _ _ _ s) as [[|?] ?] end.
  - apply deliver_starts.
  - repeat case_match; try (by apply starts_nil).
    match goal with c : RunCtx |- _ =>
      pose proof (errorHandler_starts i (mergedOptions c) e (Some true)
                    (update_run i (set_timerArmed false) s)) as Hst;
      pose proof (errorHandler_normal i (mergedOptions c) e (Some true)
                    (update_run i (set_timerArmed false) s)) as Hn;
      destruct (errorHandler _ _ _ _ (update_run i (set_timerArmed false) s))
        as [[|?] ?]; [|done] end.
    unfold starts in *. simpl in *.
    by rewrite obj_update_run, escalations_update_run in Hst.
  - apply starts_nil. unfold microtasks. repeat case_match; done.
  - by destruct (Hp k b).
Qed.

Lemma pid_evolves o o' c :
  childProcess o = Some c -> evolves o o' -> pid o' = pid o.
Proof. intros Hc Hev. unfold pid. by rewrite (ev_child _ _ Hev c Hc), Hc. Qed.

Lemma sound_evolves o o' esc : evolves o o' -> sound o esc -> sound o' esc.
Proof.
  intros Hev [Hc Hp Hcmd Ht Hi He Hg]. split; try done.
  - by apply (ev_child _ _ Hev).
  - by rewrite (pid_evolves o o' _ Hc Hev).
  - by rewrite (ev_command _ _ Hev).
Qed.

Lemma freshWait_sound o esc : freshWait o esc -> sound o esc.
Proof.
  intros (child & Hc & ->). split; simpl; try done.
  exists 0. unfold forcePollInterval. lia.
Qed.

Lemma sound_finish o esc : sound o esc -> sound o (finish esc).
Proof. intros []. by split. Qed.

Lemma sound_sleep o esc :
  (e_timeout esc <=? e_elapsed esc)%Z = false -> sound o esc -> sound o (sleep esc).
Proof.
  intros Hlt [Hc Hp Hcmd Ht Hi He [n Hg]]. apply Z.leb_gt in Hlt.
  rewrite Ht in Hlt. split; simpl; try done.
  - rewrite Hi, Hg. rewrite Hg in Hlt. unfold forceDeadline, forcePollInterval in *. lia.
  - exists (S n). rewrite Hi, Hg. unfold forcePollInterval. lia.
Qed.

Lemma poll_sound k b s :
  Forall (sound (obj s)) (escalations s) ->
  Forall (sound (obj (poll k b s))) (escalations (poll k b s)).
Proof.
  intros Hall. rewrite obj_poll. unfold poll, waitUntilPoll.
  destruct (escalations s !! k) as [esc|] eqn:Hk; [|done].
  assert (sound (obj s) esc) as Hesc by (eapply Forall_lookup_1; eauto).
  destruct (e_state esc); [|done].
  destruct (stopped (obj s)).
  { simpl. apply Forall_insert; [done|]. by apply sound_finish. }
  destruct (e_timeout esc <=? e_elapsed esc)%Z eqn:Hdue.
  - destruct b; simpl; (apply Forall_insert; [done|]); by apply sound_finish.
  - simpl. apply Forall_insert; [done|]. by apply sound_sleep.
Qed.

Lemma step_sound st s :
  Forall (sound (obj s)) (escalations s) ->
  Forall (sound (obj (step st s))) (escalations (step st s)).
Proof.
  intros Hall.
  assert ((exists k b, st = Poll k b) \/ (forall k b, st <> Poll k b))
    as [(k & b & ->)|Hne] by (destruct st; eauto; right; intros; discriminate).
  - by apply poll_sound.
  - destruct (step_starts st s Hne) as (l & -> & Hl).
    apply Forall_app. split.
    + eapply Forall_impl; [exact Hall|]. intros esc. apply sound_evolves, evolves_step.
    + eapply Forall_impl; [exact Hl|]. intros esc Hf.
      eapply sound_evolves; [apply evolves_step|]. by apply freshWait_sound.
Qed.

Lemma step_targeted st s : targeted s -> targeted (step st s).
Proof.
  intros [Hk Hw]. split; [|by apply step_sound].
  destruct (appends_step st s) as (l & -> & Hall).
  intros c sig Hin. apply elem_of_app in Hin as [Hin|Hin].
  - apply (ev_child _ _ (evolves_step st s)). eauto.
  - rewrite Forall_forall in Hall. specialize (Hall _ Hin). simpl in Hall.
    apply (ev_child _ _ (evolves_step st s)).
    destruct Hall as [_ [Hc|(k & esc & Hk' & <-)]]; [done|].
    eapply Forall_lookup_1 in Hw; [|exact Hk']. by destruct Hw.
Qed.

Lemma exec_targeted steps s : targeted s -> targeted (exec steps s).
Proof.
  revert s. induction steps as [|st steps IH]; intros s Hs; [done|].
  simpl. by apply IH, step_targeted.
Qed.

Lemma boot_targeted o : targeted (boot o).
Proof. split; simpl; [|done]. intros c sig Hin. by apply elem_of_nil in Hin. Qed.

(** X13.  Every signal the object has sent, by [stop], by [errorHandler]
    or as the SIGKILL of a forced stop, went to the handle that [spawn]
    returned to this object, which is the handle still stored. *)
Theorem signals_reach_only_own_child (o : ChildProcess) (steps : list Step)
    (c : Handle) (sig : option string) :
  EKill c sig ∈ effects (exec steps (boot o)) ->
  childProcess (obj (exec steps (boot o))) = Some c.
Proof.
  intros Hin.
  destruct (exec_targeted steps (boot o) (boot_targeted o)) as [Hk _]. eauto.
Qed.

Lemma signals_reach_only_own_child_witness :
  let o := constructor "echo" ["hello"] noOptions in
  let steps := [CallStop None None; CallRun noOptions (SpawnReturns child42);
                CallStop None (Some "SIGHUP")] in
  EKill child42 (Some "SIGHUP") ∈ effects (exec steps (boot o)) /\
  childProcess (obj (exec steps (boot o))) = Some child42.
Proof.
  intros o steps.
  assert (EKill child42 (Some "SIGHUP") ∈ effects (exec steps (boot o))) as Hin
    by (apply list_elem_of_In; simpl; right; right; left; reflexivity).
  split; [exact Hin|].
  exact (signals_reach_only_own_child o steps _ _ Hin).
Defined.

(** X14.  Every wait started by a forced stop belongs to the stored
    handle, remembers the pid and the command of the object, has deadline
    3000 ms and interval 200 ms, and its elapsed time is a multiple of
    200 ms that never exceeds the deadline: it polls at most 15 times
    before deciding. *)
Theorem forced_waits_are_bounded (o : ChildProcess) (steps : list Step)
    (k : nat) (esc : Escalation) :
  escalations (exec steps (boot o)) !! k = Some esc ->
  let s := exec steps (boot o) in
  childProcess (obj s) = Some (e_child esc) /\
  e_pid esc = pid (obj s) /\
  e_command esc = command o /\
  e_timeout esc = 3000%Z /\
  e_interval esc = 200%Z /\
  exists n : nat, n <= 15 /\ e_elapsed esc = (200 * Z.of_nat n)%Z.
Proof.
  intros Hk s.
  destruct (exec_targeted steps (boot o) (boot_targeted o)) as [_ Hw].
  eapply Forall_lookup_1 in Hw; [|exact Hk].
  destruct Hw as [Hc Hp Hcmd Ht Hi He [n Hg]].
  split_and!; try done.
  - rewrite Hcmd. apply (ev_command _ _ (evolves_exec steps (boot o))).
  - exists n. split; [|done]. rewrite Hg in He.
    unfold forceDeadline, forcePollInterval in He. lia.
Qed.

Lemma forced_waits_are_bounded_witness :
  let o := constructor "echo" ["hello"] noOptions in
  let steps := [CallRun noOptions (SpawnReturns child42); CallStop (Some true) None;
                Poll 0 false; Poll 0 false] in
  let esc := mkEscalation child42 42 "echo" 3000 200 400 Waiting in
  escalations (exec steps (boot o)) !! 0 = Some esc /\
  childProcess (obj (exec steps (boot o))) = Some (e_child esc) /\
  e_pid esc = pid (obj (exec steps (boot o))) /\
  e_command esc = command o /\
  e_timeout esc = 3000%Z /\
  e_interval esc = 200%Z /\
  exists n : nat, n <= 15 /\ e_elapsed esc = (200 * Z.of_nat n)%Z.
Proof.
  intros o steps esc.
  assert (escalations (exec steps (boot o)) !! 0 = Some esc) as Hk by reflexivity.
  split; [exact Hk|].
  exact (forced_waits_are_bounded o steps 0 esc Hk).
Defined.

(** *** The closures of the runs over time *)

Lemma ctx_evolves_refl c : ctx_evolves c c.
Proof. by split. Qed.

Lemma ctx_evolves_trans c1 c2 c3 :
  ctx_evolves c1 c2 -> ctx_evolves c2 c3 -> ctx_evolves c1 c3.
Proof.
  intros [H1 H2 H3] [H4 H5 H6]. split; try congruence.
  intros Hs. rewrite H6; rewrite H3; done.
Qed.

Lemma runs_evolve_refl l : runs_evolve l l.
Proof. intros i c Hc. eauto using ctx_evolves_refl. Qed.

Lemma runs_evolve_trans l1 l2 l3 :
  runs_evolve l1 l2 -> runs_evolve l2 l3 -> runs_evolve l1 l3.
Proof.
  intros H1 H2 i c Hc. destruct (H1 i c Hc) as (c' & Hc' & He).
  destruct (H2 i c' Hc') as (c'' & Hc'' & He'). eauto using ctx_evolves_trans.
Qed.

Lemma runs_evolve_update i f s :
  (forall c, ctx_evolves c (f c)) -> runs_evolve (runs s) (runs (update_run i f s)).
Proof.
  intros Hf j c Hc. rewrite runs_update_run.
  destruct (decide (i = j)); rewrite Hc; simpl; eauto using ctx_evolves_refl.
Qed.

Lemma runs_evolve_snoc l c : runs_evolve l (l ++ [c]).
Proof.
  intros i c' Hc. exists c'. split; [|apply ctx_evolves_refl].
  by apply lookup_app_l_Some.
Qed.

Lemma ctx_evolves_reject e c : ctx_evolves c (set_promise (reject e (promise c)) c).
Proof. split; simpl; try done. by destruct (promise c). Qed.

Lemma ctx_evolves_resolve r c : ctx_evolves c (set_promise (resolve r (promise c)) c).
Proof. split; simpl; try done. by destruct (promise c). Qed.

Lemma ctx_evolves_timer b c : ctx_evolves c (set_timerArmed b c).
Proof. by split. Qed.

Lemma errorHandler_runs_eq i opts e force s :
  runs (errorHandler i opts e force s).2 =
  match rejection (rejectOnError opts) (fun x => x) e with
  | Some e' => runs (update_run i (fun c => set_promise (reject e' (promise c)) c) s)
  | None => runs s
  end.
Proof.
  unfold errorHandler.
  set (s1 := with_obj _ s).
  assert (forall f, runs (update_run i f s1) = runs (update_run i f s)) as Hup
    by (intros f; subst s1; unfold update_run; simpl; destruct (runs s !! i); done).
  destruct (negb (stopped (obj s1))) eqn:Hst.
  - apply negb_true_iff in Hst.
    pose proof (stop_runs (Js.defaultParam (useForceStop opts) force) None s1) as Hr.
    pose proof (stop_live_default (Js.defaultParam (useForceStop opts) force) s1 Hst) as Hn.
    destruct (stop _ _ s1) as [[|e'] s2]; simpl in *; [|done].
    case_match; simpl; [|done].
    unfold update_run. rewrite Hr. destruct (runs s !! i); simpl; [done|exact Hr].
  - case_match; simpl; [|done]. by rewrite Hup.
Qed.

Lemma errorHandler_runs_evolve i opts e force s :
  runs_evolve (runs s) (runs (errorHandler i opts e force s).2).
Proof.
  rewrite errorHandler_runs_eq. case_match; [|apply runs_evolve_refl].
  apply runs_evolve_update. intros c. apply ctx_evolves_reject.
Qed.

Lemma run_keeps_earlier params spawn s j c :
  runs s !! j = Some c -> runs (run params spawn s) !! j = Some c.
Proof.
  intros Hj.
  assert (j < length (runs s)) as Hlt by eauto using lookup_lt_Some.
  unfold run. destruct (childProcess (obj s)); [by apply lookup_app_l_Some|].
  set (opts := withDefaults _). set (i := length (runs s)).
  assert (forall s', runs s' !! j = Some c ->
            runs (spawnPhase i opts spawn s') !! j = Some c) as Hphase.
  { intros s' Hs'. unfold spawnPhase. destruct spawn as [h|e].
    - unfold set_listeners. cbn [runs]. rewrite runs_update_run.
      rewrite decide_False by (subst i; lia). done.
    - set (s1 := emit _ s').
      pose proof (errorHandler_runs_eq i opts e None s1) as Hr.
      destruct (errorHandler i opts e None s1) as [[|e'] s2]; simpl in *.
      + rewrite Hr. case_match; [|done].
        rewrite runs_update_run, decide_False by (subst i; lia). done.
      + rewrite runs_update_run, decide_False by (subst i; lia).
        rewrite Hr. case_match; [|done].
        rewrite runs_update_run, decide_False by (subst i; lia). done. }
  assert (forall s0 : System, runs s0 = runs s ->
            (set_runs (runs s0 ++ [mkRunCtx opts Pending false false false]) s0).(runs) !! j
            = Some c) as Hsnoc
    by (intros s0 Hs0; simpl; rewrite Hs0; by apply lookup_app_l_Some).
  repeat case_match.
  - rewrite runs_update_run, decide_False by (subst i; lia). by apply Hsnoc.
  - apply Hphase. rewrite runs_update_run, decide_False by (subst i; lia).
    by apply Hsnoc.
  - apply Hphase. by apply Hsnoc.
Qed.

Lemma run_runs_evolve params spawn s :
  runs_evolve (runs s) (runs (run params spawn s)).
Proof.
  intros j c Hj. exists c. split; [|apply ctx_evolves_refl].
  by apply run_keeps_earlier.
Qed.

Lemma deliver_runs_evolve ev s : runs_evolve (runs s) (runs (deliver ev s)).
Proof.
  unfold deliver.
  destruct (listeners s) as [l|]; [|apply runs_evolve_refl].
  destruct (childProcess (obj s)) as [child|]; [|apply runs_evolve_refl].
  destruct (runs s !! owner l) as [c|]; [|apply runs_evolve_refl].
  destruct ev as [e|e|e|text|text|code sig|code sig];
    repeat case_match; try apply runs_evolve_refl;
    try (rewrite runs_uncaught; apply errorHandler_runs_evolve);
    try (rewrite runs_onData; apply runs_evolve_refl).
  - unfold closeListener. cbn [runs set_listeners].
    apply (runs_evolve_update _ _ (assign_processResult _ s)).
    intros c'. apply ctx_evolves_resolve.
  - unfold exitListener. cbn [runs set_listeners].
    set (r := makeResult _ _ _). set (s1 := assign_processResult r s).
    set (s2 := match code with Some _ => _ | None => _ end).
    assert (runs_evolve (runs s) (runs s2)) as H2.
    { subst s2. repeat case_match; try apply runs_evolve_refl.
      apply (runs_evolve_update _ _ s1). intros c'. apply ctx_evolves_reject. }
    eapply runs_evolve_trans; [exact H2|].
    repeat case_match; try apply runs_evolve_refl.
    apply runs_evolve_update. intros c'. apply ctx_evolves_resolve.
Qed.

Lemma microtasks_runs_evolve s : runs_evolve (runs s) (runs (microtasks s)).
Proof.
  unfold microtasks. case_match; [|apply runs_evolve_refl].
  intros i c Hc. cbn [runs set_runs]. rewrite list_lookup_fmap, Hc. simpl.
  eexists; split; [done|]. case_match; [|apply ctx_evolves_refl]. by split.
Qed.

Lemma step_runs_evolve st s : runs_evolve (runs s) (runs (step st s)).
Proof.
  destruct st as [params spawn|force sig|i err|ev|i e| |k b]; simpl.
  - apply run_runs_evolve.
  - rewrite runs_uncaught, stop_runs. apply runs_evolve_refl.
  - repeat case_match; try apply runs_evolve_refl.
    rewrite runs_uncaught. apply errorHandler_runs_evolve.
  - apply deliver_runs_evolve.
  - repeat case_match; try apply runs_evolve_refl.
    rewrite runs_uncaught.
    eapply runs_evolve_trans; [|apply errorHandler_runs_evolve].
    apply runs_evolve_update. intros c. apply ctx_evolves_timer.
  - apply microtasks_runs_evolve.
  - rewrite runs_poll. apply runs_evolve_refl.
Qed.

Lemma exec_app t1 t2 s : exec (t1 ++ t2) s = exec t2 (exec t1 s).
Proof. apply fold_left_app. Qed.

Lemma exec_runs_evolve steps s : runs_evolve (runs s) (runs (exec steps s)).
Proof.
  revert s. induction steps as [|st steps IH]; intros s; [apply runs_evolve_refl|].
  simpl. eapply runs_evolve_trans; [apply step_runs_evolve|apply IH].
Qed.

Lemma promise_final s steps i p :
  promiseOf i s = Some p ->
  settled p = true ->
  promiseOf i (exec steps s) = Some p.
Proof.
  unfold promiseOf. intros Hp Hs.
  destruct (runs s !! i) as [c|] eqn:Hc; [|done]. simpl in Hp. injection Hp as <-.
  destruct (exec_runs_evolve steps s i c Hc) as (c' & -> & [_ _ He]). simpl.
  by rewrite He.
Qed.

(** X11.  A promise of [run] that is resolved or rejected keeps that
    state and that value: no later step, and no step after those,
    settles it a second time. *)
Theorem settled_promise_is_final (s : System) (steps : list Step) (i : nat)
    (p : PromiseState) :
  promiseOf i s = Some p ->
  settled p = true ->
  promiseOf i (exec steps s) = Some p /\
  forall st, promiseOf i (step st (exec steps s)) = Some p.
Proof.
  intros Hp Hs. split; [by apply promise_final|].
  intros st. change (step st (exec steps s)) with (exec [st] (exec steps s)).
  rewrite <- exec_app. by apply promise_final.
Qed.

Lemma settled_promise_is_final_witness :
  let s := exec [CallRun noOptions (SpawnReturns child42); Emit (Exit (Some 0%Z) None);
                 Emit (Close (Some 0%Z) None)] echo in
  let p := Resolved (mkResult (Some 0%Z) None "" "" SigNull) in
  let steps := [Emit (ProcessError (MkError "late")); Microtasks;
                TimerRejected 0 (MkError "late")] in
  promiseOf 0 s = Some p /\
  settled p = true /\
  promiseOf 0 (exec steps s) = Some p /\
  forall st, promiseOf 0 (step st (exec steps s)) = Some p.
Proof.
  intros s p steps. split; [reflexivity|]. split; [reflexivity|].
  apply (settled_promise_is_final s steps 0 p); reflexivity.
Defined.

(** *** The data listeners *)

Lemma wired_runs i child opts s s' :
  wired i child opts s ->
  listeners s' = listeners s \/
    (exists l l', listeners s = Some l /\ listeners s' = Some l' /\ owner l' = owner l) ->
  childProcess (obj s') = childProcess (obj s) ->
  runs_evolve (runs s) (runs s') ->
  wired i child opts s'.
Proof.
  intros ((l & Hl & Ho) & Hc & (c & Hr & Hopt)) Hls Hch Hev.
  split_and!.
  - destruct Hls as [->|(l0 & l' & Hl0 & -> & Ho')]; [eauto|].
    exists l'. split; [done|]. congruence.
  - congruence.
  - destruct (Hev i c Hr) as (c' & Hc' & [Hm _ _]). exists c'. split; [done|congruence].
Qed.

Lemma intercepted_none l :
  Forall (fun e => isCallback e = false) l -> intercepted l = [].
Proof.
  intros H. apply filter_none. eapply Forall_impl; [exact H|].
  intros e He. by rewrite He.
Qed.

Lemma advance_quiet i child opts st s :
  wired i child opts s ->
  stdoutAdded child opts st = [] ->
  stderrAdded child opts st = [] ->
  callbackAdded child opts st = [] ->
  (listeners (step st s) = listeners s \/
    exists l l', listeners s = Some l /\ listeners (step st s) = Some l' /\
                 owner l' = owner l) ->
  stdoutChunks (obj (step st s)) = stdoutChunks (obj s) ->
  stderrChunks (obj (step st s)) = stderrChunks (obj s) ->
  (exists l, effects (step st s) = effects s ++ l /\
             Forall (fun e => isCallback e = false) l) ->
  advance i child opts st s (step st s).
Proof.
  intros Hw H1 H2 H3 Hl Ho He (l & Heq & Hall).
  split; rewrite ?H1, ?H2, ?H3, ?app_nil_r; try done.
  - eapply wired_runs; eauto using step_runs_evolve.
    destruct Hw as (_ & Hc & _).
    by rewrite (ev_child _ _ (evolves_step st s) child Hc).
  - rewrite Heq. unfold intercepted at 1. rewrite filter_app.
    fold (intercepted l). by rewrite (intercepted_none l Hall), app_nil_r.
Qed.

Lemma no_callback_outside_events st s :
  (forall ev, st <> Emit ev) ->
  exists l, effects (step st s) = effects s ++ l /\
            Forall (fun e => isCallback e = false) l.
Proof.
  intros Hne. destruct (appends_step st s) as (l & Heq & Hall).
  exists l. split; [done|]. eapply Forall_impl; [exact Hall|].
  intros [] Ha; simpl in *; try done. destruct Ha as [ev ->]. by destruct (Hne ev).
Qed.

Lemma chunks_outside_events st s :
  (forall ev, st <> Emit ev) ->
  stdoutChunks (obj (step st s)) = stdoutChunks (obj s) /\
  stderrChunks (obj (step st s)) = stderrChunks (obj s).
Proof.
  intros Hne. destruct st as [params spawn|force sig|i err|ev|i e| |k b]; simpl.
  - unfold run. destruct (childProcess (obj s)); [done|].
    assert (forall i opts s', obj s' = obj s ->
              stdoutChunks (obj (spawnPhase i opts spawn s')) = stdoutChunks (obj s) /\
              stderrChunks (obj (spawnPhase i opts spawn s')) = stderrChunks (obj s))
      as Hphase.
    { intros i opts s' Ho. unfold spawnPhase. destruct spawn as [h|e].
      - unfold set_listeners. cbn [obj]. rewrite obj_update_run. simpl. by rewrite Ho.
      - errorHandler_cases errorHandler_obj Hobj; simpl in Hobj;
          rewrite ?obj_update_run, Hobj; simpl; by rewrite Ho. }
    repeat case_match; rewrite ?obj_update_run; try done;
      apply Hphase; by rewrite ?obj_update_run.
  - by rewrite obj_uncaught, stop_obj.
  - repeat case_match; try done. by rewrite obj_uncaught, errorHandler_obj.
  - by destruct (Hne ev).
  - repeat case_match; try done. by rewrite obj_uncaught, errorHandler_obj, obj_update_run.
  - by rewrite obj_microtasks.
  - by rewrite obj_poll.
Qed.

Lemma listeners_poll k b s : listeners (poll k b s) = listeners s.
Proof. unfold poll, waitUntilPoll. repeat case_match; simplify_eq; done. Qed.

Lemma listeners_outside_events st s :
  (forall ev, st <> Emit ev) ->
  isMicrotasks st = false ->
  is_Some (childProcess (obj s)) ->
  listeners (step st s) = listeners s.
Proof.
  intros Hne Hm [h Hc].
  destruct st as [params spawn|force sig|i err|ev|i e| |k b]; simpl; try done.
  - unfold run. by rewrite Hc.
  - destruct (uncaught_frame (stop force sig s)) as [-> _]. apply stop_frame.
  - repeat case_match; try done.
    match goal with |- context [errorHandler ?a ?b ?c ?d ?x] =>
      destruct (uncaught_frame (errorHandler a b c d x)) as [-> _];
      apply (errorHandler_frame a b c d x) end.
  - by destruct (Hne ev).
  - repeat case_match; try done.
    match goal with |- context [errorHandler ?a ?b ?c ?d ?x] =>
      destruct (uncaught_frame (errorHandler a b c d x)) as [-> _];
      destruct (errorHandler_frame a b c d x) as [-> _] end.
    apply listeners_update_run.
  - apply listeners_poll.
Qed.

Lemma advance_outside_events i child opts st s :
  wired i child opts s ->
  isMicrotasks st = false ->
  (forall ev, st <> Emit ev) ->
  advance i child opts st s (step st s).
Proof.
  intros Hw Hm Hne.
  destruct (chunks_outside_events st s Hne) as [Ho He].
  apply advance_quiet;
    [exact Hw
    |by destruct st as [| | |ev| | |]; [..|destruct (Hne ev)|idtac|idtac|idtac]
    |by destruct st as [| | |ev| | |]; [..|destruct (Hne ev)|idtac|idtac|idtac]
    |by destruct st as [| | |ev| | |]; [..|destruct (Hne ev)|idtac|idtac|idtac]
    | |exact Ho|exact He|by apply no_callback_outside_events].
  left. apply listeners_outside_events; try done.
  destruct Hw as (_ & -> & _). eauto.
Qed.

Lemma advance_same i child opts st s :
  wired i child opts s ->
  step st s = s ->
  stdoutAdded child opts st = [] ->
  stderrAdded child opts st = [] ->
  callbackAdded child opts st = [] ->
  advance i child opts st s (step st s).
Proof.
  intros Hw Hs H1 H2 H3.
  apply advance_quiet; try done; rewrite Hs; eauto.
  exists []. by rewrite app_nil_r.
Qed.

Lemma advance_error i child opts ev e s :
  wired i child opts s ->
  step (Emit ev) s = uncaught (errorHandler i opts e None s) ->
  stdoutAdded child opts (Emit ev) = [] ->
  stderrAdded child opts (Emit ev) = [] ->
  callbackAdded child opts (Emit ev) = [] ->
  advance i child opts (Emit ev) s (step (Emit ev) s).
Proof.
  intros Hw Hs H1 H2 H3.
  apply advance_quiet; try done; rewrite Hs.
  - left. destruct (uncaught_frame (errorHandler i opts e None s)) as [-> _].
    apply errorHandler_frame.
  - by rewrite obj_uncaught, errorHandler_obj.
  - by rewrite obj_uncaught, errorHandler_obj.
  - rewrite uncaught_effects_eq, errorHandler_normal, errorHandler_effects_eq, app_nil_r.
    eexists; split; [done|]. repeat case_match; repeat constructor.
Qed.

Lemma advance_event i child opts ev s :
  wired i child opts s ->
  advance i child opts (Emit ev) s (step (Emit ev) s).
Proof.
  intros Hw.
  pose proof Hw as ((l & Hl & Ho) & Hc & (c & Hr & Hopt)).
  assert (step (Emit ev) s = deliver ev s) as Hstep by done.
  unfold deliver in Hstep. rewrite Hl, Hc, Ho, Hr, Hopt in Hstep.
  destruct ev as [e|e|e|text|text|code sig|code sig].
  - by apply (advance_error _ _ _ _ e).
  - destruct (h_stdout child) eqn:Hh;
      [by apply (advance_error _ _ _ _ e)|by apply advance_same].
  - destruct (h_stderr child) eqn:Hh;
      [by apply (advance_error _ _ _ _ e)|by apply advance_same].
  - destruct (h_stdout child) eqn:Hh.
    2: { apply advance_same; simpl; rewrite ?Hh; try done. by destruct (onStdout opts). }
    rewrite Hstep. split; simpl; rewrite ?Hh; simpl.
    + eapply wired_runs; [exact Hw| | |]; rewrite ?runs_onData, ?obj_onData.
      * left. destruct (onStdout opts), (Js.nullish (collect opts) false); done.
      * destruct (Js.nullish (collect opts) false); simpl; done.
      * destruct (Js.nullish (collect opts) false); apply runs_evolve_refl.
    + rewrite obj_onData. destruct (Js.nullish (collect opts) false); simpl;
        by rewrite ?app_nil_r.
    + rewrite obj_onData, app_nil_r. by destruct (Js.nullish (collect opts) false).
    + rewrite effects_onData_eq. unfold intercepted. rewrite filter_app.
      destruct (onStdout opts), (Js.nullish (collect opts) false); simpl;
        by rewrite ?app_nil_r.
  - destruct (h_stderr child) eqn:Hh.
    2: { apply advance_same; simpl; rewrite ?Hh; try done. by destruct (onStderr opts). }
    rewrite Hstep. split; simpl; rewrite ?Hh; simpl.
    + eapply wired_runs; [exact Hw| | |]; rewrite ?runs_onData, ?obj_onData.
      * left. destruct (onStderr opts), (Js.nullish (collect opts) false); done.
      * destruct (Js.nullish (collect opts) false); simpl; done.
      * destruct (Js.nullish (collect opts) false); apply runs_evolve_refl.
    + rewrite obj_onData, app_nil_r. by destruct (Js.nullish (collect opts) false).
    + rewrite obj_onData. destruct (Js.nullish (collect opts) false); simpl;
        by rewrite ?app_nil_r.
    + rewrite effects_onData_eq. unfold intercepted. rewrite filter_app.
      destruct (onStderr opts), (Js.nullish (collect opts) false); simpl;
        by rewrite ?app_nil_r.
  - destruct (onClose l) eqn:Hon; [|by apply advance_same].
    apply advance_quiet; try done; rewrite Hstep.
    + right. exists l, (mkListeners (owner l) false (onExit l)). by rewrite Hl.
    + by rewrite obj_closeListener.
    + by rewrite obj_closeListener.
    + exists []. by rewrite app_nil_r, effects_closeListener.
  - destruct (onExit l) eqn:Hon; [|by apply advance_same].
    apply advance_quiet; try done; rewrite Hstep.
    + right. exists l, (mkListeners (owner l) (onClose l) false). by rewrite Hl.
    + by rewrite obj_exitListener.
    + by rewrite obj_exitListener.
    + exists []. by rewrite app_nil_r, effects_exitListener.
Qed.

Lemma advance_step i child opts st s :
  wired i child opts s ->
  isMicrotasks st = false ->
  advance i child opts st s (step st s).
Proof.
  intros Hw Hm.
  assert ((exists ev, st = Emit ev) \/ (forall ev, st <> Emit ev))
    as [(ev & ->)|Hne] by (destruct st; eauto; right; intros; discriminate).
  - by apply advance_event.
  - by apply advance_outside_events.
Qed.

(** *** After cleanup *)

Lemma microtasks_listeners s :
  is_Some (childProcess (obj s)) ->
  listeners (microtasks s) = None \/ microtasks s = s.
Proof.
  intros [h Hc]. unfold microtasks. destruct (existsb needsCleanup (runs s)); [|by right].
  left. by rewrite Hc.
Qed.

Lemma step_cleanedUp st s :
  cleanedUp s ->
  cleanedUp (step st s) /\
  processResult (obj (step st s)) = processResult (obj s) /\
  resultWrites (step st s) = resultWrites s /\
  stdoutChunks (obj (step st s)) = stdoutChunks (obj s) /\
  stderrChunks (obj (step st s)) = stderrChunks (obj s) /\
  unresolving (runs s) (runs (step st s)).
Proof.
  intros [[h Hc] Hl].
  assert (is_Some (childProcess (obj (step st s)))) as Hc'
    by (rewrite (ev_child _ _ (evolves_step st s) h Hc); eauto).
  assert ((exists ev, st = Emit ev) \/ (forall ev, st <> Emit ev))
    as [(ev & ->)|Hne] by (destruct st; eauto; right; intros; discriminate).
  { simpl. unfold deliver. rewrite Hl. repeat split; eauto using unresolving_refl. }
  destruct (chunks_outside_events st s Hne) as [Ho He].
  assert (listeners (step st s) = None) as Hl'.
  { destruct (isMicrotasks st) eqn:Hm.
    - destruct st; try discriminate. simpl.
      destruct (microtasks_listeners s) as [H|H]; eauto. by rewrite H.
    - rewrite listeners_outside_events; eauto. }
  split_and!; try done.
  - destruct st as [params spawn|force sig|i err|ev|i e| |k b]; simpl.
    + apply run_result.
    + by rewrite obj_uncaught, stop_obj.
    + repeat case_match; try done. by rewrite obj_uncaught, errorHandler_obj.
    + by destruct (Hne ev).
    + repeat case_match; try done.
      by rewrite obj_uncaught, errorHandler_obj, obj_update_run.
    + by rewrite obj_microtasks.
    + by rewrite obj_poll.
  - destruct st as [params spawn|force sig|i err|ev|i e| |k b]; simpl.
    + unfold run. by rewrite Hc.
    + destruct (uncaught_frame (stop force sig s)) as [_ ->]. apply stop_frame.
    + repeat case_match; try done.
      match goal with |- context [errorHandler ?a ?b ?c ?d ?x] =>
        destruct (uncaught_frame (errorHandler a b c d x)) as [_ ->];
        apply (errorHandler_frame a b c d x) end.
    + by destruct (Hne ev).
    + repeat case_match; try done.
      match goal with |- context [errorHandler ?a ?b ?c ?d ?x] =>
        destruct (uncaught_frame (errorHandler a b c d x)) as [_ ->];
        destruct (errorHandler_frame a b c d x) as [_ ->] end.
      apply writes_update_run.
    + unfold microtasks. repeat case_match; done.
    + unfold poll, waitUntilPoll. repeat case_match; simplify_eq; done.
  - destruct st as [params spawn|force sig|i err|ev|i e| |k b]; simpl.
    + apply run_runs.
    + rewrite runs_uncaught, stop_runs. apply unresolving_refl.
    + repeat case_match; try apply unresolving_refl.
      rewrite runs_uncaught. apply errorHandler_runs.
    + by destruct (Hne ev).
    + repeat case_match; try apply unresolving_refl.
      rewrite runs_uncaught. eapply unresolving_trans; [|apply errorHandler_runs].
      by apply unresolving_update.
    + apply microtasks_runs.
    + rewrite runs_poll. apply unresolving_refl.
Qed.

Lemma listeners_stay_removed steps s :
  cleanedUp s -> listeners (exec steps s) = None.
Proof.
  revert s. induction steps as [|st steps IH]; intros s Hs; [by destruct Hs|].
  simpl. apply IH. by destruct (step_cleanedUp st s Hs).
Qed.

(** X12.  After [cleanup] (a handle is stored and all listeners are
    removed) the object is deaf: whatever steps follow, events of the
    child included, the listeners stay removed, [result()] and both
    buffers stay as they are, nothing is assigned to [processResult] and
    no promise is newly resolved. *)
Theorem nothing_is_produced_after_cleanup (s : System) (steps : list Step) :
  is_Some (childProcess (obj s)) ->
  listeners s = None ->
  let s' := exec steps s in
  listeners s' = None /\
  result (obj s') = result (obj s) /\
  resultWrites s' = resultWrites s /\
  stdoutChunks (obj s') = stdoutChunks (obj s) /\
  stderrChunks (obj s') = stderrChunks (obj s) /\
  (forall i r, promiseOf i s' = Some (Resolved r) -> promiseOf i s = Some (Resolved r)).
Proof.
  intros Hc Hl. assert (cleanedUp s) as Hs by done. clear Hc Hl.
  revert s Hs. induction steps as [|st steps IH]; intros s Hs s'.
  - by destruct Hs.
  - destruct (step_cleanedUp st s Hs) as (Hs1 & Hr & Hw & Ho & He & Hu).
    destruct (IH _ Hs1) as (Hl' & Hr' & Hw' & Ho' & He' & Hu').
    subst s'. simpl. unfold result in *.
    split_and!; try congruence.
    intros i r Hres. apply Hu, Hu', Hres.
Qed.

Lemma nothing_is_produced_after_cleanup_witness :
  let s := exec [CallRun noOptions (SpawnReturns child42);
                 Emit (ProcessError (MkError "EPIPE")); Emit (Close None None);
                 Microtasks] echo in
  let steps := [Emit (StdoutData "late"); Emit (Exit (Some 0%Z) None);
                Emit (Close (Some 0%Z) None); CallRun noOptions (SpawnReturns child42)] in
  is_Some (childProcess (obj s)) /\
  listeners s = None /\
  let s' := exec steps s in
  listeners s' = None /\
  result (obj s') = result (obj s) /\
  resultWrites s' = resultWrites s /\
  stdoutChunks (obj s') = stdoutChunks (obj s) /\
  stderrChunks (obj s') = stderrChunks (obj s) /\
  (forall i r, promiseOf i s' = Some (Resolved r) -> promiseOf i s = Some (Resolved r)).
Proof.
  intros s steps. split; [simpl; eauto|]. split; [reflexivity|].
  apply (nothing_is_produced_after_cleanup s steps); [simpl; eauto|reflexivity].
Defined.

Lemma exec_advance i child opts steps s :
  wired i child opts s ->
  is_Some (listeners (exec steps s)) ->
  stdoutChunks (obj (exec steps s)) =
    stdoutChunks (obj s) ++ flat_map (stdoutAdded child opts) steps /\
  stderrChunks (obj (exec steps s)) =
    stderrChunks (obj s) ++ flat_map (stderrAdded child opts) steps /\
  intercepted (effects (exec steps s)) =
    intercepted (effects s) ++ flat_map (callbackAdded child opts) steps.
Proof.
  revert s. induction steps as [|st steps IH]; intros s Hw Hend.
  - simpl. by rewrite !app_nil_r.
  - simpl in *.
    assert (is_Some (childProcess (obj s))) as Hc
      by (destruct Hw as (_ & -> & _); eauto).
    assert (is_Some (listeners (step st s))) as Hl.
    { destruct (listeners (step st s)) eqn:Hl; [eauto|].
      rewrite listeners_stay_removed in Hend; [by destruct Hend|].
      split; [|done]. destruct Hc as [h Hc].
      rewrite (ev_child _ _ (evolves_step st s) h Hc). eauto. }
    destruct (isMicrotasks st) eqn:Hm.
    + destruct st; try discriminate. simpl in *.
      destruct (microtasks_listeners s Hc) as [H|H].
      * rewrite H in Hl. by destruct Hl.
      * rewrite H in *. destruct (IH s Hw Hend) as (-> & -> & ->). done.
    + destruct (advance_step i child opts st s Hw Hm) as [Hw' Ho He Hcb].
      destruct (IH _ Hw' Hend) as (-> & -> & ->).
      rewrite Ho, He, Hcb, <- !app_assoc. done.
Qed.

(** X5.  With collection on and both streams piped, as long as the
    listeners are still registered at the end, the buffers have grown by
    exactly the texts of the data events delivered, each stream in
    arrival order, whatever other steps (errors, stops, exit, polls) came
    in between. *)
Theorem output_is_collected_in_arrival_order (s : System) (l : Listeners)
    (child : Handle) (c : RunCtx) (steps : list Step) :
  listeners s = Some l ->
  childProcess (obj s) = Some child ->
  runs s !! owner l = Some c ->
  collect (mergedOptions c) = Some true ->
  h_stdout child = true ->
  h_stderr child = true ->
  is_Some (listeners (exec steps s)) ->
  stdoutChunks (obj (exec steps s)) = stdoutChunks (obj s) ++ stdoutTexts steps /\
  stderrChunks (obj (exec steps s)) = stderrChunks (obj s) ++ stderrTexts steps.
Proof.
  intros Hl Hc Hr Hcol Hout Herr Hend.
  destruct (exec_advance (owner l) child (mergedOptions c) steps s) as (-> & -> & _);
    [split_and!; eauto| done |].
  assert (flat_map (stdoutAdded child (mergedOptions c)) steps = stdoutTexts steps) as ->.
  { clear Hend. induction steps as [|st steps IH]; [done|]. simpl. rewrite IH.
    unfold stdoutTexts. simpl.
    destruct st as [| | |[]| | |]; simpl; try done. by rewrite Hout, Hcol. }
  assert (flat_map (stderrAdded child (mergedOptions c)) steps = stderrTexts steps) as ->.
  { clear Hend. induction steps as [|st steps IH]; [done|]. simpl. rewrite IH.
    unfold stderrTexts. simpl.
    destruct st as [| | |[]| | |]; simpl; try done. by rewrite Herr, Hcol. }
  done.
Qed.

Lemma output_is_collected_in_arrival_order_witness :
  let s := run noOptions (SpawnReturns child42) echo in
  let l := mkListeners 0 true true in
  let c := mkRunCtx (withDefaults noOptions) Pending false true false in
  let steps := [Emit (StdoutData "a"); Emit (StderrData "x");
                Emit (Exit (Some 0%Z) None); Emit (StdoutData "b")] in
  listeners s = Some l /\
  childProcess (obj s) = Some child42 /\
  runs s !! owner l = Some c /\
  collect (mergedOptions c) = Some true /\
  h_stdout child42 = true /\
  h_stderr child42 = true /\
  is_Some (listeners (exec steps s)) /\
  stdoutChunks (obj (exec steps s)) = stdoutChunks (obj s) ++ stdoutTexts steps /\
  stderrChunks (obj (exec steps s)) = stderrChunks (obj s) ++ stderrTexts steps.
Proof.
  intros s l c steps.
  split; [reflexivity|]. split; [reflexivity|]. split; [reflexivity|].
  split; [reflexivity|]. split; [reflexivity|]. split; [reflexivity|].
  split; [simpl; eauto|].
  apply (output_is_collected_in_arrival_order s l child42 c steps);
    try reflexivity. simpl. eauto.
Defined.

(** X6.  With both callbacks given and both streams piped, as long as the
    listeners are still registered at the end, [onStdout] and [onStderr]
    were called once per data event, with its text, in the order of
    arrival across the two streams, and by no other step; [collect] plays
    no role. *)
Theorem callbacks_see_every_chunk (s : System) (l : Listeners) (child : Handle)
    (c : RunCtx) (out err : Callback) (steps : list Step) :
  listeners s = Some l ->
  childProcess (obj s) = Some child ->
  runs s !! owner l = Some c ->
  onStdout (mergedOptions c) = Some out ->
  onStderr (mergedOptions c) = Some err ->
  h_stdout child = true ->
  h_stderr child = true ->
  is_Some (listeners (exec steps s)) ->
  intercepted (effects (exec steps s)) =
    intercepted (effects s) ++ callsFor out err steps.
Proof.
  intros Hl Hc Hr Ho He Hout Herr Hend.
  destruct (exec_advance (owner l) child (mergedOptions c) steps s) as (_ & _ & ->);
    [split_and!; eauto| done |].
  f_equal. clear Hend. induction steps as [|st steps IH]; [done|]. simpl. rewrite IH.
  unfold callsFor. simpl.
  destruct st as [| | |[]| | |]; simpl; try done.
  - by rewrite Ho, Hout.
  - by rewrite He, Herr.
Qed.

Lemma callbacks_see_every_chunk_witness :
  let params := mkOptions
      Js.Absent (Js.Value false) Js.Absent Js.Absent Js.Absent Js.Absent
      Js.Absent (Js.Value 1) (Js.Value 2) Js.Absent in
  let s := run params (SpawnReturns child42) echo in
  let l := mkListeners 0 true true in
  let c := mkRunCtx (withDefaults params) Pending false true false in
  let steps := [Emit (StdoutData "a"); Emit (StderrData "x");
                Emit (ProcessError (MkError "EPIPE")); Emit (StdoutData "b")] in
  listeners s = Some l /\
  childProcess (obj s) = Some child42 /\
  runs s !! owner l = Some c /\
  onStdout (mergedOptions c) = Some 1 /\
  onStderr (mergedOptions c) = Some 2 /\
  h_stdout child42 = true /\
  h_stderr child42 = true /\
  is_Some (listeners (exec steps s)) /\
  intercepted (effects (exec steps s)) =
    intercepted (effects s) ++ callsFor 1 2 steps.
Proof.
  intros params s l c steps.
  split; [reflexivity|]. split; [reflexivity|]. split; [reflexivity|].
  split; [reflexivity|]. split; [reflexivity|]. split; [reflexivity|].
  split; [reflexivity|]. split; [simpl; eauto|].
  apply (callbacks_see_every_chunk s l child42 c 1 2 steps);
    try reflexivity. simpl. eauto.
Defined.

(** *** Output that is not collected *)

Lemma silent_step i child opts st s :
  collect opts = Some false ->
  (wired i child opts s \/ cleanedUp s) ->
  (wired i child opts (step st s) \/ cleanedUp (step st s)) /\
  stdoutChunks (obj (step st s)) = stdoutChunks (obj s) /\
  stderrChunks (obj (step st s)) = stderrChunks (obj s).
Proof.
  intros Hcol [Hw|Hc].
  - destruct (isMicrotasks st) eqn:Hm.
    + destruct st; try discriminate. simpl. rewrite obj_microtasks.
      split; [|done].
      assert (is_Some (childProcess (obj s))) as Hc
        by (destruct Hw as (_ & -> & _); eauto).
      destruct (microtasks_listeners s Hc) as [H|H].
      * right. split; [by rewrite obj_microtasks|done].
      * left. by rewrite H.
    + destruct (advance_step i child opts st s Hw Hm) as [Hw' Ho He _].
      split; [by left|].
      rewrite Ho, He.
      destruct st as [| | |[]| | |]; simpl; rewrite ?Hcol, ?andb_false_r, ?app_nil_r; done.
  - destruct (step_cleanedUp st s Hc) as (Hc' & _ & _ & Ho & He & _).
    split; [by right|done].
Qed.

(** X7.  When [collect] reads false in the merged options (an own
    [collect] property of the options given to [run] wins over the one
    given at construction, also when its value is undefined), a first
    [run] that spawns never stores a chunk: after any steps both buffers
    are empty, and every result made from the object has empty [stdout]
    and [stderr]. *)
Theorem uncollected_output_stays_empty (cmd : string) (argv : list string)
    (base params : ChildProcessOptions) (h : Handle) (steps : list Step) :
  collect (merge base params) = Some false ->
  (forall t, timeout (merge base params) = Some t -> completed t = false) ->
  let s := exec steps (run params (SpawnReturns h) (boot (constructor cmd argv base))) in
  stdoutChunks (obj s) = [] /\
  stderrChunks (obj s) = [] /\
  forall code sig,
    stdout (makeResult (obj s) code sig) = "" /\
    stderr (makeResult (obj s) code sig) = "".
Proof.
  intros Hcol Htok s.
  set (s0 := boot (constructor cmd argv base)) in *.
  set (opts := withDefaults (merge (options (obj s0)) params)).
  assert (collect opts = Some false) as Hopts.
  { change (collect opts) with (Some (Js.nullish (collect (merge base params)) true)).
    by rewrite Hcol. }
  assert (wired 0 h opts (run params (SpawnReturns h) s0)) as Hw.
  { rewrite (run_spawned params h s0) by done. split_and!; simpl; eauto. }
  assert (stdoutChunks (obj (run params (SpawnReturns h) s0)) = [] /\
          stderrChunks (obj (run params (SpawnReturns h) s0)) = []) as Hempty
    by (by rewrite (run_spawned params h s0)).
  assert (stdoutChunks (obj s) = [] /\ stderrChunks (obj s) = []) as [Ho He].
  { subst s. generalize dependent (run params (SpawnReturns h) s0). intros s1 Hw.
    assert (wired 0 h opts s1 \/ cleanedUp s1) as Hs by (by left). clear Hw.
    revert s1 Hs. induction steps as [|st steps IH]; intros s1 Hs Hempty; [done|].
    simpl. destruct (silent_step 0 h opts st s1 Hopts Hs) as (Hs' & Ho & He).
    apply IH; [done|]. by rewrite Ho, He. }
  split_and!; try done. intros code sig. unfold makeResult. simpl.
  by rewrite Ho, He.
Qed.

Lemma uncollected_output_stays_empty_witness :
  let base := mkOptions
      Js.Absent (Js.Value true) Js.Absent Js.Absent Js.Absent Js.Absent
      Js.Absent Js.Absent Js.Absent Js.Absent in
  let params := mkOptions
      Js.Absent (Js.Value false) Js.Absent Js.Absent Js.Absent Js.Absent
      Js.Absent Js.Absent Js.Absent Js.Absent in
  let cleared := mkOptions
      Js.Absent Js.Undefined Js.Absent Js.Absent Js.Absent Js.Absent
      Js.Absent Js.Absent Js.Absent Js.Absent in
  let steps := [Emit (StdoutData "a"); Emit (StderrData "x");
                Emit (Exit (Some 0%Z) None); Emit (Close (Some 0%Z) None)] in
  collect (merge base params) = Some false /\
  collect (merge params cleared) = None /\
  (forall t, timeout (merge base params) = Some t -> completed t = false) /\
  let s := exec steps (run params (SpawnReturns child42)
                         (boot (constructor "echo" ["hello"] base))) in
  stdoutChunks (obj s) = [] /\
  stderrChunks (obj s) = [] /\
  forall code sig,
    stdout (makeResult (obj s) code sig) = "" /\
    stderr (makeResult (obj s) code sig) = "".
Proof.
  intros base params cleared steps.
  split; [reflexivity|]. split; [reflexivity|]. split; [intros t Ht; discriminate Ht|].
  apply (uncollected_output_stays_empty "echo" ["hello"] base params child42 steps);
    [reflexivity|intros t Ht; discriminate Ht].
Defined.

(** An own property whose value is undefined overrides too:
    [new ChildProcess(cmd, args, {collect: false}).run({collect: undefined})]
    collects, by the default. *)
Lemma undefined_collect_restores_the_default :
  let base := mkOptions
      Js.Absent (Js.Value false) Js.Absent Js.Absent Js.Absent Js.Absent
      Js.Absent Js.Absent Js.Absent Js.Absent in
  let params := mkOptions
      Js.Absent Js.Undefined Js.Absent Js.Absent Js.Absent Js.Absent
      Js.Absent Js.Absent Js.Absent Js.Absent in
  let steps := [CallRun params (SpawnReturns child42);
                Emit (StdoutData "a"); Emit (StdoutData "b");
                Emit (Exit (Some 0%Z) None); Emit (Close (Some 0%Z) None)] in
  let s := exec steps (boot (constructor "echo" ["hello"] base)) in
  collect (merge base params) = None /\
  stdoutChunks (obj s) = ["a"; "b"] /\
  promiseOf 0 s = Some (Resolved (mkResult (Some 0%Z) None "a,b" "" SigNull)).
Proof. vm_compute. split_and!; reflexivity. Qed.

(** X10.  The exit listener of a pending run caches a result (null code
    as -1, null signal as undefined).  A null or zero code never
    rejects: the promise resolves with that result at once exactly when
    [waitForStreams] is false and stays pending otherwise.  A non-zero
    code rejects only under [rejectOnExit]: with the non-zero-code error
    for [true], with [f code] for a function [f]; the rejection survives
    every later step, a later close or the resolve of the same listener
    included. *)
Theorem exit_rejects_only_nonzero_code (s : System) (l : Listeners) (child : Handle)
    (c : RunCtx) (code : option Z) (signal : option string) (steps : list Step) :
  listeners s = Some l ->
  childProcess (obj s) = Some child ->
  runs s !! owner l = Some c ->
  onExit l = true ->
  promise c = Pending ->
  let s' := step (Emit (Exit code signal)) s in
  let r := makeResult (obj s) (Some (exitCodeOrSentinel code)) (signalOrUndefined signal) in
  result (obj s') = Some r /\
  match code with
  | None | Some 0%Z =>
      promiseOf (owner l) s' = Some (settledAtExit (mergedOptions c) r)
  | Some n =>
      match rejectOnExit (mergedOptions c) with
      | Some (RejectFlag true) =>
          promiseOf (owner l) (exec steps s') = Some (Rejected (nonZeroExit n))
      | Some (RejectWith f) =>
          promiseOf (owner l) (exec steps s') = Some (Rejected (f n))
      | Some (RejectFlag false) | None =>
          promiseOf (owner l) s' = Some (settledAtExit (mergedOptions c) r)
      end
  end.
Proof.
  intros Hl Hc Hr Ho Hp s' r.
  destruct (deliver_exit s l child c code signal Hl Hc Hr Ho) as (Hobj & Hprom & _).
  fold r in Hobj, Hprom. change (deliver (Exit code signal) s) with s' in Hobj, Hprom.
  split; [unfold result; by rewrite Hobj|].
  unfold promiseAfterExit in Hprom. rewrite Hp in Hprom. unfold settledAtExit.
  destruct code as [n|]; [|by destruct (waitForStreams _) as [[]|]].
  destruct (Z.eqb_spec n 0) as [->|Hn]; [by destruct (waitForStreams _) as [[]|]|].
  assert (match n with 0%Z => False | _ => True end) as Hn' by (by destruct n).
  destruct (rejectOnExit (mergedOptions c)) as [[[]|f]|]; simpl in Hprom.
  - assert (promiseOf (owner l) s' = Some (Rejected (nonZeroExit n))) as Hrej
      by (by destruct (waitForStreams _) as [[]|]).
    destruct n; try done; by apply promise_final.
  - destruct n; try done; by destruct (waitForStreams _) as [[]|].
  - assert (promiseOf (owner l) s' = Some (Rejected (f n))) as Hrej
      by (by destruct (waitForStreams _) as [[]|]).
    destruct n; try done; by apply promise_final.
  - destruct n; try done; by destruct (waitForStreams _) as [[]|].
Qed.

Lemma exit_rejects_only_nonzero_code_witness :
  let params := mkOptions
      Js.Absent Js.Absent Js.Absent Js.Absent Js.Absent
      (Js.Value (RejectFlag true)) Js.Absent Js.Absent Js.Absent Js.Absent in
  let s := run params (SpawnReturns child42) echo in
  let l := mkListeners 0 true true in
  let c := mkRunCtx (withDefaults params) Pending false true false in
  let s' := step (Emit (Exit None (Some "SIGKILL"))) s in
  listeners s = Some l /\
  childProcess (obj s) = Some child42 /\
  runs s !! owner l = Some c /\
  onExit l = true /\
  promise c = Pending /\
  result (obj s') = Some (mkResult (Some (-1)%Z) None "" "" (SigName "SIGKILL")) /\
  promiseOf (owner l) s' = Some Pending.
Proof.
  intros params s l c s'.
  split; [reflexivity|]. split; [reflexivity|]. split; [reflexivity|].
  split; [reflexivity|]. split; [reflexivity|].
  apply (exit_rejects_only_nonzero_code s l child42 c None (Some "SIGKILL") []);
    reflexivity.
Defined.



(** *** Before a handle is stored *)

Lemma step_keeps_unstarted st s :
  returnsHandle st = false ->
  childProcess (obj s) = None ->
  childProcess (obj (step st s)) = None.
Proof.
  intros Hst Hc. destruct st as [params spawn|force sig|i err|ev|i e| |k b]; simpl.
  - destruct spawn as [h|e]; [done|].
    unfold run. rewrite Hc.
    assert (forall i opts s', childProcess (obj s') = None ->
              childProcess (obj (spawnPhase i opts (SpawnThrows e) s')) = None) as Hphase.
    { intros i opts s' Hs'. unfold spawnPhase.
      errorHandler_cases errorHandler_obj Hobj; simpl in Hobj;
        rewrite ?obj_update_run, Hobj; done. }
    repeat case_match; rewrite ?obj_update_run; try done;
      apply Hphase; by rewrite ?obj_update_run.
  - by rewrite obj_uncaught, stop_obj.
  - repeat case_match; try done. by rewrite obj_uncaught, errorHandler_obj.
  - unfold deliver. rewrite Hc. by destruct (listeners s).
  - repeat case_match; try done. by rewrite obj_uncaught, errorHandler_obj, obj_update_run.
  - by rewrite obj_microtasks.
  - by rewrite obj_poll.
Qed.

Lemma step_keeps_no_result st s :
  childProcess (obj s) = None ->
  processResult (obj (step st s)) = processResult (obj s).
Proof.
  intros Hc. destruct st as [params spawn|force sig|i err|ev|i e| |k b]; simpl.
  - apply run_result.
  - by rewrite obj_uncaught, stop_obj.
  - repeat case_match; try done. by rewrite obj_uncaught, errorHandler_obj.
  - unfold deliver. rewrite Hc. by destruct (listeners s).
  - repeat case_match; try done.
    by rewrite obj_uncaught, errorHandler_obj, obj_update_run.
  - by rewrite obj_microtasks.
  - by rewrite obj_poll.
Qed.

Lemma exec_keeps_unstarted steps s :
  forallb (fun st => negb (returnsHandle st)) steps = true ->
  childProcess (obj s) = None ->
  processResult (obj s) = None ->
  childProcess (obj (exec steps s)) = None /\
  processResult (obj (exec steps s)) = None.
Proof.
  revert s. induction steps as [|st steps IH]; intros s Hsteps Hc Hr; [done|].
  simpl in *. apply andb_true_iff in Hsteps as [Hst Hsteps].
  apply negb_true_iff in Hst. apply IH; try done.
  - by apply step_keeps_unstarted.
  - by rewrite step_keeps_no_result.
Qed.

(** X2.  As long as no call of [spawn] has returned a handle (no [run]
    yet, or only runs whose [spawn] threw), [stop] returns without any
    effect whatever its arguments, no signal has been sent, [stopped] is
    false, [result()] is undefined, [pid()] is -1 and [toString()] reads
    [(not started) [command args]]. *)
Theorem stop_before_start_does_nothing (cmd : string) (argv : list string)
    (base : ChildProcessOptions) (steps : list Step) (force : option bool)
    (signal : option string) :
  forallb (fun st => negb (returnsHandle st)) steps = true ->
  let s := exec steps (boot (constructor cmd argv base)) in
  stop force signal s = (Normal, s) /\
  signalsSent (effects s) = [] /\
  stopped (obj s) = false /\
  result (obj s) = None /\
  pid (obj s) = (-1)%Z /\
  toString (obj s) = "(not started) [" +:+ cmd +:+ " " +:+ Js.join argv (Some " ") +:+ "]".
Proof.
  intros Hsteps s. set (s0 := boot (constructor cmd argv base)) in *.
  destruct (exec_keeps_unstarted steps s0 Hsteps) as [Hc Hr]; try done.
  fold s in Hc, Hr.
  pose proof (ev_command _ _ (evolves_exec steps s0)) as Hcmd.
  pose proof (ev_args _ _ (evolves_exec steps s0)) as Harg.
  fold s in Hcmd, Harg. simpl in Hcmd, Harg.
  destruct (exec_targeted steps s0 (boot_targeted _)) as [Hk _]. fold s in Hk.
  unfold stop, stopped, result, pid, toString. rewrite Hc, Hr, Hcmd, Harg. simpl.
  split_and!; try done.
  - apply filter_none, Forall_forall. intros [] Hin; simpl; try done.
    apply Hk in Hin. congruence.
  - unfold pid. by rewrite Hc.
Qed.

Lemma stop_before_start_does_nothing_witness :
  let steps := [CallStop (Some true) None; CallRun noOptions (SpawnThrows enoent);
                Emit (Close None None); Poll 0 false; Microtasks] in
  let s := exec steps (boot (constructor "echo" ["hello"] noOptions)) in
  forallb (fun st => negb (returnsHandle st)) steps = true /\
  stop (Some true) (Some "SIGHUP") s = (Normal, s) /\
  signalsSent (effects s) = [] /\
  stopped (obj s) = false /\
  result (obj s) = None /\
  pid (obj s) = (-1)%Z /\
  toString (obj s) = "(not started) [" +:+ "echo" +:+ " " +:+ Js.join ["hello"] (Some " ") +:+ "]".
Proof.
  intros steps s. split; [reflexivity|].
  apply (stop_before_start_does_nothing "echo" ["hello"] noOptions steps). reflexivity.
Defined.

(** *** A run whose spawn threw *)

Lemma neverRejects_rejection opts e :
  neverRejects opts -> rejection (rejectOnError opts) (fun x => x) e = None.
Proof. by intros [->| ->]. Qed.

Lemma errorHandler_lookup_other i j opts e force s :
  i <> j -> runs (errorHandler i opts e force s).2 !! j = runs s !! j.
Proof.
  intros Hne. rewrite errorHandler_runs_eq. case_match; [|done].
  by rewrite runs_update_run, decide_False.
Qed.

Lemma deliver_lookup_other ev s i :
  (forall l, listeners s = Some l -> owner l <> i) ->
  runs (deliver ev s) !! i = runs s !! i.
Proof.
  intros Hown. unfold deliver.
  destruct (listeners s) as [l|]; [|done]. specialize (Hown l eq_refl).
  destruct (childProcess (obj s)) as [child|]; [|done].
  destruct (runs s !! owner l) as [c|]; [|done].
  destruct ev as [e|e|e|text|text|code sig|code sig];
    repeat case_match; try done;
    try (rewrite runs_uncaught; by apply errorHandler_lookup_other);
    try (by rewrite runs_onData).
  - unfold closeListener. cbn [runs set_listeners].
    by rewrite runs_update_run, decide_False.
  - unfold exitListener. cbn [runs set_listeners].
    repeat case_match; rewrite ?runs_update_run, ?decide_False by done;
      simpl; rewrite ?runs_update_run, ?decide_False by done; done.
Qed.

Lemma run_listeners params spawn s :
  listeners (run params spawn s) = listeners s \/
  listeners (run params spawn s) = Some (mkListeners (length (runs s)) true true).
Proof.
  unfold run. destruct (childProcess (obj s)); [by left|].
  assert (forall i opts s', listeners s' = listeners s ->
            listeners (spawnPhase i opts spawn s') = listeners s \/
            listeners (spawnPhase i opts spawn s') = Some (mkListeners i true true))
    as Hphase.
  { intros i opts s' Hs'. unfold spawnPhase. destruct spawn as [h|e]; [by right|].
    left. set (s1 := emit _ s').
    destruct (errorHandler_frame i opts e None s1) as [Hl _].
    destruct (errorHandler i opts e None s1) as [[|e'] s2]; simpl in *;
      by rewrite ?listeners_update_run, Hl. }
  repeat case_match; rewrite ?listeners_update_run; try (by left);
    apply Hphase; by rewrite ?listeners_update_run.
Qed.

Lemma step_owner st s l' :
  listeners (step st s) = Some l' ->
  (exists l, listeners s = Some l /\ owner l' = owner l) \/
  owner l' = length (runs s).
Proof.
  destruct st as [params spawn|force sig|i err|ev|i e| |k b]; simpl.
  - destruct (run_listeners params spawn s) as [->| ->]; [eauto|].
    intros [= <-]. by right.
  - destruct (uncaught_frame (stop force sig s)) as [-> _].
    destruct (stop_frame force sig s) as [-> _]. eauto.
  - repeat case_match; eauto.
    match goal with |- context [errorHandler ?a ?b ?c ?d ?x] =>
      destruct (uncaught_frame (errorHandler a b c d x)) as [-> _];
      destruct (errorHandler_frame a b c d x) as [-> _] end. eauto.
  - unfold deliver.
    destruct (listeners s) as [l|] eqn:Hl; [|intros Hd; congruence].
    assert (listeners s = Some l' -> (exists l0, Some l = Some l0 /\ owner l' = owner l0) \/
              owner l' = length (runs s)) as Hsame
      by (intros Hd; rewrite Hl in Hd; injection Hd as <-; eauto).
    destruct (childProcess (obj s)) as [child|]; [|done].
    destruct (runs s !! owner l) as [c|]; [|done].
    destruct ev as [e|e|e|text|text|code sig|code sig];
      repeat case_match; try done.
    all: try (match goal with |- context [errorHandler ?a ?b ?c ?d ?x] =>
      destruct (uncaught_frame (errorHandler a b c d x)) as [-> _];
      destruct (errorHandler_frame a b c d x) as [-> _] end; done).
    all: try (by destruct (onStdout (mergedOptions c))).
    all: try (by destruct (onStderr (mergedOptions c))).
    + intros Hd. unfold closeListener in Hd. cbn [listeners set_listeners] in Hd.
      injection Hd as Hd. subst l'. simpl. eauto.
    + intros Hd. unfold exitListener in Hd. cbn [listeners set_listeners] in Hd.
      injection Hd as Hd. subst l'. simpl. eauto.
  - repeat case_match; eauto.
    match goal with |- context [errorHandler ?a ?b ?c ?d ?x] =>
      destruct (uncaught_frame (errorHandler a b c d x)) as [-> _];
      destruct (errorHandler_frame a b c d x) as [-> _] end.
    rewrite listeners_update_run. eauto.
  - unfold microtasks. repeat case_match; simpl; try done; eauto.
  - rewrite listeners_poll. eauto.
Qed.

Lemma step_stranded st s i : stranded i s -> stranded i (step st s).
Proof.
  intros [(c & Hc & Hp & Hsp & Hnr) Hown].
  assert (i < length (runs s)) as Hlt by eauto using lookup_lt_Some.
  split.
  2: { intros l' Hl'. destruct (step_owner st s l' Hl') as [(l & Hl & ->)| ->]; [eauto|lia]. }
  assert (runs (step st s) !! i = Some c \/
          runs (step st s) !! i = Some (set_timerArmed false c)) as [H|H];
    [|eauto 10 | exists (set_timerArmed false c); eauto 10].
  destruct st as [params spawn|force sig|j err|ev|j e| |k b]; simpl.
  - left. by apply run_keeps_earlier.
  - left. by rewrite runs_uncaught, stop_runs.
  - left. destruct (decide (j = i)) as [->|Hne].
    + by rewrite Hc, Hsp.
    + repeat case_match; try done.
      by rewrite runs_uncaught, errorHandler_lookup_other.
  - left. by rewrite deliver_lookup_other.
  - destruct (decide (j = i)) as [->|Hne].
    + rewrite Hc. destruct (timerArmed c); [|by left]. right.
      rewrite runs_uncaught, errorHandler_runs_eq, neverRejects_rejection by done.
      by rewrite runs_update_run, decide_True, Hc.
    + left. repeat case_match; try done.
      rewrite runs_uncaught, errorHandler_lookup_other by done.
      by rewrite runs_update_run, decide_False.
  - left. unfold microtasks. case_match; [|done]. cbn [runs set_runs].
    rewrite list_lookup_fmap, Hc. simpl. unfold needsCleanup. by rewrite Hp.
  - left. by rewrite runs_poll.
Qed.

Lemma exec_stranded steps s i : stranded i s -> stranded i (exec steps s).
Proof.
  revert s. induction steps as [|st steps IH]; intros s Hs; [done|].
  simpl. by apply IH, step_stranded.
Qed.

(** X4.  A [run] whose [spawn] throws, with [rejectOnError] unset or
    false and no completed token, records the thrown error and returns a
    promise that nothing settles: it is still pending after any sequence
    of later steps. *)
Theorem thrown_spawn_leaves_run_pending (s : System) (params : ChildProcessOptions)
    (e : Error) (steps : list Step) :
  childProcess (obj s) = None ->
  listeners s = None ->
  neverRejects (merge (options (obj s)) params) ->
  (forall t, timeout (merge (options (obj s)) params) = Some t -> completed t = false) ->
  let s1 := run params (SpawnThrows e) s in
  processErrors (obj s1) = processErrors (obj s) ++ [e] /\
  promiseOf (length (runs s)) (exec steps s1) = Some Pending.
Proof.
  intros Hc Hl Hnr Htok s1.
  assert (s1 = _) as Hs1
    by (apply (run_thrown params e s Hc Htok); by apply neverRejects_rejection).
  split; [by rewrite Hs1|].
  assert (stranded (length (runs s)) s1) as Hst.
  { rewrite Hs1. split; simpl.
    - eexists. split; [by rewrite lookup_app_r, Nat.sub_diag by lia|]. done.
    - intros l. by rewrite Hl. }
  destruct (exec_stranded steps s1 _ Hst) as [(c & Hr & Hp & _) _].
  unfold promiseOf. by rewrite Hr, <- Hp.
Qed.

Lemma thrown_spawn_leaves_run_pending_witness :
  let steps := [TimerRejected 0 (MkError "expired"); CallStop (Some true) None; Microtasks;
                CallRun noOptions (SpawnReturns child42); Emit (Exit (Some 0%Z) None);
                Emit (Close (Some 0%Z) None); Microtasks] in
  let s1 := run noOptions (SpawnThrows enoent) echo in
  childProcess (obj echo) = None /\
  listeners echo = None /\
  neverRejects (merge (options (obj echo)) noOptions) /\
  (forall t, timeout (merge (options (obj echo)) noOptions) = Some t -> completed t = false) /\
  processErrors (obj s1) = processErrors (obj echo) ++ [enoent] /\
  promiseOf (length (runs echo)) (exec steps s1) = Some Pending.
Proof.
  intros steps s1.
  split; [reflexivity|]. split; [reflexivity|]. split; [left; reflexivity|].
  split; [intros t Ht; discriminate Ht|].
  apply (thrown_spawn_leaves_run_pending echo noOptions enoent steps);
    [reflexivity|reflexivity|left; reflexivity|intros t Ht; discriminate Ht].
Defined.

(** *** Trimming *)

Lemma append_cons c s1 s2 : String c s1 +:+ s2 = String c (s1 +:+ s2).
Proof. reflexivity. Qed.

Lemma append_nil s : "" +:+ s = s.
Proof. reflexivity. Qed.

Lemma app_empty_r s : s +:+ "" = s.
Proof. induction s as [|a s IH]; [done|]. by rewrite append_cons, IH. Qed.

Lemma rev_app_append s1 s2 s3 :
  String.rev_app s1 s2 +:+ s3 = String.rev_app s1 (s2 +:+ s3).
Proof.
  revert s2. induction s1 as [|a s1 IH]; intros s2; simpl; [done|].
  by rewrite IH, append_cons.
Qed.

Lemma rev_app_rev_app s1 s2 s3 :
  String.rev_app (String.rev_app s1 s2) s3 = String.rev_app s2 (s1 +:+ s3).
Proof.
  revert s2. induction s1 as [|a s1 IH]; intros s2; simpl; [done|].
  by rewrite IH, append_cons.
Qed.

Lemma rev_rev s : String.rev (String.rev s) = s.
Proof. unfold String.rev. rewrite rev_app_rev_app. simpl. apply app_empty_r. Qed.

Lemma rev_app_of_append x y z :
  String.rev_app (x +:+ y) z = String.rev_app y (String.rev_app x z).
Proof.
  revert z. induction x as [|a x IH]; intros z; [done|].
  rewrite append_cons. simpl. by rewrite IH.
Qed.

Lemma rev_cons c rest : String.rev (String c rest) = String.rev rest +:+ String c "".
Proof. unfold String.rev. simpl. by rewrite rev_app_append. Qed.

Lemma rev_snoc x c : String.rev (x +:+ String c "") = String c (String.rev x).
Proof. unfold String.rev. by rewrite rev_app_of_append. Qed.

Lemma trimStart_clean s : startsClean (Js.trimStart s).
Proof.
  induction s as [|c s IH]; simpl; [done|].
  destruct (Js.isWhiteSpace c) eqn:Hc; [done|]. simpl. done.
Qed.

Lemma trimStart_id s : startsClean s -> Js.trimStart s = s.
Proof. destruct s as [|c s]; simpl; [done|]. by intros ->. Qed.

Lemma trimStart_before_clean w c t :
  Js.isWhiteSpace c = false ->
  Js.trimStart (w +:+ String c t) = Js.trimStart w +:+ String c t.
Proof.
  intros Hc. induction w as [|a w IH]; [simpl; by rewrite Hc|].
  rewrite append_cons. simpl. by destruct (Js.isWhiteSpace a).
Qed.

Lemma trimEnd_keeps_start s : startsClean s -> startsClean (Js.trimEnd s).
Proof.
  destruct s as [|c rest]; [done|]. simpl. intros Hc.
  unfold Js.trimEnd. rewrite rev_cons, trimStart_before_clean, rev_snoc by done.
  done.
Qed.

Lemma trimEnd_clean s : endsClean (Js.trimEnd s).
Proof. unfold endsClean, Js.trimEnd. rewrite rev_rev. apply trimStart_clean. Qed.

Lemma trimEnd_id s : endsClean s -> Js.trimEnd s = s.
Proof.
  unfold endsClean, Js.trimEnd. intros H. by rewrite trimStart_id, rev_rev.
Qed.

Lemma trim_clean s :
  startsClean (Js.trim s) /\ endsClean (Js.trim s) /\ Js.trim (Js.trim s) = Js.trim s.
Proof.
  assert (startsClean (Js.trim s)) as H1
    by (apply trimEnd_keeps_start, trimStart_clean).
  assert (endsClean (Js.trim s)) as H2 by apply trimEnd_clean.
  split_and!; try done.
  unfold Js.trim at 1. by rewrite (trimStart_id _ H1), (trimEnd_id _ H2).
Qed.

(** X8.  The [stdout] and [stderr] of every result [makeResult] builds
    neither begin nor end with a white-space code unit, and trimming
    them again changes nothing. *)
Theorem result_text_is_trimmed (o : ChildProcess) (code : option Z) (sig : SignalField) :
  let r := makeResult o code sig in
  (startsClean (stdout r) /\ endsClean (stdout r) /\ Js.trim (stdout r) = stdout r) /\
  (startsClean (stderr r) /\ endsClean (stderr r) /\ Js.trim (stderr r) = stderr r).
Proof. split; apply trim_clean. Qed.

(** *** The lines that are logged *)

Lemma known_evolves o o' e : evolves o o' -> known o e -> known o' e.
Proof.
  intros Hev. destruct e as [| |lg [] msg| |]; simpl; try done.
  - by rewrite (ev_command _ _ Hev), (ev_args _ _ Hev).
  - intros [[h Hc] ->]. split.
    + rewrite (ev_child _ _ Hev h Hc). eauto.
    + by rewrite (pid_evolves o o' h Hc Hev), (ev_command _ _ Hev).
Qed.

Lemma allowed_known st s e : targeted s -> allowed st s e -> known (obj s) e.
Proof.
  intros [_ Hw]. destruct e as [| |lg [] msg| |]; simpl; try done.
  - intros (_ & Hc & ->). unfold toString, pid. by rewrite Hc.
  - intros (_ & k & esc & Hk & ->).
    eapply Forall_lookup_1 in Hw; [|exact Hk].
    destruct Hw as [Hc Hp Hcmd _ _ _ _]. split; [eauto|].
    unfold sigkillFailed, sigkillFailedLine. by rewrite Hp, Hcmd.
Qed.

Lemma step_known st s :
  targeted s ->
  Forall (known (obj s)) (effects s) ->
  Forall (known (obj (step st s))) (effects (step st s)).
Proof.
  intros Ht Hall. destruct (appends_step st s) as (l & -> & Hl).
  apply Forall_app. split.
  - eapply Forall_impl; [exact Hall|]. intros e. apply known_evolves, evolves_step.
  - eapply Forall_impl; [exact Hl|]. intros e He.
    eapply known_evolves; [apply evolves_step|]. by eapply allowed_known.
Qed.

Lemma exec_known steps s :
  targeted s ->
  Forall (known (obj s)) (effects s) ->
  Forall (known (obj (exec steps s))) (effects (exec steps s)).
Proof.
  revert s. induction steps as [|st steps IH]; intros s Ht Hall; [done|].
  simpl. apply IH; [by apply step_targeted|by apply step_known].
Qed.

(** X17.  The object logs two kinds of lines only.  Every info line is the
    line of [run], and it always reads [(not started)]: it is written
    before [spawn] is called, so it never shows the pid.  Every warning is
    the SIGKILL-failed line of a forced stop, with the pid of the stored
    handle and the command of the object. *)
Theorem log_lines_are_fixed (cmd : string) (argv : list string)
    (base : ChildProcessOptions) (steps : list Step) (lg : Logger) (lvl : Level)
    (msg : string) :
  let s := exec steps (boot (constructor cmd argv base)) in
  ELog lg lvl msg ∈ effects s ->
  match lvl with
  | Info =>
      msg = "Running: (not started) [" +:+ cmd +:+ " " +:+ Js.join argv (Some " ") +:+ "]"
  | Warn =>
      is_Some (childProcess (obj s)) /\
      msg = "stop(): SIGKILL failed: pid=" +:+ Js.numberToString (pid (obj s)) +:+
            " command=" +:+ cmd
  end.
Proof.
  intros s Hin. set (s0 := boot (constructor cmd argv base)) in *.
  assert (Forall (known (obj s)) (effects s)) as Hall
    by (apply exec_known; [apply boot_targeted|done]).
  rewrite Forall_forall in Hall. specialize (Hall _ Hin). simpl in Hall.
  pose proof (ev_command _ _ (evolves_exec steps s0)) as Hcmd.
  pose proof (ev_args _ _ (evolves_exec steps s0)) as Harg.
  fold s in Hcmd, Harg. simpl in Hcmd, Harg.
  destruct lvl; rewrite Hcmd, ?Harg in Hall; exact Hall.
Qed.

Lemma log_lines_are_fixed_witness :
  let steps := CallRun noOptions (SpawnReturns child42) :: CallStop (Some true) None
               :: replicate 15 (Poll 0 false) ++ [Poll 0 true] in
  let s := exec steps (boot (constructor "echo" ["hello"] noOptions)) in
  ELog TheLogger Warn "stop(): SIGKILL failed: pid=42 command=echo" ∈ effects s /\
  is_Some (childProcess (obj s)) /\
  "stop(): SIGKILL failed: pid=42 command=echo" =
    "stop(): SIGKILL failed: pid=" +:+ Js.numberToString (pid (obj s)) +:+
    " command=" +:+ "echo".
Proof.
  intros steps s.
  assert (ELog TheLogger Warn "stop(): SIGKILL failed: pid=42 command=echo" ∈ effects s)
    as Hin by (apply list_elem_of_In; vm_compute; do 4 right; left; reflexivity).
  split; [exact Hin|].
  exact (log_lines_are_fixed "echo" ["hello"] noOptions steps _ _ _ Hin).
Defined.
